(** * ChakraCoreCppBridge: the value-marshaling bridge (chakra_bridge.h)

    A shallow embedding of namespace [jsc::details]: error-code remapping,
    [check], the [value] conversions, the [value::function] trampoline, the
    object builder and [referenced_value].

    The script engine (ChakraCore's C API, chakracommon.h) is not part of the
    bridge; it is taken as a parameter, the class [Engine]: every API entry
    point is a function on an abstract engine state that answers with a
    [JsErrorCode] and, for calls with an out-parameter, a result.  Host code
    runs in the monad [host]: it threads the engine state together with the
    log of API calls issued so far, and it may throw a C++ exception. *)

From Stdlib Require Import ZArith NArith List String Ascii Bool Lia DecimalString.
Import ListNotations.

Set Implicit Arguments.

Local Open Scope Z_scope.

(** ** Handles and strings *)

(** [JsValueRef], [JsPropertyIdRef]: opaque pointer-sized handles. *)
Definition JsValueRef := N.
Definition JsPropertyIdRef := N.
Definition JS_INVALID_REFERENCE : JsValueRef := 0%N.

(** [std::wstring] and narrow [std::string]; the code units are kept as
    characters. *)
Definition wstring := string.

(** [class value]: a single [JsValueRef] (the trampoline reinterprets an array
    of [JsValueRef] as an array of [value]). *)
Definition value := JsValueRef.

(** [value::is_empty] *)
Definition is_empty (v : value) : bool := N.eqb v JS_INVALID_REFERENCE.

(** ** Engine error codes and their remapping *)

Inductive JsErrorCode :=
| JsNoError
| JsErrorInvalidArgument
| JsErrorNullArgument
| JsErrorArgumentNotObject
| JsErrorOutOfMemory
| JsErrorScriptException
| JsErrorScriptCompile
| JsErrorFatal
| JsErrorInExceptionState
| JsErrorNoCurrentContext
| JsErrorOther (code : Z).   (* the remaining codes of the engine header *)

Inductive remapped_error :=
| InvalidArgument
| NullArgument
| NotAnObject
| OutOfMemory
| ScriptError
| SyntaxError
| FatalError
| Exception
| Unexpected.

Definition map_error (code : JsErrorCode) : remapped_error :=
  match code with
  | JsErrorInvalidArgument => InvalidArgument
  | JsErrorNullArgument => NullArgument
  | JsErrorArgumentNotObject => NotAnObject
  | JsErrorOutOfMemory => OutOfMemory
  | JsErrorScriptException => ScriptError
  | JsErrorScriptCompile => SyntaxError
  | JsErrorFatal => FatalError
  | JsErrorInExceptionState => Exception
  | _ => Unexpected
  end.

Definition succeeded (error : JsErrorCode) : bool :=
  match error with JsNoError => true | _ => false end.

Definition failed (error : JsErrorCode) : bool := negb (succeeded error).

(** ** Host failures (C++ exceptions) *)

Inductive host_failure :=
| exception (error : JsErrorCode)          (* jsc::exception *)
| callback_exception (message_ : wstring)  (* derives from std::runtime_error *)
| std_exception (what : string)            (* any other std::exception *)
| other_throw.                             (* any other thrown object *)

(** Result of running a piece of host code.  [Undefined] stands for C++
    undefined behaviour (an out-of-bounds read, an out-of-range
    floating-to-integer cast); no handler catches it. *)
Inductive outcome (A : Type) :=
| Returned (a : A)
| Thrown (f : host_failure)
| Undefined.
Arguments Thrown {A} f.
Arguments Undefined {A}.

(** ** IEEE doubles holding integers

    The integer conversions only ever build doubles from integers; a finite
    double is kept as mantissa and exponent, [m * 2^e] with [|m| <= 2^53]. *)
Inductive double := Dyadic (m e : Z).

Definition round_half_even (a k : Z) : Z :=
  let q := Z.shiftr a k in
  let r := a - Z.shiftl q k in
  let half := Z.shiftl 1 (k - 1) in
  if (half <? r) || ((r =? half) && Z.odd q) then q + 1 else q.

(** [static_cast<double>(z)]: exact up to 53 bits, else round to nearest,
    ties to even. *)
Definition double_of_Z (z : Z) : double :=
  let a := Z.abs z in
  if a <=? 2 ^ 53 then Dyadic z 0
  else let k := Z.log2 a - 52 in
       Dyadic (Z.sgn z * round_half_even a k) k.

(** The integer part of a double (truncation toward zero). *)
Definition trunc_double (d : double) : Z :=
  match d with
  | Dyadic m e => if 0 <=? e then m * 2 ^ e else Z.quot m (2 ^ (- e))
  end.

(** ** The log of API calls *)

Inductive api_event :=
| Ev_JsPointerToString (s : wstring)
| Ev_JsDoubleToNumber (d : double)
| Ev_JsIntToNumber (z : Z)
| Ev_JsBoolToBoolean (b : bool)
| Ev_JsGetNullValue
| Ev_JsGetUndefinedValue
| Ev_JsGetFalseValue
| Ev_JsCreateObject
| Ev_JsCreateFunction (ArgCount : nat)
| Ev_JsSetObjectBeforeCollectCallback (r : JsValueRef)
| Ev_JsGetPropertyIdFromName (name : wstring)
| Ev_JsGetProperty (o : JsValueRef) (p : JsPropertyIdRef)
| Ev_JsSetProperty (o : JsValueRef) (p : JsPropertyIdRef) (v : JsValueRef)
| Ev_JsDefineProperty (o : JsValueRef) (p : JsPropertyIdRef) (d : JsValueRef)
| Ev_JsCreateError (m : JsValueRef)
| Ev_JsCreateRangeError (m : JsValueRef)
| Ev_JsSetException (e : JsValueRef)
| Ev_JsGetAndClearException
| Ev_JsNumberToInt (v : JsValueRef)
| Ev_JsNumberToDouble (v : JsValueRef)
| Ev_JsConvertValueToString (v : JsValueRef)
| Ev_JsStringToPointer (v : JsValueRef)
| Ev_JsAddRef (v : JsValueRef)
| Ev_JsRelease (v : JsValueRef).

(** The state host code runs in: the engine's own state and the calls made. *)
Record world (S : Type) := mk_world { eng : S; calls : list api_event }.

(** A native function as the engine sees it ([JsNativeFunction]): called with
    the argument vector, index 0 being the receiver. *)
Definition native_function (S : Type) :=
  list JsValueRef -> world S -> outcome JsValueRef * world S.

(** ** The engine interface *)

Class Engine := {
  estate : Type;
  eng_JsPointerToString : wstring -> estate -> JsErrorCode * JsValueRef * estate;
  eng_JsDoubleToNumber : double -> estate -> JsErrorCode * JsValueRef * estate;
  eng_JsIntToNumber : Z -> estate -> JsErrorCode * JsValueRef * estate;
  eng_JsBoolToBoolean : bool -> estate -> JsErrorCode * JsValueRef * estate;
  eng_JsGetNullValue : estate -> JsErrorCode * JsValueRef * estate;
  eng_JsGetUndefinedValue : estate -> JsErrorCode * JsValueRef * estate;
  eng_JsGetFalseValue : estate -> JsErrorCode * JsValueRef * estate;
  eng_JsCreateObject : estate -> JsErrorCode * JsValueRef * estate;
  eng_JsCreateFunction :
    native_function estate -> estate -> JsErrorCode * JsValueRef * estate;
  eng_JsSetObjectBeforeCollectCallback :
    JsValueRef -> estate -> JsErrorCode * unit * estate;
  eng_JsGetPropertyIdFromName :
    wstring -> estate -> JsErrorCode * JsPropertyIdRef * estate;
  eng_JsGetProperty :
    JsValueRef -> JsPropertyIdRef -> estate -> JsErrorCode * JsValueRef * estate;
  eng_JsSetProperty :
    JsValueRef -> JsPropertyIdRef -> JsValueRef -> estate ->
    JsErrorCode * unit * estate;
  eng_JsDefineProperty :
    JsValueRef -> JsPropertyIdRef -> JsValueRef -> estate ->
    JsErrorCode * bool * estate;
  eng_JsCreateError : JsValueRef -> estate -> JsErrorCode * JsValueRef * estate;
  eng_JsCreateRangeError :
    JsValueRef -> estate -> JsErrorCode * JsValueRef * estate;
  eng_JsSetException : JsValueRef -> estate -> JsErrorCode * unit * estate;
  eng_JsGetAndClearException : estate -> JsErrorCode * JsValueRef * estate;
  eng_JsNumberToInt : JsValueRef -> estate -> JsErrorCode * Z * estate;
  eng_JsNumberToDouble : JsValueRef -> estate -> JsErrorCode * double * estate;
  eng_JsConvertValueToString :
    JsValueRef -> estate -> JsErrorCode * JsValueRef * estate;
  eng_JsStringToPointer : JsValueRef -> estate -> JsErrorCode * wstring * estate;
  eng_JsAddRef : JsValueRef -> estate -> JsErrorCode * unit * estate;
  eng_JsRelease : JsValueRef -> estate -> JsErrorCode * unit * estate;
  (** [std::wstring_convert<std::codecvt_utf8<wchar_t>>::from_bytes]; [None]
      when the bytes are not valid UTF-8 (it then throws std::range_error).
      Part of the C++ runtime rather than the engine, kept here with the other
      external collaborators. *)
  from_bytes : string -> option wstring
}.

(** ** Host integer types *)

Record int_type := mk_int_type { sizeof : Z; is_signed : bool }.

Definition t_schar := mk_int_type 1 true.
Definition t_uchar := mk_int_type 1 false.
Definition t_short := mk_int_type 2 true.
Definition t_ushort := mk_int_type 2 false.
Definition t_int := mk_int_type 4 true.
Definition t_unsigned := mk_int_type 4 false.
Definition t_longlong := mk_int_type 8 true.
Definition t_ulonglong := mk_int_type 8 false.

Definition bits (T : int_type) : Z := 8 * sizeof T.

Definition min_of (T : int_type) : Z :=
  if is_signed T then - 2 ^ (bits T - 1) else 0.
Definition max_of (T : int_type) : Z :=
  if is_signed T then 2 ^ (bits T - 1) - 1 else 2 ^ bits T - 1.

Definition in_range (T : int_type) (v : Z) : Prop := min_of T <= v <= max_of T.
Definition in_rangeb (T : int_type) (v : Z) : bool :=
  (min_of T <=? v) && (v <=? max_of T).

(** [std::numeric_limits<int>::max()] *)
Definition INT_MAX : Z := max_of t_int.
Definition INT_MIN : Z := min_of t_int.

(** [static_cast<T>(z)] between integer types: reduction modulo [2^bits]. *)
Definition static_cast (T : int_type) (z : Z) : Z :=
  if is_signed T
  then (z + 2 ^ (bits T - 1)) mod 2 ^ bits T - 2 ^ (bits T - 1)
  else z mod 2 ^ bits T.

(** The type predicates, on integral types other than bool, char, wchar_t. *)
Definition is_small_int_v (T : int_type) : bool := sizeof T <=? sizeof t_int.
Definition is_big_number_v (T : int_type) : bool :=
  negb (is_small_int_v T) && (sizeof T >? sizeof t_int).

(** The tag [sizeof(T) < sizeof(int) || std::is_signed<T>::value]. *)
Definition through_int (T : int_type) : bool :=
  (sizeof T <? sizeof t_int) || is_signed T.

(** [std::to_wstring(int)] *)
Definition to_wstring (z : Z) : wstring := NilZero.string_of_int (Z.to_int z).

(** The table [error_messages] of [to_js_exception]. *)
Definition error_messages (e : remapped_error) : wstring :=
  match e with
  | InvalidArgument => "Invalid argument"
  | NullArgument => "Null argument"
  | NotAnObject => "Argument not an object"
  | OutOfMemory => "Out of memory"
  | ScriptError => "Script error"
  | SyntaxError => "Syntax error"
  | FatalError => "Fatal error"
  | Exception => "Exception"
  | Unexpected => "Unexpected code"
  end%string.

(** [std::copy(first, last, out)] into an array: the copied elements replace
    the front of [dst]. *)
Definition std_copy {A} (src dst : list A) : list A :=
  src ++ skipn (List.length src) dst.

(** [size_t] is 64 bits wide; an [int] compared with a [size_t] is converted
    to it first. *)
Definition to_size_t (z : Z) : Z := z mod 2 ^ 64.

(** Reading [*reinterpret_cast<std::array<value, N> *>(p)]: the [N] elements
    at [p], if the vector has them. *)
Definition array_at (p : list JsValueRef) (N : nat) : option (list value) :=
  if (N <=? List.length p)%nat then Some (firstn N p) else None.

Section Bridge.
Context {E : Engine}.

(** ** The host monad *)

Definition host (A : Type) : Type :=
  world estate -> outcome A * world estate.

Definition ret {A} (a : A) : host A := fun w => (Returned a, w).
Definition throw {A} (f : host_failure) : host A := fun w => (Thrown f, w).
Definition undefined_behaviour {A} : host A := fun w => (Undefined, w).

Definition bind {A B} (c : host A) (k : A -> host B) : host B :=
  fun w =>
    match c w with
    | (Returned a, w') => k a w'
    | (Thrown f, w') => (Thrown f, w')
    | (Undefined, w') => (Undefined, w')
    end.

Notation "x <- c ;; k" := (bind c (fun x => k))
  (at level 61, c at next level, right associativity).
Notation "c ;;; k" := (bind c (fun _ => k))
  (at level 61, right associativity).

(** [try { body } catch (...) { handler }]: what the body did to the world
    stays done. *)
Definition try_catch {A} (body : host A) (handler : host_failure -> host A)
  : host A :=
  fun w =>
    match body w with
    | (Thrown f, w') => handler f w'
    | r => r
    end.

(** [try { body } catch (const exception &) { handler }] *)
Definition try_catch_exception {A} (body : host A)
    (handler : JsErrorCode -> host A) : host A :=
  try_catch body
    (fun f => match f with exception e => handler e | _ => throw f end).

(** An API call: the engine answers, the call is logged; it never throws. *)
Definition api_call {R} (ev : api_event)
    (op : estate -> JsErrorCode * R * estate) : host (JsErrorCode * R) :=
  fun w =>
    let '(code, r, e') := op (eng w) in
    (Returned (code, r), mk_world e' (calls w ++ [ev])).

Definition JsPointerToString s :=
  api_call (Ev_JsPointerToString s) (eng_JsPointerToString s).
Definition JsDoubleToNumber d :=
  api_call (Ev_JsDoubleToNumber d) (eng_JsDoubleToNumber d).
Definition JsIntToNumber z :=
  api_call (Ev_JsIntToNumber z) (eng_JsIntToNumber z).
Definition JsBoolToBoolean b :=
  api_call (Ev_JsBoolToBoolean b) (eng_JsBoolToBoolean b).
Definition JsGetNullValue := api_call Ev_JsGetNullValue eng_JsGetNullValue.
Definition JsGetUndefinedValue :=
  api_call Ev_JsGetUndefinedValue eng_JsGetUndefinedValue.
Definition JsGetFalseValue := api_call Ev_JsGetFalseValue eng_JsGetFalseValue.
Definition JsCreateObject := api_call Ev_JsCreateObject eng_JsCreateObject.
Definition JsCreateFunction (ArgCount : nat) (f : native_function estate) :=
  api_call (Ev_JsCreateFunction ArgCount) (eng_JsCreateFunction f).
Definition JsSetObjectBeforeCollectCallback r :=
  api_call (Ev_JsSetObjectBeforeCollectCallback r) (eng_JsSetObjectBeforeCollectCallback r).
Definition JsGetPropertyIdFromName n :=
  api_call (Ev_JsGetPropertyIdFromName n) (eng_JsGetPropertyIdFromName n).
Definition JsGetProperty o p :=
  api_call (Ev_JsGetProperty o p) (eng_JsGetProperty o p).
Definition JsSetProperty o p v :=
  api_call (Ev_JsSetProperty o p v) (eng_JsSetProperty o p v).
Definition JsDefineProperty o p d :=
  api_call (Ev_JsDefineProperty o p d) (eng_JsDefineProperty o p d).
Definition JsCreateError m :=
  api_call (Ev_JsCreateError m) (eng_JsCreateError m).
Definition JsCreateRangeError m :=
  api_call (Ev_JsCreateRangeError m) (eng_JsCreateRangeError m).
Definition JsSetException e :=
  api_call (Ev_JsSetException e) (eng_JsSetException e).
Definition JsGetAndClearException :=
  api_call Ev_JsGetAndClearException eng_JsGetAndClearException.
(** The out-parameter is an [int]. *)
Definition JsNumberToInt v :=
  api_call (Ev_JsNumberToInt v)
    (fun s => let '(c, z, s') := eng_JsNumberToInt v s in (c, static_cast t_int z, s')).
Definition JsNumberToDouble v :=
  api_call (Ev_JsNumberToDouble v) (eng_JsNumberToDouble v).
Definition JsConvertValueToString v :=
  api_call (Ev_JsConvertValueToString v) (eng_JsConvertValueToString v).
Definition JsStringToPointer v :=
  api_call (Ev_JsStringToPointer v) (eng_JsStringToPointer v).
Definition JsAddRef v := api_call (Ev_JsAddRef v) (eng_JsAddRef v).
Definition JsRelease v := api_call (Ev_JsRelease v) (eng_JsRelease v).

(** [check]: a failed code becomes a thrown [exception]. *)
Definition check (error : JsErrorCode) : host unit :=
  if failed error then throw (exception error) else ret tt.

(** The recurring shape [T result; check(JsXxx(..., &result)); return result;] *)
Definition checked {R} (c : host (JsErrorCode * R)) : host R :=
  cr <- c ;; check (fst cr) ;;; ret (snd cr).

(** ** Constructing values: the [from] overloads and the constructors *)

Definition from_wstring (text : wstring) : host JsValueRef :=
  checked (JsPointerToString text).
Definition from_double (v : double) : host JsValueRef :=
  checked (JsDoubleToNumber v).
Definition from_int (v : Z) : host JsValueRef := checked (JsIntToNumber v).
Definition from_bool (v : bool) : host JsValueRef := checked (JsBoolToBoolean v).
Definition from_nullptr : host JsValueRef := checked JsGetNullValue.

(** [from(T val, std::true_type)] and [from(T val, std::false_type)] *)
Definition from_tagged (T : int_type) (val : Z) (tag : bool) : host JsValueRef :=
  if tag then from_int (static_cast t_int val)
  else if val >? static_cast T INT_MAX
       then from_double (double_of_Z val)
       else from_int (static_cast t_int val).

(** [from(T val)] for an integer type: small integers by the tag, wider ones
    through [double]. *)
Definition from (T : int_type) (val : Z) : host JsValueRef :=
  if is_small_int_v T then from_tagged T val (through_int T)
  else from_double (double_of_Z val).

Definition undefined : host value := checked JsGetUndefinedValue.
Definition false_ : host value := checked JsGetFalseValue.
Definition object : host value := checked JsCreateObject.
Definition current_exception : host value := checked JsGetAndClearException.

(** ** Reading values back *)

Definition as_int (v : value) : host Z := checked (JsNumberToInt v).
Definition as_double (v : value) : host double := checked (JsNumberToDouble v).
Definition as_string (v : value) : host wstring := checked (JsStringToPointer v).

(** [value::to_string] *)
Definition to_string (v : value) : host wstring :=
  result <- checked (JsConvertValueToString v) ;; as_string result.

(** [as_small_int<T>(std::true_type)] and [as_small_int<T>(std::false_type)] *)
Definition as_small_int (T : int_type) (tag : bool) (v : value) : host Z :=
  if tag then
    x <- as_int v ;; ret (static_cast T x)
  else
    val <- as_int v ;;
    if val <? 0 then
      msg <- from_wstring "Value is out of range"%string ;;
      error <- checked (JsCreateRangeError msg) ;;
      JsSetException error ;;;
      throw (exception JsErrorScriptException)
    else ret (static_cast T val).

(** [static_cast<T>(double)]: the integer part when the type can hold it. *)
Definition cast_double (T : int_type) (d : double) : host Z :=
  let z := trunc_double d in
  if in_rangeb T z then ret z else undefined_behaviour.

(** [as<T>()] for an integer type. *)
Definition as_ (T : int_type) (v : value) : host Z :=
  if is_small_int_v T then as_small_int T (through_int T) v
  else d <- as_double v ;; cast_double T d.

(** ** Property access through [prop_ref<prop_ref_propid>] *)

Record prop_ref := mk_prop_ref { obj : value; propid : JsPropertyIdRef }.

(** [value::operator[](LPCTSTR propname)] *)
Definition index_name (v : value) (propname : wstring) : host prop_ref :=
  id <- checked (JsGetPropertyIdFromName propname) ;; ret (mk_prop_ref v id).

(** [prop_ref::get] *)
Definition prop_get (p : prop_ref) : host value :=
  checked (JsGetProperty (obj p) (propid p)).

(** [prop_ref::operator=(value)], that is [value::set(propid, value)] *)
Definition prop_set (p : prop_ref) (v : value) : host unit :=
  checked (JsSetProperty (obj p) (propid p) v).

(** [prop_ref::as<int>()] and [prop_ref::as_string()] *)
Definition prop_as_int (p : prop_ref) : host Z := v <- prop_get p ;; as_ t_int v.
Definition prop_as_string (p : prop_ref) : host wstring :=
  v <- prop_get p ;; as_string v.

(** ** The exception bridge *)

(** [position_conversion_functor_t]: a position map is given by the position
    it returns; [identity] is the one the bridge itself supplies. *)
Definition position_conversion_functor_t := Z -> Z -> Z * Z.
Definition identity : position_conversion_functor_t := fun line pos => (line, pos).

Definition is_ScriptCompile (c : JsErrorCode) : bool :=
  match c with JsErrorScriptCompile => true | _ => false end.
Definition is_ScriptException (c : JsErrorCode) : bool :=
  match c with JsErrorScriptException => true | _ => false end.

(** [print_exception(code, posmap)].  The local [message] keeps whatever was
    assigned before a failure: the inner handler returns the text obtained so
    far, the outer one the empty string. *)
Definition print_exception (code : JsErrorCode)
    (posmap : position_conversion_functor_t) : host (remapped_error * wstring) :=
  let remappedcode := map_error code in
  message <-
    try_catch_exception
      (if is_ScriptCompile code || is_ScriptException code then
         einfo <- current_exception ;;
         message <- to_string einfo ;;
         try_catch_exception
           (if is_ScriptCompile code then
              pl <- index_name einfo "line"%string ;;
              line <- prop_as_int pl ;;
              pc <- index_name einfo "column"%string ;;
              column <- prop_as_int pc ;;
              let '(line, column) := posmap line column in
              ret (message ++ " (" ++ to_wstring line ++ ":"
                     ++ to_wstring column ++ ")")%string
            else
              ps <- index_name einfo "stack"%string ;; prop_as_string ps)
           (fun _ => ret message)
       else ret ""%string)
      (fun _ => ret ""%string) ;;
  ret (remappedcode, message).

(** [exception::to_js_exception(posmap)] *)
Definition to_js_exception_with (code : JsErrorCode)
    (posmap : position_conversion_functor_t) : host value :=
  einfo <- print_exception code posmap ;;
  try_catch_exception
    (msg <- from_wstring (error_messages (fst einfo) ++ ": " ++ snd einfo)%string ;;
     exc <- checked (JsCreateError msg) ;;
     checked (JsSetException exc) ;;;
     ret exc)
    (fun _ => from_nullptr).

(** [exception::to_js_exception()] *)
Definition to_js_exception (code : JsErrorCode) : host value :=
  to_js_exception_with code identity.

(** ** Bound callables and the trampoline of [value::function] *)

(** A host callable as [value::function] receives it: it is handed the array
    of parameters (converting each [value] to its declared parameter type is
    part of calling it) and returns nothing, or a result together with the
    [value] constructor for the result type. *)
Inductive Callable : Type :=
| callable_void (f : list value -> host unit)
| callable_value (R : Type) (f : list value -> host R) (to_value : R -> host value).

(** [apply] / [apply_helper]: [std::invoke(f, params[I]...)] *)
Definition apply_helper {R} (f : list value -> host R) (params : list value)
  : host R := f params.

(** [execute_functor<N>], both [execute_functor_helper] overloads *)
Definition execute_functor (f : Callable) (values : list value) : host value :=
  match f with
  | callable_void g => apply_helper g values ;;; undefined
  | callable_value g to_value => r <- apply_helper g values ;; to_value r
  end.

(** The four handlers of the trampoline, in the order they are tried. *)
Definition trampoline_handler (f : host_failure) : host JsValueRef :=
  match f with
  | exception e => to_js_exception e
  | callback_exception message =>
      msg <- from_wstring message ;;
      result <- checked (JsCreateError msg) ;;
      JsSetException result ;;;
      ret result
  | std_exception what =>
      match from_bytes what with
      | Some text =>
          msg <- from_wstring text ;;
          result <- checked (JsCreateError msg) ;;
          JsSetException result ;;;
          ret result
      | None => throw (std_exception "bad conversion"%string)
      end
  | other_throw =>
      msg <- from_wstring "Unknown error"%string ;;
      result <- checked (JsCreateError msg) ;;
      JsSetException result ;;;
      ret result
  end.

(** The parameters the callable is run on, when fewer than [ArgCount] were
    supplied: a default-constructed array, its front overwritten. *)
Definition padded_params (ArgCount : nat) (runtime_args : Z)
    (begin : list JsValueRef) : list value :=
  let params := repeat JS_INVALID_REFERENCE ArgCount in
  std_copy (firstn (Z.to_nat runtime_args) begin) params.

(** The [try] block of the lambda handed to [JsCreateFunction];
    [argumentCount] is the length of [arguments]. *)
Definition trampoline_body (ArgCount : nat) (pf : Callable)
    (arguments : list JsValueRef) : host JsValueRef :=
  let argumentCount := Z.of_nat (List.length arguments) in
  let runtime_args := argumentCount - 1 in
  let begin := skipn 1 arguments in
  if to_size_t runtime_args >=? Z.of_nat ArgCount then
    match array_at begin ArgCount with
    | Some values => execute_functor pf values
    | None => undefined_behaviour
    end
  else
    execute_functor pf (padded_params ArgCount runtime_args begin).

(** The lambda: the block and its handlers. *)
Definition trampoline (ArgCount : nat) (pf : Callable) : native_function estate :=
  fun arguments =>
    try_catch (trampoline_body ArgCount pf arguments) trampoline_handler.

(** [value::function<ArgCount>(Callable)] *)
Definition function (ArgCount : nat) (f : Callable) : host value :=
  result <- checked (JsCreateFunction ArgCount (trampoline ArgCount f)) ;;
  checked (JsSetObjectBeforeCollectCallback result) ;;;
  ret result.

(** ** Building objects *)

(** [value::field] *)
Definition field (self : value) (name : wstring) (value_ : value) : host value :=
  p <- index_name self name ;; prop_set p value_ ;;; ret self.

(** A call [E.f(A)] of a member function, or of an overloaded operator, whose
    object expression [E] and argument [A] both call the engine.  Which of
    the two is evaluated first is the compiler's choice (the library targets
    Visual Studio 2015); since C++17 the object expression of a call comes
    first and the right operand of an assignment comes first.  The choice is
    a parameter of every definition that contains such a call. *)
Inductive evaluation_order := object_first | argument_first.

Definition member_call {A B C} (order : evaluation_order)
    (object_expr : host A) (argument : host B) (f : A -> B -> host C)
  : host C :=
  match order with
  | object_first => o <- object_expr ;; a <- argument ;; f o a
  | argument_first => a <- argument ;; o <- object_expr ;; f o a
  end.

(** [value::method<ArgCount>]: the function bound to the handler is assigned
    to the property reference [operator[](name)] of this object, a call of
    [prop_ref::operator=]. *)
Definition method (order : evaluation_order) (self : value) (ArgCount : nat)
    (name : wstring) (handler : Callable) : host value :=
  member_call order (index_name self name) (function ArgCount handler) prop_set ;;;
  ret self.

(** [value::define_property(LPCTSTR, descriptor)] *)
Definition define_property (self : value) (propname : wstring)
    (descriptor : value) : host bool :=
  id <- checked (JsGetPropertyIdFromName propname) ;;
  checked (JsDefineProperty self id descriptor).

(** The setter installed by the getter-only [property]. *)
Definition readonly_setter (name : wstring) : Callable :=
  callable_value
    (fun _ : list value =>
       msg <- from_wstring (name ++ ": property is read-only")%string ;;
       exc <- checked (JsCreateError msg) ;;
       checked (JsSetException exc) ;;;
       ret exc)
    (fun v => ret v).

(** The descriptor object of both [property] overloads,
    [object().field(L"configurable", false_()).field(L"get", function<0>(...))
             .field(L"set", function<1>(...))]:
    three calls of [field], each on the result of the one before; [order]
    gives, for the call that writes the named field, which of its object
    expression and its argument is evaluated first. *)
Definition accessor_descriptor (order : wstring -> evaluation_order)
    (getter setter : Callable) : host value :=
  member_call (order "set"%string)
    (member_call (order "get"%string)
       (member_call (order "configurable"%string) object false_
          (fun o f => field o "configurable"%string f))
       (function 0 getter)
       (fun o g => field o "get"%string g))
    (function 1 setter)
    (fun o s => field o "set"%string s).

(** [value::property(name, getter)] *)
Definition property (order : wstring -> evaluation_order) (self : value)
    (name : wstring) (getter : Callable) : host value :=
  d <- accessor_descriptor order getter (readonly_setter name) ;;
  define_property self name d ;;;
  ret self.

(** [value::property(name, getter, setter)] *)
Definition property_rw (order : wstring -> evaluation_order) (self : value)
    (name : wstring) (getter setter : Callable) : host value :=
  d <- accessor_descriptor order getter setter ;;
  define_property self name d ;;;
  ret self.

(** ** [referenced_value] *)

(** A [referenced_value] adds no member to [value]. *)
Definition referenced_value := value.

Definition add_ref (this : referenced_value) : host unit :=
  if negb (N.eqb this JS_INVALID_REFERENCE) then JsAddRef this ;;; ret tt
  else ret tt.

Definition release (this : referenced_value) : host unit :=
  if negb (N.eqb this JS_INVALID_REFERENCE) then JsRelease this ;;; ret tt
  else ret tt.

(** [referenced_value(const value &o)]: the new object. *)
Definition rv_from_value (o : value) : host referenced_value :=
  add_ref o ;;; ret o.

(** [referenced_value(const referenced_value &o)]: the new object. *)
Definition rv_copy_construct (o : referenced_value) : host referenced_value :=
  add_ref o ;;; ret o.

(** [referenced_value(referenced_value &&o)]: the new object and [o] after. *)
Definition rv_move_construct (o : referenced_value)
  : host (referenced_value * referenced_value) :=
  ret (o, JS_INVALID_REFERENCE).

(** [operator=(referenced_value &&o)]: a swap; [*this] and [o] after. *)
Definition rv_move_assign (this o : referenced_value)
  : host (referenced_value * referenced_value) :=
  ret (o, this).

(** [operator=(const referenced_value &o)]: [*this] after. *)
Definition rv_copy_assign (this o : referenced_value) : host referenced_value :=
  release this ;;;
  let this := o in
  add_ref this ;;;
  ret this.

(** [~referenced_value()] *)
Definition rv_destroy (this : referenced_value) : host unit := release this.

End Bridge.

Declare Scope host_scope.
Delimit Scope host_scope with host.
Notation "x <- c ;; k" := (bind c (fun x => k))
  (at level 61, c at next level, right associativity) : host_scope.
Notation "c ;;; k" := (bind c (fun _ => k))
  (at level 61, right associativity) : host_scope.
Local Open Scope host_scope.

(** ** Programs over [referenced_value] objects

    A program constructs, assigns and destroys objects; an object is named by
    the position at which it was constructed.  A slot holds the object's
    handle while the object is alive and [None] once it is destroyed; a
    statement naming an object that is not alive is not a program statement
    and is skipped. *)

Inductive rv_op :=
| CopyConstruct (src : nat)        (* referenced_value x{ src }; *)
| MoveConstruct (src : nat)        (* referenced_value x{ std::move(src) }; *)
| CopyAssign (dst src : nat)       (* dst = src; *)
| MoveAssign (dst src : nat)       (* dst = std::move(src); *)
| Destroy (x : nat).               (* x goes out of scope *)

Definition rv_store := list (option referenced_value).

Definition alive (st : rv_store) (i : nat) : option referenced_value :=
  match nth_error st i with
  | Some (Some v) => Some v
  | _ => None
  end.

Fixpoint set_slot (st : rv_store) (i : nat) (x : option referenced_value)
  : rv_store :=
  match st, i with
  | [], _ => []
  | _ :: rest, O => x :: rest
  | y :: rest, S j => y :: set_slot rest j x
  end.

Section Programs.
Context {E : Engine}.

Definition rv_step (op : rv_op) (st : rv_store) : host rv_store :=
  match op with
  | CopyConstruct src =>
      match alive st src with
      | Some o => this <- rv_copy_construct o ;; ret (st ++ [Some this])
      | None => ret st
      end
  | MoveConstruct src =>
      match alive st src with
      | Some o =>
          r <- rv_move_construct o ;;
          ret (set_slot st src (Some (snd r)) ++ [Some (fst r)])
      | None => ret st
      end
  | CopyAssign dst src =>
      match alive st dst, alive st src with
      | Some this, Some o =>
          this' <- rv_copy_assign this o ;; ret (set_slot st dst (Some this'))
      | _, _ => ret st
      end
  | MoveAssign dst src =>
      match alive st dst, alive st src with
      | Some this, Some o =>
          r <- rv_move_assign this o ;;
          ret (set_slot (set_slot st dst (Some (fst r))) src (Some (snd r)))
      | _, _ => ret st
      end
  | Destroy x =>
      match alive st x with
      | Some this => rv_destroy this ;;; ret (set_slot st x None)
      | None => ret st
      end
  end.

Fixpoint rv_run (ops : list rv_op) (st : rv_store) : host rv_store :=
  match ops with
  | [] => ret st
  | op :: rest => st' <- rv_step op st ;; rv_run rest st'
  end.

(** A program over clones of one original, pinned from the value [v]. *)
Definition rv_program (v : value) (ops : list rv_op) : host rv_store :=
  original <- rv_from_value v ;; rv_run ops [Some original].

End Programs.

(** The ledger read off the call log. *)
Definition is_increment (e : api_event) : bool :=
  match e with Ev_JsAddRef _ => true | _ => false end.
Definition is_decrement (e : api_event) : bool :=
  match e with Ev_JsRelease _ => true | _ => false end.

Definition increments (log : list api_event) : Z :=
  Z.of_nat (List.length (filter is_increment log)).
Definition decrements (log : list api_event) : Z :=
  Z.of_nat (List.length (filter is_decrement log)).

Definition non_empty (x : option referenced_value) : bool :=
  match x with
  | Some v => negb (N.eqb v JS_INVALID_REFERENCE)
  | None => false
  end.

(** The live objects that hold a handle. *)
Definition live_non_empty (st : rv_store) : Z :=
  Z.of_nat (List.length (filter non_empty st)).

(** What one slot contributes to [live_non_empty]. *)
Definition weight (x : option referenced_value) : Z :=
  if non_empty x then 1 else 0.

(** Increments minus decrements. *)
Definition net_count (log : list api_event) : Z :=
  increments log - decrements log.

(** ** A reference engine

    A small engine that implements the interface, used to run the bridge on
    concrete inputs: values live in heap cells, a handle is the cell's
    position plus one, the cells of [undefined], [null], [true] and [false]
    exist from the start.  With [cap = Some n] the heap holds at most [n]
    cells and an allocation beyond that answers [JsErrorOutOfMemory]. *)
Module RefEngine.

Inductive cell :=
| CUndefined
| CNull
| CBool (b : bool)
| CInt (z : Z)
| CDouble (d : double)
| CString (s : wstring)
| CError (message : JsValueRef)
| CRangeError (message : JsValueRef)
| CObject (props : list (JsPropertyIdRef * JsValueRef))
| CFunction.

Record state := mk_state {
  heap : list cell;
  names : list wstring;          (* property identifiers handed out *)
  pending : option JsValueRef    (* the pending exception *)
}.

Definition init : state :=
  mk_state [CUndefined; CNull; CBool true; CBool false] [] None.

Definition h_undefined : JsValueRef := 1%N.
Definition h_null : JsValueRef := 2%N.
Definition h_true : JsValueRef := 3%N.
Definition h_false : JsValueRef := 4%N.

Definition cell_at (s : state) (h : JsValueRef) : option cell :=
  if N.eqb h 0 then None else nth_error (heap s) (N.to_nat h - 1).

Definition is_full (cap : option nat) (s : state) : bool :=
  match cap with
  | Some n => (n <=? List.length (heap s))%nat
  | None => false
  end.

Definition alloc (cap : option nat) (c : cell) (s : state)
  : JsErrorCode * JsValueRef * state :=
  if is_full cap s then (JsErrorOutOfMemory, JS_INVALID_REFERENCE, s)
  else (JsNoError, N.of_nat (S (List.length (heap s))),
        mk_state (heap s ++ [c]) (names s) (pending s)).

Fixpoint set_nth {A} (l : list A) (i : nat) (x : A) : list A :=
  match l, i with
  | [], _ => []
  | _ :: rest, O => x :: rest
  | y :: rest, S j => y :: set_nth rest j x
  end.

Definition set_cell (s : state) (h : JsValueRef) (c : cell) : state :=
  mk_state (set_nth (heap s) (N.to_nat h - 1) c) (names s) (pending s).

Fixpoint index_of (n : wstring) (l : list wstring) : option nat :=
  match l with
  | [] => None
  | x :: rest =>
      if String.eqb x n then Some O
      else match index_of n rest with Some i => Some (S i) | None => None end
  end.

Definition property_id (n : wstring) (s : state)
  : JsErrorCode * JsPropertyIdRef * state :=
  match index_of n (names s) with
  | Some i => (JsNoError, N.of_nat (S i), s)
  | None => (JsNoError, N.of_nat (S (List.length (names s))),
             mk_state (heap s) (names s ++ [n]) (pending s))
  end.

Fixpoint lookup (p : JsPropertyIdRef) (props : list (JsPropertyIdRef * JsValueRef))
  : option JsValueRef :=
  match props with
  | [] => None
  | (q, v) :: rest => if N.eqb q p then Some v else lookup p rest
  end.

Fixpoint store (p : JsPropertyIdRef) (v : JsValueRef)
    (props : list (JsPropertyIdRef * JsValueRef))
  : list (JsPropertyIdRef * JsValueRef) :=
  match props with
  | [] => [(p, v)]
  | (q, u) :: rest =>
      if N.eqb q p then (q, v) :: rest else (q, u) :: store p v rest
  end.

Definition get_property (o : JsValueRef) (p : JsPropertyIdRef) (s : state)
  : JsErrorCode * JsValueRef * state :=
  match cell_at s o with
  | Some (CObject props) =>
      (JsNoError, match lookup p props with Some v => v | None => h_undefined end, s)
  | Some _ => (JsErrorArgumentNotObject, JS_INVALID_REFERENCE, s)
  | None => (JsErrorInvalidArgument, JS_INVALID_REFERENCE, s)
  end.

Definition set_property (o : JsValueRef) (p : JsPropertyIdRef) (v : JsValueRef)
    (s : state) : JsErrorCode * unit * state :=
  match cell_at s o with
  | Some (CObject props) => (JsNoError, tt, set_cell s o (CObject (store p v props)))
  | Some _ => (JsErrorArgumentNotObject, tt, s)
  | None => (JsErrorInvalidArgument, tt, s)
  end.

Definition define_property (o : JsValueRef) (p : JsPropertyIdRef) (d : JsValueRef)
    (s : state) : JsErrorCode * bool * state :=
  match cell_at s o, cell_at s d with
  | Some (CObject props), Some (CObject _) =>
      (JsNoError, true, set_cell s o (CObject (store p d props)))
  | Some (CObject _), _ => (JsErrorInvalidArgument, false, s)
  | Some _, _ => (JsErrorArgumentNotObject, false, s)
  | None, _ => (JsErrorInvalidArgument, false, s)
  end.

Definition create_error (cap : option nat) (mk : JsValueRef -> cell)
    (m : JsValueRef) (s : state) : JsErrorCode * JsValueRef * state :=
  match cell_at s m with
  | Some _ => alloc cap (mk m) s
  | None => (JsErrorInvalidArgument, JS_INVALID_REFERENCE, s)
  end.

Definition set_exception (e : JsValueRef) (s : state)
  : JsErrorCode * unit * state :=
  match cell_at s e with
  | Some _ => (JsNoError, tt, mk_state (heap s) (names s) (Some e))
  | None => (JsErrorInvalidArgument, tt, s)
  end.

Definition get_and_clear_exception (s : state)
  : JsErrorCode * JsValueRef * state :=
  match pending s with
  | Some e => (JsNoError, e, mk_state (heap s) (names s) None)
  | None => (JsErrorInvalidArgument, JS_INVALID_REFERENCE, s)
  end.

Definition number_to_int (v : JsValueRef) (s : state) : JsErrorCode * Z * state :=
  match cell_at s v with
  | Some (CInt z) => (JsNoError, z, s)
  | Some (CDouble d) => (JsNoError, static_cast t_int (trunc_double d), s)
  | _ => (JsErrorInvalidArgument, 0, s)
  end.

Definition number_to_double (v : JsValueRef) (s : state)
  : JsErrorCode * double * state :=
  match cell_at s v with
  | Some (CInt z) => (JsNoError, double_of_Z z, s)
  | Some (CDouble d) => (JsNoError, d, s)
  | _ => (JsErrorInvalidArgument, Dyadic 0 0, s)
  end.

Definition convert_to_string (cap : option nat) (v : JsValueRef) (s : state)
  : JsErrorCode * JsValueRef * state :=
  match cell_at s v with
  | Some (CString _) => (JsNoError, v, s)
  | Some (CInt z) => alloc cap (CString (to_wstring z)) s
  | Some (CError m) | Some (CRangeError m) => (JsNoError, m, s)
  | Some _ => alloc cap (CString "[object]"%string) s
  | None => (JsErrorInvalidArgument, JS_INVALID_REFERENCE, s)
  end.

Definition string_to_pointer (v : JsValueRef) (s : state)
  : JsErrorCode * wstring * state :=
  match cell_at s v with
  | Some (CString t) => (JsNoError, t, s)
  | _ => (JsErrorInvalidArgument, ""%string, s)
  end.

(** UTF-8 as this engine decodes it.  Its strings hold 8-bit characters: the
    one-byte sequences and the two-byte sequences up to U+00FF are decoded,
    every other byte sequence is refused (bytes that are not UTF-8, and
    characters its strings cannot hold). *)
Fixpoint utf8_decode (bytes : string) : option wstring :=
  match bytes with
  | EmptyString => Some EmptyString
  | String b rest =>
      let n := N_of_ascii b in
      if (n <? 128)%N then option_map (String b) (utf8_decode rest)
      else if ((n =? 194) || (n =? 195))%N then
        match rest with
        | String c rest' =>
            let m := N_of_ascii c in
            if ((128 <=? m) && (m <? 192))%N
            then option_map (String (ascii_of_N ((n - 192) * 64 + (m - 128))))
                            (utf8_decode rest')
            else None
        | EmptyString => None
        end
      else None
  end.

Definition touch (v : JsValueRef) (s : state) : JsErrorCode * unit * state :=
  match cell_at s v with
  | Some _ => (JsNoError, tt, s)
  | None => (JsErrorInvalidArgument, tt, s)
  end.

Definition engine (cap : option nat) : Engine := {|
  estate := state;
  eng_JsPointerToString := fun t => alloc cap (CString t);
  eng_JsDoubleToNumber := fun d => alloc cap (CDouble d);
  eng_JsIntToNumber := fun z => alloc cap (CInt z);
  eng_JsBoolToBoolean := fun b s => (JsNoError, if b then h_true else h_false, s);
  eng_JsGetNullValue := fun s => (JsNoError, h_null, s);
  eng_JsGetUndefinedValue := fun s => (JsNoError, h_undefined, s);
  eng_JsGetFalseValue := fun s => (JsNoError, h_false, s);
  eng_JsCreateObject := alloc cap (CObject []);
  eng_JsCreateFunction := fun _ => alloc cap CFunction;
  eng_JsSetObjectBeforeCollectCallback := touch;
  eng_JsGetPropertyIdFromName := property_id;
  eng_JsGetProperty := get_property;
  eng_JsSetProperty := set_property;
  eng_JsDefineProperty := define_property;
  eng_JsCreateError := create_error cap CError;
  eng_JsCreateRangeError := create_error cap CRangeError;
  eng_JsSetException := set_exception;
  eng_JsGetAndClearException := get_and_clear_exception;
  eng_JsNumberToInt := number_to_int;
  eng_JsNumberToDouble := number_to_double;
  eng_JsConvertValueToString := convert_to_string cap;
  eng_JsStringToPointer := string_to_pointer;
  eng_JsAddRef := touch;
  eng_JsRelease := touch;
  from_bytes := utf8_decode
|}.

(** The world a fresh context starts in. *)
Definition start (cap : option nat) : world (@estate (engine cap)) :=
  mk_world (init : @estate (engine cap)) [].

(** An engine with room, and one whose heap is full from the start. *)
Definition roomy : Engine := engine None.
Definition full : Engine := engine (Some 4%nat).
Definition fresh : world (@estate roomy) := start None.
Definition fresh_full : world (@estate full) := start (Some 4%nat).

(** The text of the Error a handle denotes, if it denotes one. *)
Definition error_text (s : state) (e : JsValueRef) : option wstring :=
  match cell_at s e with
  | Some (CError m) | Some (CRangeError m) =>
      match cell_at s m with
      | Some (CString t) => Some t
      | _ => None
      end
  | _ => None
  end.

(** The value an object holds under a property name, if any. *)
Definition property_of (s : state) (o : JsValueRef) (name : wstring)
  : option JsValueRef :=
  match cell_at s o, index_of name (names s) with
  | Some (CObject props), Some i => lookup (N.of_nat (S i)) props
  | _, _ => None
  end.

(** Whether a handle denotes a function. *)
Definition is_function (s : state) (h : JsValueRef) : bool :=
  match cell_at s h with Some CFunction => true | _ => false end.

End RefEngine.

(** ** Properties the statements below are phrased with *)

Section Properties.
Context {E : Engine}.

(** The run [r] ends by raising a script Error carrying the text [m]: a
    string is made from [m], an Error from that string, the Error is handed
    to [JsSetException], and it is the value returned. *)
Definition raises_error (r : outcome JsValueRef * world estate) (m : wstring)
  : Prop :=
  exists w1 str w2 err w3 code w4,
    JsPointerToString m w1 = (Returned (JsNoError, str), w2) /\
    JsCreateError str w2 = (Returned (JsNoError, err), w3) /\
    JsSetException err w3 = (Returned (code, tt), w4) /\
    r = (Returned err, w4).

(** An engine call of the object builder together with the answer it got. *)
Inductive answered_call :=
| Got_JsCreateObject (o : JsValueRef)
| Got_JsGetFalseValue (f : JsValueRef)
| Got_JsCreateFunction (ArgCount : nat) (native : native_function estate)
                       (f : JsValueRef)
| Got_JsSetObjectBeforeCollectCallback (f : JsValueRef)
| Got_JsGetPropertyIdFromName (name : wstring) (id : JsPropertyIdRef)
| Got_JsSetProperty (o : JsValueRef) (id : JsPropertyIdRef) (v : JsValueRef)
| Got_JsDefineProperty (o : JsValueRef) (id : JsPropertyIdRef) (d : JsValueRef)
                       (result : bool).

(** At [w] the call is made, the engine accepts it with that answer, and the
    world is [w'] afterwards. *)
Definition answers (a : answered_call) (w w' : world estate) : Prop :=
  match a with
  | Got_JsCreateObject o => JsCreateObject w = (Returned (JsNoError, o), w')
  | Got_JsGetFalseValue f => JsGetFalseValue w = (Returned (JsNoError, f), w')
  | Got_JsCreateFunction N native f =>
      JsCreateFunction N native w = (Returned (JsNoError, f), w')
  | Got_JsSetObjectBeforeCollectCallback f =>
      JsSetObjectBeforeCollectCallback f w = (Returned (JsNoError, tt), w')
  | Got_JsGetPropertyIdFromName name id =>
      JsGetPropertyIdFromName name w = (Returned (JsNoError, id), w')
  | Got_JsSetProperty o id v =>
      JsSetProperty o id v w = (Returned (JsNoError, tt), w')
  | Got_JsDefineProperty o id d result =>
      JsDefineProperty o id d w = (Returned (JsNoError, result), w')
  end.

(** The entry an answered call leaves in the log. *)
Definition event_of (a : answered_call) : api_event :=
  match a with
  | Got_JsCreateObject _ => Ev_JsCreateObject
  | Got_JsGetFalseValue _ => Ev_JsGetFalseValue
  | Got_JsCreateFunction N _ _ => Ev_JsCreateFunction N
  | Got_JsSetObjectBeforeCollectCallback f =>
      Ev_JsSetObjectBeforeCollectCallback f
  | Got_JsGetPropertyIdFromName name _ => Ev_JsGetPropertyIdFromName name
  | Got_JsSetProperty o id v => Ev_JsSetProperty o id v
  | Got_JsDefineProperty o id d _ => Ev_JsDefineProperty o id d
  end.

(** The calls of [l] are made one after the other from [w], each is accepted
    with its answer, and the world is [w'] after the last. *)
Fixpoint accepted (l : list answered_call) (w w' : world estate) : Prop :=
  match l with
  | [] => w' = w
  | a :: rest => exists w1, answers a w w1 /\ accepted rest w1 w'
  end.

(** The calls of the two operands of a member call, in the order chosen. *)
Definition operands {A} (order : evaluation_order)
    (object_expr argument : list A) : list A :=
  match order with
  | object_first => object_expr ++ argument
  | argument_first => argument ++ object_expr
  end.

(** Writing [v] to the property [name] of [o]: the name is resolved to [id],
    the write goes to [id]. *)
Definition writes (o : value) (name : wstring) (id : JsPropertyIdRef)
    (v : value) : list answered_call :=
  [Got_JsGetPropertyIdFromName name id; Got_JsSetProperty o id v].

(** Binding a callable with arity [N]: the function [r] is created from the
    callable's trampoline and the finalizer is registered on [r]. *)
Definition binds (N : nat) (f : Callable) (r : value) : list answered_call :=
  [Got_JsCreateFunction N (trampoline N f) r;
   Got_JsSetObjectBeforeCollectCallback r].

(** An accessor descriptor [d]: "configurable" is the engine's false [f],
    "get" the function [g] bound to the getter with arity 0, "set" the
    function [s] bound to the setter with arity 1. *)
Definition describes (order : wstring -> evaluation_order)
    (getter setter : Callable) (d f g s : value) (pc pg ps : JsPropertyIdRef)
  : list answered_call :=
  operands (order "set"%string)
    (operands (order "get"%string)
       (operands (order "configurable"%string)
          [Got_JsCreateObject d] [Got_JsGetFalseValue f]
        ++ writes d "configurable"%string pc f)
       (binds 0 getter g)
     ++ writes d "get"%string pg g)
    (binds 1 setter s)
  ++ writes d "set"%string ps s.

(** Defining the property [name] of [self] by the descriptor [d]. *)
Definition defines (self : value) (name : wstring) (pn : JsPropertyIdRef)
    (d : value) (result : bool) : list answered_call :=
  [Got_JsGetPropertyIdFromName name pn; Got_JsDefineProperty self pn d result].

(** The engine hands back the numbers it was given. *)
Definition numbers_faithful : Prop :=
  (forall z s, exists r s' s'',
      eng_JsIntToNumber z s = (JsNoError, r, s') /\
      eng_JsNumberToInt r s' = (JsNoError, z, s'')) /\
  (forall d s, exists r s' s'',
      eng_JsDoubleToNumber d s = (JsNoError, r, s') /\
      eng_JsNumberToDouble r s' = (JsNoError, d, s'')).

(** Every API call the computation [c] makes satisfies [P]. *)
Definition logs {A} (P : api_event -> Prop) (c : host A) : Prop :=
  forall w, exists l,
    calls (snd (c w)) = calls w ++ l /\ Forall P l.

(** Code that throws nothing but bridge exceptions and has no undefined
    behaviour. *)
Definition mild {A} (c : host A) : Prop :=
  forall w, match fst (c w) with
            | Returned _ | Thrown (exception _) => True
            | _ => False
            end.

(** Code that always returns. *)
Definition returns {A} (c : host A) : Prop :=
  forall w, exists a w', c w = (Returned a, w').

(** The ledger balances with the live handles: since the count stood at
    [base], increments minus decrements equal the live non-empty objects. *)
Definition balanced (base : Z) (st : rv_store) (w : world estate) : Prop :=
  net_count (calls w) = base + live_non_empty st.

(** Sample callables. *)
Definition failing (f : host_failure) : Callable :=
  callable_void (fun _ => throw f).

Definition second_argument : Callable :=
  callable_value (fun params => ret (nth 1 params JS_INVALID_REFERENCE))
                 (fun v => ret v).

Definition answer : Callable := callable_value (fun _ => ret 42) (from t_int).

(** Callables that report what they were called with: how many parameters,
    and how many of them are empty. *)
Definition parameter_count : Callable :=
  callable_value (fun params => ret (Z.of_nat (List.length params))) (from t_int).

Definition empty_parameters : Callable :=
  callable_value
    (fun params => ret (Z.of_nat (List.length (filter is_empty params))))
    (from t_int).

(** A callable declared with one [int] parameter: [[](int x) { return x + 1; }]. *)
Definition successor : Callable :=
  callable_value
    (fun params => x <- as_ t_int (nth 0 params JS_INVALID_REFERENCE) ;;
                   ret (static_cast t_int (x + 1)))
    (from t_int).

End Properties.

(** The calls that create an Error or make one pending. *)
Definition is_raise (e : api_event) : bool :=
  match e with
  | Ev_JsCreateError _ | Ev_JsCreateRangeError _ | Ev_JsSetException _ => true
  | _ => false
  end.

(** The integer types of the host: 1, 2, 4 or 8 bytes. *)
Definition valid_int_type (T : int_type) : Prop :=
  sizeof T = 1 \/ sizeof T = 2 \/ sizeof T = 4 \/ sizeof T = 8.

(** * More of the bridge *)

Section Details.
Context {E : Engine}.

(** [exception_details]: the constructor takes the current exception; the
    three accessors read a property as a string and give the empty string
    when that fails with a bridge exception. *)
Definition exception_details : host value := current_exception.

Definition exception_details_message (einfo : value) : host wstring :=
  try_catch_exception
    (p <- index_name einfo "message"%string ;; prop_as_string p)
    (fun _ => ret ""%string).

Definition exception_details_stack (einfo : value) : host wstring :=
  try_catch_exception
    (p <- index_name einfo "stack"%string ;; prop_as_string p)
    (fun _ => ret ""%string).

Definition exception_details_description (einfo : value) : host wstring :=
  try_catch_exception
    (p <- index_name einfo "description"%string ;; prop_as_string p)
    (fun _ => ret ""%string).

(** [v[key].as<int>()] and [v[key].as_string()]: the property is looked up by
    name, read, and converted. *)
Definition fetch_int (v : value) (key : wstring) : host Z :=
  bind (index_name v key) prop_as_int.

Definition fetch_string (v : value) (key : wstring) : host wstring :=
  bind (index_name v key) prop_as_string.

(** [value::set(JsPropertyIdRef, value)] and [value::set(LPCTSTR, value)] *)
Definition set_propid (self : value) (id : JsPropertyIdRef) (v : value)
  : host unit :=
  checked (JsSetProperty self id v).

Definition set_name (self : value) (propname : wstring) (v : value)
  : host unit :=
  id <- checked (JsGetPropertyIdFromName propname) ;; set_propid self id v.

(** [value::null()] *)
Definition null : host value := from_nullptr.

End Details.

(** The per-handle ledger: the calls on one handle, the objects holding it. *)
Definition increments_of (h : JsValueRef) (e : api_event) : bool :=
  match e with Ev_JsAddRef v => N.eqb v h | _ => false end.
Definition decrements_of (h : JsValueRef) (e : api_event) : bool :=
  match e with Ev_JsRelease v => N.eqb v h | _ => false end.

Definition net_count_of (h : JsValueRef) (log : list api_event) : Z :=
  Z.of_nat (List.length (filter (increments_of h) log))
  - Z.of_nat (List.length (filter (decrements_of h) log)).

Definition holds (h : JsValueRef) (x : option referenced_value) : bool :=
  match x with Some v => N.eqb v h | None => false end.

Definition live_holding (h : JsValueRef) (st : rv_store) : Z :=
  Z.of_nat (List.length (filter (holds h) st)).

Definition weight_of (h : JsValueRef) (x : option referenced_value) : Z :=
  if holds h x then 1 else 0.

(** ** The [runtime] wrapper

    A [runtime] owns a [JsRuntimeHandle]; it cannot be copied.  Its
    destructor ignores what the engine answers, so an operation is given by
    the objects it leaves and the session calls it makes. *)
Module Session.

Definition JsRuntimeHandle := N.
Definition JS_INVALID_RUNTIME_HANDLE : JsRuntimeHandle := 0%N.

Inductive session_call :=
| Call_JsSetCurrentContext (context : N)
| Call_JsDisposeRuntime (handle : JsRuntimeHandle).

Definition runtime := JsRuntimeHandle.

(** [runtime() = default] *)
Definition default_construct : runtime := JS_INVALID_RUNTIME_HANDLE.

(** [runtime(runtime &&o)]: the new object and [o] after. *)
Definition move_construct (o : runtime) : runtime * runtime :=
  (o, JS_INVALID_RUNTIME_HANDLE).

(** [operator=(runtime &&o)]: a swap; [*this] and [o] after. *)
Definition move_assign (this o : runtime) : runtime * runtime := (o, this).

(** [~runtime()] *)
Definition destroy (this : runtime) : list session_call :=
  if negb (N.eqb this JS_INVALID_RUNTIME_HANDLE)
  then [Call_JsSetCurrentContext JS_INVALID_REFERENCE;
        Call_JsDisposeRuntime this]
  else [].

(** Programs over [runtime] objects, named by construction order as for
    [referenced_value]; a statement naming a destroyed object is skipped. *)
Inductive op :=
| Default                          (* runtime x; *)
| MoveConstruct (src : nat)        (* runtime x{ std::move(src) }; *)
| MoveAssign (dst src : nat)       (* dst = std::move(src); *)
| Destroy (x : nat).               (* x goes out of scope *)

Definition store := list (option runtime).

Definition alive (st : store) (i : nat) : option runtime :=
  match nth_error st i with
  | Some (Some h) => Some h
  | _ => None
  end.

Fixpoint set_slot (st : store) (i : nat) (x : option runtime) : store :=
  match st, i with
  | [], _ => []
  | _ :: rest, O => x :: rest
  | y :: rest, S j => y :: set_slot rest j x
  end.

(** One statement: the store after it and the calls it made. *)
Definition step (o : op) (st : store) : store * list session_call :=
  match o with
  | Default => (st ++ [Some default_construct], [])
  | MoveConstruct src =>
      match alive st src with
      | Some h =>
          let r := move_construct h in
          (set_slot st src (Some (snd r)) ++ [Some (fst r)], [])
      | None => (st, [])
      end
  | MoveAssign dst src =>
      match alive st dst, alive st src with
      | Some this, Some h =>
          let r := move_assign this h in
          (set_slot (set_slot st dst (Some (fst r))) src (Some (snd r)), [])
      | _, _ => (st, [])
      end
  | Destroy x =>
      match alive st x with
      | Some this => (set_slot st x None, destroy this)
      | None => (st, [])
      end
  end.

Fixpoint run (ops : list op) (st : store) : store * list session_call :=
  match ops with
  | [] => (st, [])
  | o :: rest =>
      let '(st1, l1) := step o st in
      let '(st2, l2) := run rest st1 in
      (st2, l1 ++ l2)
  end.

Definition is_dispose_of (h : JsRuntimeHandle) (c : session_call) : bool :=
  match c with Call_JsDisposeRuntime g => N.eqb g h | _ => false end.

(** How often [h] was disposed, how many live objects own it. *)
Definition disposals (h : JsRuntimeHandle) (log : list session_call) : Z :=
  Z.of_nat (List.length (filter (is_dispose_of h) log)).

Definition owns (h : JsRuntimeHandle) (x : option runtime) : bool :=
  match x with Some g => N.eqb g h | None => false end.

Definition owners (h : JsRuntimeHandle) (st : store) : Z :=
  Z.of_nat (List.length (filter (owns h) st)).

Definition own_weight (h : JsRuntimeHandle) (x : option runtime) : Z :=
  if owns h x then 1 else 0.

End Session.

(** Sample worlds on the reference engine: with a compile error pending (an
    object carrying a line and a column), with a script exception pending (an
    object carrying a stack trace), and with an object carrying a message. *)
Definition compile_error_pending : world (@estate RefEngine.roomy) :=
  snd ((o <- object ;; l <- from t_int 3 ;; c <- from t_int 7 ;;
        field o "line"%string l ;;; field o "column"%string c ;;;
        JsSetException o) RefEngine.fresh).

Definition script_exception_pending : world (@estate RefEngine.roomy) :=
  snd ((o <- object ;; m <- from_wstring "at f (a.js:1)"%string ;;
        field o "stack"%string m ;;; JsSetException o) RefEngine.fresh).

Definition object_with_message : world (@estate RefEngine.roomy) :=
  snd ((o <- object ;; m <- from_wstring "boom"%string ;;
        field o "message"%string m) RefEngine.fresh).

(** * Lemmas on the host monad *)

Section MonadFacts.
Context {E : Engine}.

Lemma bind_returned {A B} (c : host A) (k : A -> host B) w a w1 :
  c w = (Returned a, w1) -> bind c k w = k a w1.
Proof. intros H. unfold bind. rewrite H. reflexivity. Qed.

Lemma bind_thrown {A B} (c : host A) (k : A -> host B) w f w1 :
  c w = (Thrown f, w1) -> bind c k w = (Thrown f, w1).
Proof. intros H. unfold bind. rewrite H. reflexivity. Qed.

Lemma bind_returned_inv {A B} (c : host A) (k : A -> host B) w b w' :
  bind c k w = (Returned b, w') ->
  exists a w1, c w = (Returned a, w1) /\ k a w1 = (Returned b, w').
Proof.
  unfold bind. destruct (c w) as [[a | f |] w1]; intros H; try discriminate.
  exists a, w1. split; [reflexivity | exact H].
Qed.

Lemma checked_ok {R} (c : host (JsErrorCode * R)) w r w1 :
  c w = (Returned (JsNoError, r), w1) -> checked c w = (Returned r, w1).
Proof. intros H. unfold checked. rewrite (bind_returned _ _ _ H). reflexivity. Qed.

Lemma checked_failed {R} (c : host (JsErrorCode * R)) w code r w1 :
  c w = (Returned (code, r), w1) -> failed code = true ->
  checked c w = (Thrown (exception code), w1).
Proof.
  intros H Hf. unfold checked. rewrite (bind_returned _ _ _ H).
  unfold check, bind. simpl. rewrite Hf. reflexivity.
Qed.

Lemma failed_false code : failed code = false -> code = JsNoError.
Proof. destruct code; simpl; intros H; try discriminate; reflexivity. Qed.

Lemma api_call_eq {R} ev (op : estate -> JsErrorCode * R * estate) w :
  api_call ev op w =
  (Returned (fst (fst (op (eng w))), snd (fst (op (eng w)))),
   mk_world (snd (op (eng w))) (calls w ++ [ev])).
Proof. unfold api_call. destruct (op (eng w)) as [[c r] s]. reflexivity. Qed.

Lemma checked_api_inv {R} ev (op : estate -> JsErrorCode * R * estate) w r w' :
  checked (api_call ev op) w = (Returned r, w') ->
  exists s', op (eng w) = (JsNoError, r, s') /\
             w' = mk_world s' (calls w ++ [ev]).
Proof.
  unfold checked, bind. rewrite api_call_eq.
  destruct (op (eng w)) as [[c r0] s]. simpl. unfold check.
  destruct (failed c) eqn:Hf; simpl; intros H; try discriminate.
  injection H as <- <-. apply failed_false in Hf. subst c.
  exists s. split; reflexivity.
Qed.

Lemma try_catch_returned {A} (body : host A) h w a w1 :
  body w = (Returned a, w1) -> try_catch body h w = (Returned a, w1).
Proof. intros H. unfold try_catch. rewrite H. reflexivity. Qed.

Lemma try_catch_thrown {A} (body : host A) h w f w1 :
  body w = (Thrown f, w1) -> try_catch body h w = h f w1.
Proof. intros H. unfold try_catch. rewrite H. reflexivity. Qed.

End MonadFacts.

(** * The trampoline: how many arguments reach the callable *)

Section TrampolineArguments.
Context {E : Engine}.

Lemma to_size_t_small z : 0 <= z < 2 ^ 64 -> to_size_t z = z.
Proof. intros H. unfold to_size_t. apply Z.mod_small. exact H. Qed.

Lemma to_size_t_le z : 0 <= z -> to_size_t z <= z.
Proof. intros H. unfold to_size_t. apply Z.mod_le; lia. Qed.

Lemma body_with_enough N pf arguments :
  Z.of_nat (List.length arguments) <= 65535 ->
  Z.of_nat (List.length arguments) - 1 >= Z.of_nat N ->
  trampoline_body N pf arguments =
  execute_functor pf (firstn N (skipn 1 arguments)).
Proof.
  intros Hshort Hge. unfold trampoline_body.
  rewrite to_size_t_small by lia.
  replace (_ >=? _) with true by (symmetry; apply Z.geb_le; lia).
  unfold array_at.
  replace (_ <=? _)%nat with true; [reflexivity |].
  symmetry. apply Nat.leb_le. rewrite length_skipn. lia.
Qed.

Lemma skipn_repeat {A} (x : A) (n r : nat) :
  skipn r (repeat x n) = repeat x (n - r).
Proof.
  revert r. induction n as [| n IH]; intros [| r]; simpl; try reflexivity.
  apply IH.
Qed.

Lemma body_with_fewer N pf arguments :
  1 <= Z.of_nat (List.length arguments) ->
  Z.of_nat (List.length arguments) - 1 < Z.of_nat N ->
  trampoline_body N pf arguments =
  execute_functor pf
    (skipn 1 arguments ++
     repeat JS_INVALID_REFERENCE (N - (List.length arguments - 1))).
Proof.
  intros Hrecv Hlt. unfold trampoline_body.
  assert (Hs : to_size_t (Z.of_nat (List.length arguments) - 1)
               <= Z.of_nat (List.length arguments) - 1)
    by (apply to_size_t_le; lia).
  replace (_ >=? _) with false
    by (symmetry; rewrite Z.geb_leb; apply Z.leb_gt; lia).
  unfold padded_params, std_copy. f_equal.
  replace (Z.to_nat (Z.of_nat (List.length arguments) - 1))
    with (List.length (skipn 1 arguments)) by (rewrite length_skipn; lia).
  rewrite firstn_all. f_equal.
  rewrite length_skipn. apply skipn_repeat.
Qed.

Lemma first_positional {A} (N : nat) (l : list A) :
  firstn N (skipn 1 (firstn (S N) l)) = firstn N (skipn 1 l).
Proof.
  destruct l as [| a l]; simpl.
  - destruct N; reflexivity.
  - rewrite firstn_firstn, Nat.min_id. reflexivity.
Qed.

(** Without a receiver the count [argumentCount - 1] is [-1]; compared with
    the arity (a [size_t]) it is the largest [size_t], and the parameter array
    is read past the end of the vector. *)
Lemma no_receiver_is_undefined (N : nat) pf w :
  (0 < N)%nat -> Z.of_nat N < 2 ^ 64 ->
  trampoline N pf [] w = (Undefined, w).
Proof.
  intros HN Hsize. unfold trampoline, try_catch, trampoline_body. simpl.
  change (to_size_t (-1)) with (2 ^ 64 - 1).
  replace (2 ^ 64 - 1 >=? Z.of_nat N) with true
    by (symmetry; rewrite Z.geb_leb; apply Z.leb_le; lia).
  unfold array_at. simpl. destruct N; [lia | reflexivity].
Qed.

(** C2. With declared arity [N] and an argument vector of length [M]
    (an unsigned short), [R = M - 1]: if [R >= N] the host callable itself is
    invoked, on exactly the first [N] positional arguments; a callable
    without result is followed by the engine's [undefined], one with a
    result by the conversion of that result; the remaining [R - N] arguments
    reach nothing, and the call is the call made with the receiver and the
    first [N] arguments alone. *)
Theorem extra_arguments_are_dropped
    (N : nat) (arguments : list JsValueRef) :
  let M := Z.of_nat (List.length arguments) in
  let R := M - 1 in
  let first_N := firstn N (skipn 1 arguments) in
  M <= 65535 -> R >= Z.of_nat N ->
  List.length first_N = N
  /\ (forall (f : list value -> host unit) w,
        trampoline N (callable_void f) arguments w
        = try_catch (f first_N ;;; undefined) trampoline_handler w)
  /\ (forall (T : Type) (g : list value -> host T) (box : T -> host value) w,
        trampoline N (callable_value g box) arguments w
        = try_catch (r <- g first_N ;; box r) trampoline_handler w)
  /\ (forall pf w,
        trampoline N pf arguments w
        = trampoline N pf (firstn (S N) arguments) w).
Proof.
  intros M R first_N Hshort Hge. subst M R first_N.
  split; [| split; [| split]].
  - rewrite length_firstn, length_skipn. lia.
  - intros f w. unfold trampoline. rewrite body_with_enough by assumption.
    reflexivity.
  - intros T g box w. unfold trampoline.
    rewrite body_with_enough by assumption. reflexivity.
  - intros pf w. unfold trampoline.
    rewrite body_with_enough by assumption.
    rewrite body_with_enough.
    + rewrite first_positional. reflexivity.
    + rewrite length_firstn. lia.
    + rewrite length_firstn. lia.
Qed.

(** C3. With declared arity [N], a receiver at index 0 and [R < N] supplied
    arguments, the host callable itself is invoked on an array of length [N]:
    the [R] supplied arguments, then [N - R] empty handles.  The count never
    makes the call fail: the callable is always run, and when it returns
    (and its result converts) the call returns. *)
Theorem missing_arguments_are_empty
    (N : nat) (arguments : list JsValueRef) :
  let M := Z.of_nat (List.length arguments) in
  let R := M - 1 in
  let supplied := skipn 1 arguments in
  let params := supplied ++ repeat JS_INVALID_REFERENCE (N - Z.to_nat R) in
  1 <= M -> R < Z.of_nat N ->
  List.length params = N
  /\ firstn (Z.to_nat R) params = supplied
  /\ skipn (Z.to_nat R) params = repeat JS_INVALID_REFERENCE (N - Z.to_nat R)
  /\ Forall (fun v => is_empty v = true) (skipn (Z.to_nat R) params)
  /\ (forall (f : list value -> host unit) w,
        trampoline N (callable_void f) arguments w
        = try_catch (f params ;;; undefined) trampoline_handler w)
  /\ (forall (T : Type) (g : list value -> host T) (box : T -> host value) w,
        trampoline N (callable_value g box) arguments w
        = try_catch (r <- g params ;; box r) trampoline_handler w)
  /\ (forall (f : list value -> host unit) w w1 u w2,
        f params w = (Returned tt, w1) ->
        JsGetUndefinedValue w1 = (Returned (JsNoError, u), w2) ->
        trampoline N (callable_void f) arguments w = (Returned u, w2))
  /\ (forall (T : Type) (g : list value -> host T) (box : T -> host value)
             w r w1 v w2,
        g params w = (Returned r, w1) ->
        box r w1 = (Returned v, w2) ->
        trampoline N (callable_value g box) arguments w = (Returned v, w2)).
Proof.
  intros M R supplied params Hrecv Hlt.
  assert (Hlen : List.length supplied = Z.to_nat R)
    by (unfold supplied, R, M; rewrite length_skipn; lia).
  assert (Hparams : List.length params = N).
  { unfold params. rewrite length_app, repeat_length, Hlen. lia. }
  assert (Hskip : skipn (Z.to_nat R) params
                  = repeat JS_INVALID_REFERENCE (N - Z.to_nat R)).
  { unfold params. rewrite <- Hlen, skipn_app, skipn_all, Nat.sub_diag.
    reflexivity. }
  assert (Hbody : forall pf,
             trampoline_body N pf arguments = execute_functor pf params).
  { intros pf. rewrite body_with_fewer by assumption.
    unfold params, supplied, R, M.
    replace (Z.to_nat (Z.of_nat (List.length arguments) - 1))
      with (List.length arguments - 1)%nat by lia.
    reflexivity. }
  split; [exact Hparams |].
  split.
  { unfold params. rewrite <- Hlen, firstn_app, firstn_all, Nat.sub_diag.
    simpl. apply app_nil_r. }
  split; [exact Hskip |].
  split.
  { rewrite Hskip. apply Forall_forall. intros v Hin.
    apply repeat_spec in Hin. subst v. reflexivity. }
  split.
  { intros f w. unfold trampoline. rewrite Hbody. reflexivity. }
  split.
  { intros T g box w. unfold trampoline. rewrite Hbody. reflexivity. }
  split.
  - intros f w w1 u w2 Hf Hu. unfold trampoline. rewrite Hbody.
    apply try_catch_returned. simpl. unfold apply_helper.
    rewrite (bind_returned _ _ _ Hf). unfold undefined.
    apply checked_ok. exact Hu.
  - intros T g box w r w1 v w2 Hg Hbox. unfold trampoline. rewrite Hbody.
    apply try_catch_returned. simpl. unfold apply_helper.
    rewrite (bind_returned _ _ _ Hg). exact Hbox.
Qed.

End TrampolineArguments.

(** * The trampoline: containing host failures *)

Section Containment.
Context {E : Engine}.

Lemma mild_ret {A} (a : A) : mild (ret a).
Proof. intros w. exact I. Qed.

Lemma mild_throw {A} e : mild (@throw E A (exception e)).
Proof. intros w. exact I. Qed.

Lemma mild_bind {A B} (c : host A) (k : A -> host B) :
  mild c -> (forall a, mild (k a)) -> mild (bind c k).
Proof.
  intros Hc Hk w. unfold bind. specialize (Hc w).
  destruct (c w) as [[a | [e | | |] |] w1]; simpl in *; try contradiction.
  - apply Hk.
  - exact I.
Qed.

Lemma mild_api {R} ev (op : estate -> JsErrorCode * R * estate) :
  mild (api_call ev op).
Proof. intros w. rewrite api_call_eq. exact I. Qed.

Lemma mild_check code : mild (check code).
Proof. intros w. unfold check. destruct (failed code); exact I. Qed.

Lemma mild_checked {R} (c : host (JsErrorCode * R)) : mild c -> mild (checked c).
Proof.
  intros Hc. unfold checked. apply mild_bind; [exact Hc | intros cr].
  apply mild_bind; [apply mild_check | intros _; apply mild_ret].
Qed.

Lemma mild_try_catch_exception {A} (c : host A) h :
  mild c -> (forall e, mild (h e)) -> mild (try_catch_exception c h).
Proof.
  intros Hc Hh w. unfold try_catch_exception, try_catch. specialize (Hc w).
  destruct (c w) as [[a | [e | | |] |] w1]; simpl in *; try contradiction.
  - exact I.
  - apply Hh.
Qed.

Lemma returns_try_catch_exception {A} (c : host A) h :
  mild c -> (forall e, returns (h e)) -> returns (try_catch_exception c h).
Proof.
  intros Hc Hh w. unfold try_catch_exception, try_catch. specialize (Hc w).
  destruct (c w) as [[a | [e | | |] |] w1]; simpl in *; try contradiction.
  - exists a, w1. reflexivity.
  - apply Hh.
Qed.

Create HintDb mild.
#[local] Hint Resolve mild_ret mild_throw mild_api mild_check mild_checked
  mild_try_catch_exception : mild.

Ltac mild_steps :=
  repeat first
    [ apply mild_bind; [| intros ? ]
    | solve [ auto with mild ] ].

Lemma mild_prop_as_int p : mild (prop_as_int p).
Proof.
  unfold prop_as_int, prop_get, as_, as_small_int, as_int. simpl.
  unfold JsGetProperty, JsNumberToInt. mild_steps.
Qed.

Lemma mild_prop_as_string p : mild (prop_as_string p).
Proof.
  unfold prop_as_string, prop_get, as_string.
  unfold JsGetProperty, JsStringToPointer. mild_steps.
Qed.

Lemma mild_index_name v n : mild (index_name v n).
Proof. unfold index_name, JsGetPropertyIdFromName. mild_steps. Qed.

Lemma mild_to_string v : mild (to_string v).
Proof.
  unfold to_string, as_string, JsConvertValueToString, JsStringToPointer.
  mild_steps.
Qed.

#[local] Hint Resolve mild_prop_as_int mild_prop_as_string mild_index_name
  mild_to_string : mild.

(** With the identity position map [print_exception] swallows every failure
    of the calls it makes. *)
Lemma print_exception_returns code : returns (print_exception code identity).
Proof.
  intros w. unfold print_exception.
  match goal with
  | |- context [bind ?c _] =>
      assert (Hr : returns c)
  end.
  { apply returns_try_catch_exception.
    - destruct (is_ScriptCompile code || is_ScriptException code);
        [| apply mild_ret].
      unfold current_exception, JsGetAndClearException.
      apply mild_bind; [auto with mild | intros einfo].
      apply mild_bind; [auto with mild | intros message].
      apply mild_try_catch_exception; [| auto with mild].
      destruct (is_ScriptCompile code).
      + apply mild_bind; [auto with mild | intros pl].
        apply mild_bind; [auto with mild | intros line].
        apply mild_bind; [auto with mild | intros pc].
        apply mild_bind; [auto with mild | intros column].
        apply mild_ret.
      + apply mild_bind; [auto with mild | intros ps]. auto with mild.
    - intros e w0. exists ""%string, w0. reflexivity. }
  destruct (Hr w) as (message & w' & Hm).
  rewrite (bind_returned _ _ _ Hm).
  eexists; eexists; reflexivity.
Qed.

(** The three calls by which every handler raises its Error. *)
Lemma raise_chain (m : wstring) w1 str w2 err w3 code w4 :
  JsPointerToString m w1 = (Returned (JsNoError, str), w2) ->
  JsCreateError str w2 = (Returned (JsNoError, err), w3) ->
  JsSetException err w3 = (Returned (code, tt), w4) ->
  (msg <- from_wstring m ;;
   result <- checked (JsCreateError msg) ;;
   JsSetException result ;;;
   ret result) w1 = (Returned err, w4).
Proof.
  intros H1 H2 H3. unfold from_wstring.
  rewrite (bind_returned _ _ _ (checked_ok _ _ H1)).
  rewrite (bind_returned _ _ _ (checked_ok _ _ H2)).
  rewrite (bind_returned _ _ _ H3). reflexivity.
Qed.

End Containment.

Section Handlers.
Context {E : Engine}.

Lemma trampoline_caught N pf arguments w f w1 :
  trampoline_body N pf arguments w = (Thrown f, w1) ->
  trampoline N pf arguments w = trampoline_handler f w1.
Proof. intros H. unfold trampoline. apply try_catch_thrown. exact H. Qed.

Lemma raises_error_log r m :
  raises_error r m ->
  exists pre str err,
    calls (snd r) = pre ++ [Ev_JsPointerToString m; Ev_JsCreateError str;
                            Ev_JsSetException err].
Proof.
  intros (w1 & str & w2 & err & w3 & code & w4 & H1 & H2 & H3 & Hr).
  exists (calls w1), str, err. subst r. simpl.
  unfold JsPointerToString, JsCreateError, JsSetException in *.
  rewrite api_call_eq in H1. rewrite api_call_eq in H2.
  rewrite api_call_eq in H3.
  injection H1 as _ _ <-. injection H2 as _ _ <-. injection H3 as _ _ <-.
  simpl. rewrite <- !app_assoc. reflexivity.
Qed.

(** When what the callable throws is none of a bridge exception, a callback
    failure or a standard exception, the Error the trampoline raises is built
    from the literal of the catch-all handler. *)
Lemma unclassified_failure_message
    (N : nat) (pf : Callable) (arguments : list JsValueRef)
    (w w1 : world estate) (str : JsValueRef) (w2 : world estate)
    (err : JsValueRef) (w3 : world estate) (code : JsErrorCode)
    (w4 : world estate) :
  trampoline_body N pf arguments w = (Thrown other_throw, w1) ->
  JsPointerToString "Unknown error"%string w1 = (Returned (JsNoError, str), w2) ->
  JsCreateError str w2 = (Returned (JsNoError, err), w3) ->
  JsSetException err w3 = (Returned (code, tt), w4) ->
  trampoline N pf arguments w = (Returned err, w4)
  /\ raises_error (trampoline N pf arguments w) "Unknown error"%string.
Proof.
  intros Hbody H1 H2 H3.
  assert (Hrun : trampoline N pf arguments w = (Returned err, w4)).
  { rewrite (trampoline_caught _ _ _ _ Hbody). simpl.
    apply (raise_chain _ _ H1 H2 H3). }
  split; [exact Hrun |].
  exists w1, str, w2, err, w3, code, w4. auto.
Qed.

(** C5. When the callable throws a callback failure carrying the text [m],
    the trampoline builds the string from exactly [m], the Error from that
    string, makes it the pending exception and returns it. *)
Theorem callback_failure_message_is_verbatim
    (N : nat) (pf : Callable) (arguments : list JsValueRef)
    (m : wstring) (w w1 : world estate) (str : JsValueRef) (w2 : world estate)
    (err : JsValueRef) (w3 : world estate) (code : JsErrorCode)
    (w4 : world estate) :
  trampoline_body N pf arguments w = (Thrown (callback_exception m), w1) ->
  JsPointerToString m w1 = (Returned (JsNoError, str), w2) ->
  JsCreateError str w2 = (Returned (JsNoError, err), w3) ->
  JsSetException err w3 = (Returned (code, tt), w4) ->
  trampoline N pf arguments w = (Returned err, w4)
  /\ raises_error (trampoline N pf arguments w) m
  /\ calls w4 = calls w1 ++ [Ev_JsPointerToString m; Ev_JsCreateError str;
                             Ev_JsSetException err].
Proof.
  intros Hbody H1 H2 H3.
  assert (Hrun : trampoline N pf arguments w = (Returned err, w4)).
  { rewrite (trampoline_caught _ _ _ _ Hbody). simpl.
    apply (raise_chain _ _ H1 H2 H3). }
  split; [exact Hrun |]. split.
  - exists w1, str, w2, err, w3, code, w4. auto.
  - unfold JsPointerToString, JsCreateError, JsSetException in *.
    rewrite api_call_eq in H1. rewrite api_call_eq in H2.
    rewrite api_call_eq in H3.
    injection H1 as _ _ <-. injection H2 as _ _ <-. injection H3 as _ _ <-.
    simpl. rewrite <- !app_assoc. reflexivity.
Qed.

End Handlers.


(** * Integer conversions *)

Section Conversions.
Context {E : Engine}.

Ltac int_cases T Hvalid :=
  destruct T as [sz sg]; unfold valid_int_type in Hvalid; simpl in Hvalid;
  destruct Hvalid as [-> | [-> | [-> | ->]]]; destruct sg.

(** Replaces the closed powers of two by their numerals. *)
Ltac eval_pows :=
  repeat match goal with
         | |- context [Z.pow_pos ?a ?b] =>
             let n := eval vm_compute in (Z.pow_pos a b) in
             change (Z.pow_pos a b) with n
         | H : context [Z.pow_pos ?a ?b] |- _ =>
             let n := eval vm_compute in (Z.pow_pos a b) in
             change (Z.pow_pos a b) with n in H
         end.

Lemma static_cast_in_range T v :
  valid_int_type T -> in_range T v -> static_cast T v = v.
Proof.
  intros Hvalid. int_cases T Hvalid;
    unfold in_range, static_cast, min_of, max_of, bits; simpl;
    intros Hr; eval_pows; try (rewrite Z.mod_small by lia); lia.
Qed.

Lemma static_cast_int_range z : INT_MIN <= static_cast t_int z <= INT_MAX.
Proof.
  unfold static_cast, INT_MIN, INT_MAX, min_of, max_of, bits. simpl.
  eval_pows.
  pose proof (Z.mod_pos_bound (z + 2147483648) 4294967296). lia.
Qed.

Lemma small_range_in_int T v :
  valid_int_type T -> through_int T = true -> is_small_int_v T = true ->
  in_range T v -> INT_MIN <= v <= INT_MAX.
Proof.
  intros Hvalid. int_cases T Hvalid;
    unfold through_int, is_small_int_v, in_range, INT_MIN, INT_MAX,
      min_of, max_of, bits; simpl; intros; try discriminate; eval_pows; lia.
Qed.

Lemma checked_api_ok {R} ev (op : estate -> JsErrorCode * R * estate) w r s' :
  op (eng w) = (JsNoError, r, s') ->
  checked (api_call ev op) w = (Returned r, mk_world s' (calls w ++ [ev])).
Proof.
  intros H. apply checked_ok. unfold api_call. rewrite H. reflexivity.
Qed.

Lemma as_int_range v w z w1 :
  JsNumberToInt v w = (Returned (JsNoError, z), w1) -> INT_MIN <= z <= INT_MAX.
Proof.
  unfold JsNumberToInt, api_call.
  destruct (eng_JsNumberToInt v (eng w)) as [[c z0] s]. intros H.
  injection H as _ <- _. apply static_cast_int_range.
Qed.

Lemma int_path_round_trip z w :
  numbers_faithful -> INT_MIN <= z <= INT_MAX ->
  exists r w1 w2,
    from_int z w = (Returned r, w1) /\ as_int r w1 = (Returned z, w2).
Proof.
  intros [Hint _] Hz.
  destruct (Hint z (eng w)) as (r & s' & s'' & Hto & Hback).
  exists r. eexists. eexists. split.
  - unfold from_int, JsIntToNumber. apply checked_api_ok. exact Hto.
  - unfold as_int, JsNumberToInt. apply checked_api_ok. simpl.
    rewrite Hback. rewrite (@static_cast_in_range t_int z).
    + reflexivity.
    + right; right; left; reflexivity.
    + exact Hz.
Qed.

Lemma double_path_round_trip d w :
  numbers_faithful ->
  exists r w1 w2,
    from_double d w = (Returned r, w1) /\ as_double r w1 = (Returned d, w2).
Proof.
  intros [_ Hdbl].
  destruct (Hdbl d (eng w)) as (r & s' & s'' & Hto & Hback).
  exists r. eexists. eexists. split.
  - unfold from_double, JsDoubleToNumber. apply checked_api_ok. exact Hto.
  - unfold as_double, JsNumberToDouble. apply checked_api_ok. exact Hback.
Qed.

Lemma exact_double v : Z.abs v <= 2 ^ 53 -> trunc_double (double_of_Z v) = v.
Proof.
  intros H. unfold double_of_Z.
  replace (Z.abs v <=? 2 ^ 53) with true by (symmetry; apply Z.leb_le; exact H).
  simpl. lia.
Qed.

Lemma as_small_unsigned_bound T r w z :
  valid_int_type T -> is_small_int_v T = true -> through_int T = false ->
  fst (as_ T r w) = Returned z -> 0 <= z <= INT_MAX.
Proof.
  intros Hvalid Hsmall Htag. unfold as_. rewrite Hsmall, Htag.
  unfold as_small_int, as_int, checked, bind.
  destruct (JsNumberToInt r w) as [[[c val] | f |] w1] eqn:Hn;
    simpl; try discriminate.
  unfold check. destruct (failed c) eqn:Hf; simpl; try discriminate.
  apply failed_false in Hf. subst c. apply as_int_range in Hn.
  destruct (val <? 0) eqn:Hneg.
  - unfold from_wstring, checked, bind.
    repeat match goal with
           | |- context [match ?x with _ => _ end] => destruct x; simpl
           end; discriminate.
  - simpl. intros H. injection H as <-. apply Z.ltb_ge in Hneg.
    rewrite static_cast_in_range.
    + lia.
    + exact Hvalid.
    + revert Hsmall Htag Hn Hneg. int_cases T Hvalid;
        unfold through_int, is_small_int_v, in_range, INT_MIN, INT_MAX,
          min_of, max_of, bits; simpl; intros; try discriminate;
        eval_pows; lia.
Qed.

(** C10. Reading a dynamic number into an unsigned type as wide as [int]:
    when the number read as an [int] is negative, a RangeError with the text
    "Value is out of range"%string is created and made the pending exception, and a
    bridge exception with code [JsErrorScriptException] (category
    ScriptError) is thrown; no wrapped value is returned.  When it is not
    negative it is returned unchanged. *)
Theorem unsigned_conversion_rejects_negative
    (T : int_type) (v : value) (w : world estate) (z : Z) (w1 : world estate) :
  sizeof T = sizeof t_int -> is_signed T = false ->
  JsNumberToInt v w = (Returned (JsNoError, z), w1) ->
  (z < 0 ->
   forall msg w2 err w3 code w4,
     JsPointerToString "Value is out of range"%string w1
       = (Returned (JsNoError, msg), w2) ->
     JsCreateRangeError msg w2 = (Returned (JsNoError, err), w3) ->
     JsSetException err w3 = (Returned (code, tt), w4) ->
     as_ T v w = (Thrown (exception JsErrorScriptException), w4)
     /\ map_error JsErrorScriptException = ScriptError)
  /\ (0 <= z -> as_ T v w = (Returned z, w1)).
Proof.
  intros Hsize Hsign Hread.
  assert (Hz := as_int_range _ _ Hread).
  assert (Has : as_ T v w
                = (val <- as_int v ;;
                   if val <? 0 then
                     msg <- from_wstring "Value is out of range"%string ;;
                     error <- checked (JsCreateRangeError msg) ;;
                     JsSetException error ;;;
                     throw (exception JsErrorScriptException)
                   else ret (static_cast T val)) w).
  { unfold as_, is_small_int_v, through_int. rewrite Hsize, Hsign.
    reflexivity. }
  rewrite Has. unfold as_int.
  rewrite (bind_returned _ _ _ (checked_ok _ _ Hread)).
  split.
  - intros Hneg msg w2 err w3 code w4 H1 H2 H3.
    replace (z <? 0) with true by (symmetry; apply Z.ltb_lt; exact Hneg).
    unfold from_wstring.
    rewrite (bind_returned _ _ _ (checked_ok _ _ H1)).
    rewrite (bind_returned _ _ _ (checked_ok _ _ H2)).
    rewrite (bind_returned _ _ _ H3). split; reflexivity.
  - intros Hpos.
    replace (z <? 0) with false by (symmetry; apply Z.ltb_ge; exact Hpos).
    unfold ret. f_equal. f_equal.
    destruct T as [sz sg]. simpl in *. subst sz sg.
    unfold static_cast, bits. simpl.
    unfold INT_MIN, INT_MAX, min_of, max_of, bits in Hz. simpl in Hz.
    eval_pows. apply Z.mod_small. lia.
Qed.

(** Where the round trip holds.  For every host integer type [T] and value
    [v] of that type, on an engine that hands back the numbers it is given:
    - if [v] lies in the range of [int], converting to a dynamic value and
      back returns [v]; so it does for a type wider than [int] when
      [|v| <= 2^53];
    - a value outside the range of [int] is converted through [double];
    - for a type wider than [int] the round trip is the cast to [double] and
      back, whatever the value. *)
Lemma integer_round_trip (T : int_type) (v : Z) (w : world estate) :
  valid_int_type T -> in_range T v -> numbers_faithful ->
  (INT_MIN <= v <= INT_MAX \/ (is_small_int_v T = false /\ Z.abs v <= 2 ^ 53) ->
   exists r w1 w2,
     from T v w = (Returned r, w1) /\ as_ T r w1 = (Returned v, w2))
  /\ (v < INT_MIN \/ INT_MAX < v -> from T v = from_double (double_of_Z v))
  /\ (is_small_int_v T = false ->
      exists r w1 w2,
        from T v w = (Returned r, w1)
        /\ as_ T r w1 = cast_double T (double_of_Z v) w2).
Proof.
  intros Hvalid Hrange Hfaith.
  assert (Hwide : is_small_int_v T = false ->
                  exists r w1 w2,
                    from T v w = (Returned r, w1)
                    /\ as_ T r w1 = cast_double T (double_of_Z v) w2).
  { intros Hbig. unfold from, as_. rewrite Hbig.
    destruct (double_path_round_trip (double_of_Z v) w Hfaith)
      as (r & w1 & w2 & Hto & Hback).
    exists r, w1, w2. split; [exact Hto |].
    rewrite (bind_returned _ _ _ Hback). reflexivity. }
  repeat split.
  - intros Hcase. destruct (is_small_int_v T) eqn:Hsmall.
    + assert (Hint : INT_MIN <= v <= INT_MAX)
        by (destruct Hcase as [H | [H _]]; [exact H | discriminate H]).
      destruct (int_path_round_trip w Hfaith Hint)
        as (r & w1 & w2 & Hto & Hback).
      exists r, w1, w2. unfold from, as_. rewrite Hsmall.
      unfold from_tagged, as_small_int.
      rewrite (@static_cast_in_range t_int v)
        by (try exact Hint; right; right; left; reflexivity).
      destruct (through_int T) eqn:Htag.
      * split; [exact Hto |].
        rewrite (bind_returned _ _ _ Hback).
        rewrite static_cast_in_range by assumption. reflexivity.
      * assert (Hu : static_cast T INT_MAX = INT_MAX /\ 0 <= v).
        { revert Hsmall Htag Hrange. int_cases T Hvalid;
            unfold through_int, is_small_int_v, in_range, static_cast,
              INT_MAX, min_of, max_of, bits; simpl; intros;
            try discriminate; eval_pows; split; first [reflexivity | lia]. }
        destruct Hu as [-> Hpos].
        replace (v >? INT_MAX) with false
          by (symmetry; rewrite Z.gtb_ltb; apply Z.ltb_ge; lia).
        split; [exact Hto |].
        rewrite (bind_returned _ _ _ Hback).
        replace (v <? 0) with false by (symmetry; apply Z.ltb_ge; exact Hpos).
        rewrite static_cast_in_range by assumption. reflexivity.
    + destruct (Hwide eq_refl) as (r & w1 & w2 & Hto & Hback).
      exists r, w1, w2. split; [exact Hto |]. rewrite Hback.
      assert (Habs : Z.abs v <= 2 ^ 53).
      { destruct Hcase as [H | [_ H]]; [| exact H].
        unfold INT_MIN, INT_MAX, min_of, max_of, bits in H. simpl in H.
        eval_pows. lia. }
      unfold cast_double. rewrite (exact_double _ Habs).
      replace (in_rangeb T v) with true; [reflexivity |].
      symmetry. unfold in_rangeb. unfold in_range in Hrange.
      apply andb_true_intro. split; apply Z.leb_le; lia.
  - intros Hout. unfold from. destruct (is_small_int_v T) eqn:Hsmall;
      [| reflexivity].
    unfold from_tagged.
    assert (Hu : through_int T = false /\ static_cast T INT_MAX = INT_MAX
                 /\ INT_MAX < v).
    { revert Hsmall Hrange Hout. int_cases T Hvalid;
        unfold through_int, is_small_int_v, in_range, static_cast,
          INT_MIN, INT_MAX, min_of, max_of, bits; simpl; intros;
        try discriminate; eval_pows; repeat split;
        first [reflexivity | lia]. }
    destruct Hu as (-> & -> & Hgt).
    replace (v >? INT_MAX) with true
      by (symmetry; rewrite Z.gtb_ltb; apply Z.ltb_lt; exact Hgt).
    reflexivity.
  - exact Hwide.
Qed.

End Conversions.

(** * [referenced_value]: the reference-count ledger *)

Unset Implicit Arguments.

Section Ledger.
Context {E : Engine}.

Lemma net_count_app l l' : net_count (l ++ l') = net_count l + net_count l'.
Proof.
  unfold net_count, increments, decrements.
  rewrite !filter_app, !length_app, !Nat2Z.inj_add. lia.
Qed.

Lemma live_cons x st : live_non_empty (x :: st) = weight x + live_non_empty st.
Proof.
  unfold live_non_empty, weight. simpl filter. destruct (non_empty x).
  - simpl List.length. rewrite Nat2Z.inj_succ. lia.
  - lia.
Qed.

Lemma live_app st x : live_non_empty (st ++ [x]) = live_non_empty st + weight x.
Proof.
  induction st as [| y st IH].
  - rewrite app_nil_l, live_cons. unfold live_non_empty. simpl. lia.
  - rewrite <- app_comm_cons, !live_cons, IH. lia.
Qed.

Lemma live_set_slot st i x y :
  nth_error st i = Some y ->
  live_non_empty (set_slot st i x) = live_non_empty st - weight y + weight x.
Proof.
  revert i. induction st as [| z st IH]; intros [| i] H; simpl in H;
    try discriminate.
  - injection H as ->. simpl. rewrite !live_cons. lia.
  - simpl. rewrite !live_cons, (IH i H). lia.
Qed.

Lemma nth_error_set_slot_eq st i x y :
  nth_error st i = Some y -> nth_error (set_slot st i x) i = Some x.
Proof.
  revert i. induction st as [| z st IH]; intros [| i] H; simpl in *;
    try discriminate; [reflexivity | exact (IH i H)].
Qed.

Lemma nth_error_set_slot_ne st i j x :
  i <> j -> nth_error (set_slot st i x) j = nth_error st j.
Proof.
  revert i j. induction st as [| z st IH]; intros [| i] [| j] H; simpl;
    try reflexivity; try congruence.
  apply IH. congruence.
Qed.

Lemma alive_nth st i v : alive st i = Some v -> nth_error st i = Some (Some v).
Proof.
  unfold alive. destruct (nth_error st i) as [[u |] |]; intros H;
    try discriminate. injection H as ->. reflexivity.
Qed.

(** What [add_ref] and [release] do to the world. *)
Lemma add_ref_run this w :
  exists w', add_ref this w = (Returned tt, w')
             /\ calls w' = calls w ++ (if is_empty this then []
                                       else [Ev_JsAddRef this]).
Proof.
  unfold add_ref, is_empty. destruct (N.eqb this JS_INVALID_REFERENCE); simpl.
  - exists w. rewrite app_nil_r. split; reflexivity.
  - unfold bind, JsAddRef. rewrite api_call_eq. eexists. split; reflexivity.
Qed.

Lemma release_run this w :
  exists w', release this w = (Returned tt, w')
             /\ calls w' = calls w ++ (if is_empty this then []
                                       else [Ev_JsRelease this]).
Proof.
  unfold release, is_empty. destruct (N.eqb this JS_INVALID_REFERENCE); simpl.
  - exists w. rewrite app_nil_r. split; reflexivity.
  - unfold bind, JsRelease. rewrite api_call_eq. eexists. split; reflexivity.
Qed.

Lemma net_add_ref (this : referenced_value) :
  net_count (if is_empty this then [] else [Ev_JsAddRef this])
  = weight (@Some referenced_value this).
Proof. unfold weight, non_empty, is_empty. destruct (N.eqb _ _); reflexivity. Qed.

Lemma net_release (this : referenced_value) :
  net_count (if is_empty this then [] else [Ev_JsRelease this])
  = - weight (@Some referenced_value this).
Proof. unfold weight, non_empty, is_empty. destruct (N.eqb _ _); reflexivity. Qed.

Lemma rv_step_balanced base op st w :
  balanced base st w ->
  exists st' w', rv_step op st w = (Returned st', w') /\ balanced base st' w'.
Proof.
  unfold balanced. intros Hb. destruct op as [src | src | dst src | dst src | x];
    simpl.
  - (* copy construction *)
    destruct (alive st src) as [o |] eqn:Ho; [| exists st, w; auto].
    unfold rv_copy_construct.
    destruct (add_ref_run o w) as (w' & Hrun & Hlog).
    exists (st ++ [Some o]), w'. split.
    + unfold bind. rewrite Hrun. reflexivity.
    + rewrite Hlog, net_count_app, net_add_ref, live_app. lia.
  - (* move construction *)
    destruct (alive st src) as [o |] eqn:Ho; [| exists st, w; auto].
    eexists. exists w. split; [reflexivity |]. simpl.
    rewrite live_app, (live_set_slot _ _ _ _ (alive_nth _ _ _ Ho)), Hb.
    unfold weight at 2. simpl. lia.
  - (* copy assignment *)
    destruct (alive st dst) as [this |] eqn:Ht; [| exists st, w; auto].
    destruct (alive st src) as [o |] eqn:Ho; [| exists st, w; auto].
    unfold rv_copy_assign.
    destruct (release_run this w) as (w1 & Hrel & Hlog1).
    destruct (add_ref_run o w1) as (w2 & Hadd & Hlog2).
    exists (set_slot st dst (Some o)), w2. split.
    + unfold bind. rewrite Hrel, Hadd. reflexivity.
    + rewrite Hlog2, Hlog1, !net_count_app, net_add_ref, net_release.
      rewrite (live_set_slot _ _ _ _ (alive_nth _ _ _ Ht)). lia.
  - (* move assignment *)
    destruct (alive st dst) as [this |] eqn:Ht; [| exists st, w; auto].
    destruct (alive st src) as [o |] eqn:Ho; [| exists st, w; auto].
    eexists. exists w. split; [reflexivity |]. simpl.
    destruct (Nat.eq_dec dst src) as [-> | Hne].
    + rewrite Ht in Ho. injection Ho as ->.
      rewrite (live_set_slot _ _ _ _
                 (nth_error_set_slot_eq _ _ _ _ (alive_nth _ _ _ Ht))).
      rewrite (live_set_slot _ _ _ _ (alive_nth _ _ _ Ht)). lia.
    + assert (Hsrc : nth_error (set_slot st dst (Some o)) src = Some (Some o))
        by (rewrite nth_error_set_slot_ne by exact Hne;
            apply alive_nth; exact Ho).
      rewrite (live_set_slot _ _ _ _ Hsrc).
      rewrite (live_set_slot _ _ _ _ (alive_nth _ _ _ Ht)). lia.
  - (* destruction *)
    destruct (alive st x) as [this |] eqn:Ht; [| exists st, w; auto].
    unfold rv_destroy.
    destruct (release_run this w) as (w' & Hrun & Hlog).
    exists (set_slot st x None), w'. split.
    + unfold bind. rewrite Hrun. reflexivity.
    + rewrite Hlog, net_count_app, net_release.
      rewrite (live_set_slot _ _ _ _ (alive_nth _ _ _ Ht)).
      unfold weight at 3. simpl. lia.
Qed.

Lemma rv_run_balanced base ops :
  forall st w, balanced base st w ->
  exists st' w', rv_run ops st w = (Returned st', w') /\ balanced base st' w'.
Proof.
  induction ops as [| op ops IH]; intros st w Hb; simpl.
  - exists st, w. split; [reflexivity | exact Hb].
  - destruct (rv_step_balanced _ op _ _ Hb) as (st1 & w1 & Hstep & Hb1).
    destruct (IH st1 w1 Hb1) as (st2 & w2 & Hrun & Hb2).
    exists st2, w2. split; [| exact Hb2].
    unfold bind. rewrite Hstep. exact Hrun.
Qed.

Lemma rv_program_balanced v ops w :
  exists st w',
    rv_program v ops w = (Returned st, w')
    /\ net_count (calls w') = net_count (calls w) + live_non_empty st.
Proof.
  unfold rv_program, rv_from_value.
  destruct (add_ref_run v w) as (w1 & Hadd & Hlog).
  assert (Hb : balanced (net_count (calls w)) [Some v] w1).
  { unfold balanced. rewrite Hlog, net_count_app, net_add_ref.
    rewrite live_cons. unfold live_non_empty. simpl.
    rewrite Z.add_0_r. reflexivity. }
  destruct (rv_run_balanced _ ops _ _ Hb) as (st & w' & Hrun & Hb').
  exists st, w'. split; [| exact Hb'].
  unfold bind. rewrite Hadd. simpl. exact Hrun.
Qed.

(** C7. Whatever program of copy and move constructions, copy and move
    assignments and destructions is run on the clones of one original, after
    every statement the engine increments made minus the decrements made equal
    the number of live clones that hold a handle.  Destroying an object
    decrements once if it holds a handle and not at all if it is empty; no
    operation whose operands are all empty increments or decrements, and in a
    copy assignment an empty destination is not decremented and an empty
    source is not incremented. *)
Theorem reference_counts_balance
    (v : value) (ops : list rv_op) (w : world estate) :
  (forall n,
      exists st w',
        rv_program v (firstn n ops) w = (Returned st, w')
        /\ increments (calls w') - decrements (calls w')
           = increments (calls w) - decrements (calls w) + live_non_empty st)
  /\ (forall this w0,
        calls (snd (rv_destroy this w0))
        = calls w0 ++ (if is_empty this then [] else [Ev_JsRelease this]))
  /\ (forall w0,
        let empty := JS_INVALID_REFERENCE in
        rv_from_value empty w0 = (Returned empty, w0)
        /\ rv_copy_construct empty w0 = (Returned empty, w0)
        /\ rv_move_construct empty w0 = (Returned (empty, empty), w0)
        /\ rv_copy_assign empty empty w0 = (Returned empty, w0)
        /\ rv_move_assign empty empty w0 = (Returned (empty, empty), w0)
        /\ rv_destroy empty w0 = (Returned tt, w0))
  /\ (forall o w0,
        calls (snd (rv_copy_assign JS_INVALID_REFERENCE o w0))
        = calls w0 ++ (if is_empty o then [] else [Ev_JsAddRef o]))
  /\ (forall this w0,
        calls (snd (rv_copy_assign this JS_INVALID_REFERENCE w0))
        = calls w0 ++ (if is_empty this then [] else [Ev_JsRelease this])).
Proof.
  split; [| split; [| split; [| split]]].
  - intros n. exact (rv_program_balanced v (firstn n ops) w).
  - intros this w0. unfold rv_destroy.
    destruct (release_run this w0) as (w' & Hrun & Hlog).
    rewrite Hrun. exact Hlog.
  - intros w0. repeat split.
  - intros o w0. unfold rv_copy_assign, bind. simpl.
    destruct (add_ref_run o w0) as (w' & Hrun & Hlog).
    rewrite Hrun. exact Hlog.
  - intros this w0. unfold rv_copy_assign, bind.
    destruct (release_run this w0) as (w' & Hrun & Hlog).
    rewrite Hrun. simpl. exact Hlog.
Qed.

(** C8 (as amended). A move performs no engine call, so no increment and no
    decrement.  Move construction gives the new object the source's handle
    and leaves the source empty.  Move assignment exchanges the two handles:
    the destination receives the source's handle and the source is left with
    the handle the destination held, so it is empty only when the destination
    was. *)
Theorem move_transfers_without_counting
    (this o : referenced_value) (w : world estate) :
  rv_move_construct o w = (Returned (o, JS_INVALID_REFERENCE), w)
  /\ rv_move_assign this o w = (Returned (o, this), w)
  /\ (forall st src,
        alive st src = Some o ->
        exists st',
          rv_step (MoveConstruct src) st w = (Returned st', w)
          /\ alive st' (List.length st) = Some o
          /\ alive st' src = Some JS_INVALID_REFERENCE)
  /\ (forall st dst src,
        alive st dst = Some this -> alive st src = Some o ->
        exists st',
          rv_step (MoveAssign dst src) st w = (Returned st', w)
          /\ alive st' src = Some this
          /\ (dst <> src -> alive st' dst = Some o)).
Proof.
  split; [reflexivity |]. split; [reflexivity |]. split.
  - intros st src Ho. simpl. rewrite Ho. eexists. split; [reflexivity |].
    simpl. pose proof (alive_nth _ _ _ Ho) as Hn.
    assert (Hlt : (src < List.length st)%nat)
      by (apply nth_error_Some; rewrite Hn; discriminate).
    assert (Hlen : forall x, List.length (set_slot st src x) = List.length st).
    { intros x. clear. revert src. induction st as [| z st IH];
        intros [| i]; simpl; auto. }
    split; unfold alive.
    + rewrite nth_error_app2 by (rewrite Hlen; lia).
      rewrite Hlen, Nat.sub_diag. reflexivity.
    + rewrite nth_error_app1 by (rewrite Hlen; exact Hlt).
      rewrite (nth_error_set_slot_eq _ _ _ _ Hn). reflexivity.
  - intros st dst src Ht Ho. simpl. rewrite Ht, Ho.
    eexists. split; [reflexivity |]. simpl.
    pose proof (alive_nth _ _ _ Ht) as Hnt. pose proof (alive_nth _ _ _ Ho) as Hno.
    assert (Hsrc : exists y, nth_error (set_slot st dst (Some o)) src = Some y).
    { destruct (Nat.eq_dec dst src) as [-> | Hne].
      - eexists. apply (nth_error_set_slot_eq _ _ _ _ Hnt).
      - eexists. rewrite nth_error_set_slot_ne by exact Hne. exact Hno. }
    destruct Hsrc as (y & Hy). split; unfold alive.
    + rewrite (nth_error_set_slot_eq _ _ _ _ Hy). reflexivity.
    + intros Hne. rewrite nth_error_set_slot_ne by congruence.
      rewrite (nth_error_set_slot_eq _ _ _ _ Hnt). reflexivity.
Qed.

End Ledger.

(** * The object builder: read-only properties *)

Section ObjectBuilder.
Context {E : Engine}.

Lemma logs_ret {A} P (a : A) : logs P (ret a).
Proof. intros w. exists []. rewrite app_nil_r. split; [reflexivity | constructor]. Qed.

Lemma logs_throw {A} P f : logs P (@throw E A f).
Proof. intros w. exists []. rewrite app_nil_r. split; [reflexivity | constructor]. Qed.

Lemma logs_bind {A B} P (c : host A) (k : A -> host B) :
  logs P c -> (forall a, logs P (k a)) -> logs P (bind c k).
Proof.
  intros Hc Hk w. unfold bind.
  destruct (Hc w) as (l & Hl & HP).
  destruct (c w) as [[a | f |] w1]; simpl in *.
  - destruct (Hk a w1) as (l' & Hl' & HP').
    exists (l ++ l'). rewrite Hl', Hl, app_assoc. split; [reflexivity |].
    apply Forall_app. split; assumption.
  - exists l. split; assumption.
  - exists l. split; assumption.
Qed.

Lemma logs_api {R} (P : api_event -> Prop) ev
    (op : estate -> JsErrorCode * R * estate) :
  P ev -> logs P (api_call ev op).
Proof.
  intros HP w. rewrite api_call_eq. simpl. exists [ev].
  split; [reflexivity | constructor; [exact HP | constructor]].
Qed.

Lemma logs_check P code : logs P (check code).
Proof.
  unfold check. destruct (failed code); [apply logs_throw | apply logs_ret].
Qed.

Lemma logs_checked {R} P (c : host (JsErrorCode * R)) :
  logs P c -> logs P (checked c).
Proof.
  intros Hc. unfold checked. apply logs_bind; [exact Hc | intros cr].
  apply logs_bind; [apply logs_check | intros _; apply logs_ret].
Qed.

Lemma logs_member_call {A B C} P order (object_expr : host A)
    (argument : host B) (f : A -> B -> host C) :
  logs P object_expr -> logs P argument -> (forall o a, logs P (f o a)) ->
  logs P (member_call order object_expr argument f).
Proof.
  intros Ho Ha Hf. destruct order; simpl.
  - apply logs_bind; [exact Ho | intros o].
    apply logs_bind; [exact Ha | intros a]. apply Hf.
  - apply logs_bind; [exact Ha | intros a].
    apply logs_bind; [exact Ho | intros o]. apply Hf.
Qed.

(** Every call made while a property is being defined. *)
Ltac logs_steps :=
  repeat first
    [ apply logs_ret
    | apply logs_check
    | apply logs_checked
    | apply logs_api; reflexivity
    | apply logs_member_call; [ | | intros ? ? ]
    | apply logs_bind; [| intros ? ] ].

Lemma accessor_descriptor_logs order getter setter :
  logs (fun e => is_raise e = false) (accessor_descriptor order getter setter).
Proof.
  unfold accessor_descriptor, field, function, index_name, prop_set, object,
    false_.
  unfold JsCreateObject, JsGetFalseValue, JsGetPropertyIdFromName,
    JsSetProperty, JsCreateFunction, JsSetObjectBeforeCollectCallback.
  logs_steps.
Qed.

Lemma define_property_logs self name d :
  logs (fun e => is_raise e = false) (define_property self name d).
Proof.
  unfold define_property, JsGetPropertyIdFromName, JsDefineProperty.
  logs_steps.
Qed.

Lemma field_returned o n v w r w' :
  field o n v w = (Returned r, w') ->
  r = o /\ exists id,
    calls w' = calls w ++ [Ev_JsGetPropertyIdFromName n; Ev_JsSetProperty o id v].
Proof.
  unfold field, index_name, prop_set. intros H.
  apply bind_returned_inv in H. destruct H as (p & w1 & Hp & H).
  apply bind_returned_inv in Hp. destruct Hp as (id & w0 & Hid & Hp).
  injection Hp as <- <-.
  apply bind_returned_inv in H. destruct H as ([] & w2 & Hset & H).
  injection H as <- <-. simpl in Hset.
  apply checked_api_inv in Hid. destruct Hid as (s0 & _ & ->).
  apply checked_api_inv in Hset. destruct Hset as (s2 & _ & ->).
  split; [reflexivity |]. exists id. simpl. rewrite <- app_assoc. reflexivity.
Qed.

Lemma function_returned N f w r w' :
  function N f w = (Returned r, w') ->
  calls w' = calls w ++ [Ev_JsCreateFunction N;
                         Ev_JsSetObjectBeforeCollectCallback r]
  /\ exists s, eng_JsCreateFunction (trampoline N f) (eng w) = (JsNoError, r, s).
Proof.
  unfold function. intros H.
  apply bind_returned_inv in H. destruct H as (result & w1 & Hc & H).
  apply bind_returned_inv in H. destruct H as ([] & w2 & Hb & H).
  injection H as <- <-.
  apply checked_api_inv in Hc. destruct Hc as (s1 & Hcreate & ->).
  apply checked_api_inv in Hb. destruct Hb as (s2 & _ & ->).
  simpl. rewrite <- app_assoc. split; [reflexivity |]. exists s1. exact Hcreate.
Qed.

Lemma prefix_append (s t : string) : String.prefix s (s ++ t)%string = true.
Proof.
  induction s as [| a s IH]; simpl.
  - destruct t; reflexivity.
  - destruct (ascii_dec a a) as [_ | Hne]; [exact IH | contradiction].
Qed.

(** ** Runs as sequences of accepted calls *)

Lemma bind_returned_iff {A B} (c : host A) (k : A -> host B) w b w' :
  bind c k w = (Returned b, w') <->
  exists a w1, c w = (Returned a, w1) /\ k a w1 = (Returned b, w').
Proof.
  split.
  - apply bind_returned_inv.
  - intros (a & w1 & Hc & Hk). rewrite (bind_returned _ _ _ Hc). exact Hk.
Qed.

(** A checked call returns exactly when the engine accepts it. *)
Lemma checked_returned {R} ev (op : estate -> JsErrorCode * R * estate) w r w' :
  checked (api_call ev op) w = (Returned r, w') <->
  api_call ev op w = (Returned (JsNoError, r), w').
Proof.
  split.
  - intros H. apply checked_api_inv in H. destruct H as (s' & Hop & ->).
    unfold api_call. rewrite Hop. reflexivity.
  - intros H. apply checked_ok. exact H.
Qed.

Lemma accepted_app l1 l2 w w' :
  accepted (l1 ++ l2) w w' <->
  exists w1, accepted l1 w w1 /\ accepted l2 w1 w'.
Proof.
  revert w. induction l1 as [| a l1 IH]; intros w; simpl.
  - split.
    + intros H. exists w. split; [reflexivity | exact H].
    + intros (w1 & -> & H). exact H.
  - split.
    + intros (w1 & Ha & H). apply IH in H. destruct H as (w2 & H1 & H2).
      exists w2. split; [exists w1; split; assumption | exact H2].
    + intros (w2 & (w1 & Ha & H1) & H2).
      exists w1. split; [exact Ha |]. apply IH. exists w2. split; assumption.
Qed.

Lemma operands_accepted order lo la w w' :
  accepted (operands order lo la) w w' <->
  exists w1,
    match order with
    | object_first => accepted lo w w1 /\ accepted la w1 w'
    | argument_first => accepted la w w1 /\ accepted lo w1 w'
    end.
Proof. destruct order; simpl; apply accepted_app. Qed.

(** The log of a sequence of accepted calls: one entry per call, in order. *)
Lemma accepted_log l w w' :
  accepted l w w' -> calls w' = calls w ++ map event_of l.
Proof.
  revert w. induction l as [| a l IH]; intros w; simpl.
  - intros ->. rewrite app_nil_r. reflexivity.
  - intros (w1 & Ha & H). apply IH in H. rewrite H.
    assert (Hone : calls w1 = calls w ++ [event_of a]).
    { destruct a; simpl in Ha;
        unfold JsCreateObject, JsGetFalseValue, JsCreateFunction,
          JsSetObjectBeforeCollectCallback, JsGetPropertyIdFromName,
          JsSetProperty, JsDefineProperty in Ha;
        rewrite api_call_eq in Ha; injection Ha as _ _ <-; reflexivity. }
    rewrite Hone, <- app_assoc. reflexivity.
Qed.

Lemma member_call_returned {A B C} order (object_expr : host A)
    (argument : host B) (f : A -> B -> host C) w c w' :
  member_call order object_expr argument f w = (Returned c, w') <->
  exists o a w1 w2,
    match order with
    | object_first =>
        object_expr w = (Returned o, w1) /\ argument w1 = (Returned a, w2)
    | argument_first =>
        argument w = (Returned a, w1) /\ object_expr w1 = (Returned o, w2)
    end
    /\ f o a w2 = (Returned c, w').
Proof.
  destruct order; simpl; split.
  - intros H. apply bind_returned_inv in H. destruct H as (o & w1 & Ho & H).
    apply bind_returned_inv in H. destruct H as (a & w2 & Ha & H).
    exists o, a, w1, w2. auto.
  - intros (o & a & w1 & w2 & [Ho Ha] & H).
    rewrite (bind_returned _ _ _ Ho), (bind_returned _ _ _ Ha). exact H.
  - intros H. apply bind_returned_inv in H. destruct H as (a & w1 & Ha & H).
    apply bind_returned_inv in H. destruct H as (o & w2 & Ho & H).
    exists o, a, w1, w2. auto.
  - intros (o & a & w1 & w2 & [Ha Ho] & H).
    rewrite (bind_returned _ _ _ Ha), (bind_returned _ _ _ Ho). exact H.
Qed.

(** [field] returns exactly when the engine resolves the name and accepts the
    write to the identifier it resolved the name to. *)
Lemma field_run o n v w r w' :
  field o n v w = (Returned r, w') <->
  r = o /\ exists id, accepted (writes o n id v) w w'.
Proof.
  unfold field, index_name, prop_set, writes. simpl. split.
  - intros H.
    apply bind_returned_inv in H. destruct H as (p & w1 & Hp & H).
    apply bind_returned_inv in Hp. destruct Hp as (id & w0 & Hid & Hp).
    injection Hp as <- <-.
    apply bind_returned_inv in H. destruct H as ([] & w2 & Hset & H).
    injection H as <- <-. simpl in Hset.
    apply checked_returned in Hid. apply checked_returned in Hset.
    split; [reflexivity |]. exists id, w0. split; [exact Hid |].
    exists w2. split; [exact Hset | reflexivity].
  - intros (-> & id & w1 & Hid & w2 & Hset & ->).
    apply checked_returned in Hid. apply checked_returned in Hset.
    erewrite bind_returned;
      [| erewrite bind_returned; [reflexivity | exact Hid]].
    simpl. erewrite bind_returned; [reflexivity | exact Hset].
Qed.

(** [function<N>] returns exactly when the engine creates the function from
    the trampoline and accepts the finalizer on it. *)
Lemma function_run N f w r w' :
  function N f w = (Returned r, w') <-> accepted (binds N f r) w w'.
Proof.
  unfold function, binds. simpl. split.
  - intros H.
    apply bind_returned_inv in H. destruct H as (result & w1 & Hc & H).
    apply bind_returned_inv in H. destruct H as ([] & w2 & Hb & H).
    injection H as <- <-.
    apply checked_returned in Hc. apply checked_returned in Hb.
    exists w1. split; [exact Hc |]. exists w2. split; [exact Hb | reflexivity].
  - intros (w1 & Hc & w2 & Hb & ->).
    apply checked_returned in Hc. apply checked_returned in Hb.
    erewrite bind_returned; [| exact Hc].
    erewrite bind_returned; [reflexivity | exact Hb].
Qed.

Lemma define_property_run self n d w b w' :
  define_property self n d w = (Returned b, w') <->
  exists pn, accepted (defines self n pn d b) w w'.
Proof.
  unfold define_property, defines. simpl. split.
  - intros H.
    apply bind_returned_inv in H. destruct H as (id & w1 & Hid & H).
    apply checked_returned in Hid. apply checked_returned in H.
    exists id, w1. split; [exact Hid |]. exists w'. split; [exact H | reflexivity].
  - intros (pn & w1 & Hid & w2 & Hdef & ->).
    apply checked_returned in Hid. apply checked_returned in Hdef.
    erewrite bind_returned; [exact Hdef | exact Hid].
Qed.

(** A call of [field] whose object expression and argument are themselves
    runs of accepted calls. *)
Lemma field_call_run order (object_expr argument : host value) (name : wstring)
    (Po Pa : value -> list answered_call -> Prop) :
  (forall w o w1,
      object_expr w = (Returned o, w1) <->
      exists lo, Po o lo /\ accepted lo w w1) ->
  (forall w a w1,
      argument w = (Returned a, w1) <->
      exists la, Pa a la /\ accepted la w w1) ->
  forall w d w',
    member_call order object_expr argument (fun o a => field o name a) w
    = (Returned d, w') <->
    exists lo a la id,
      Po d lo /\ Pa a la
      /\ accepted (operands order lo la ++ writes d name id a) w w'.
Proof.
  intros Hoe Harg w d w'. split.
  - intros H. apply member_call_returned in H.
    destruct H as (o & a & w1 & w2 & Hops & Hf).
    apply field_run in Hf. destruct Hf as (-> & id & Hw).
    destruct order; destruct Hops as [Hx Hy].
    + apply Hoe in Hx. destruct Hx as (lo & HPo & Hlo).
      apply Harg in Hy. destruct Hy as (la & HPa & Hla).
      exists lo, a, la, id. split; [exact HPo |]. split; [exact HPa |].
      apply accepted_app. exists w2. split; [| exact Hw].
      apply operands_accepted. exists w1. split; assumption.
    + apply Harg in Hx. destruct Hx as (la & HPa & Hla).
      apply Hoe in Hy. destruct Hy as (lo & HPo & Hlo).
      exists lo, a, la, id. split; [exact HPo |]. split; [exact HPa |].
      apply accepted_app. exists w2. split; [| exact Hw].
      apply operands_accepted. exists w1. split; assumption.
  - intros (lo & a & la & id & HPo & HPa & Hacc).
    apply accepted_app in Hacc. destruct Hacc as (w2 & Hops & Hw).
    apply operands_accepted in Hops. destruct Hops as (w1 & Hops).
    apply member_call_returned. exists d, a, w1, w2. split.
    + destruct order; destruct Hops as [Hx Hy]; split;
        first [ apply Hoe; exists lo; split; assumption
              | apply Harg; exists la; split; assumption ].
    + apply field_run. split; [reflexivity |]. exists id. exact Hw.
Qed.

(** The descriptor is returned exactly when the engine accepts the calls that
    build it, in the order the compiler's choices give. *)
Lemma accessor_descriptor_run order getter setter w d w' :
  accessor_descriptor order getter setter w = (Returned d, w') <->
  exists f g s pc pg ps,
    accepted (describes order getter setter d f g s pc pg ps) w w'.
Proof.
  unfold accessor_descriptor, describes.
  generalize (order "configurable"%string) (order "get"%string)
    (order "set"%string).
  intros o1 o2 o3.
  assert (H1 : forall w o w1,
             member_call o1 object false_
               (fun o f => field o "configurable"%string f) w
             = (Returned o, w1) <->
             exists lo,
               (exists f pc,
                   lo = operands o1 [Got_JsCreateObject o]
                          [Got_JsGetFalseValue f]
                        ++ writes o "configurable"%string pc f)
               /\ accepted lo w w1).
  { intros w0 o w1.
    pose proof (field_call_run o1 object false_ "configurable"%string
                  (fun o lo => lo = [Got_JsCreateObject o])
                  (fun f la => la = [Got_JsGetFalseValue f])) as Hk.
    split.
    - intros H. apply Hk in H.
      + destruct H as (lo & f & la & pc & -> & -> & Hacc).
        eexists. split; [exists f, pc; reflexivity | exact Hacc].
      + intros w2 o' w3. unfold object, JsCreateObject.
        rewrite checked_returned. split.
        * intros H'. eexists. split; [reflexivity |].
          exists w3. split; [exact H' | reflexivity].
        * intros (lo & -> & w4 & H' & ->). exact H'.
      + intros w2 f' w3. unfold false_, JsGetFalseValue.
        rewrite checked_returned. split.
        * intros H'. eexists. split; [reflexivity |].
          exists w3. split; [exact H' | reflexivity].
        * intros (la & -> & w4 & H' & ->). exact H'.
    - intros (lo & (f & pc & ->) & Hacc). apply Hk.
      + intros w2 o' w3. unfold object, JsCreateObject.
        rewrite checked_returned. split.
        * intros H'. eexists. split; [reflexivity |].
          exists w3. split; [exact H' | reflexivity].
        * intros (lo & -> & w4 & H' & ->). exact H'.
      + intros w2 f' w3. unfold false_, JsGetFalseValue.
        rewrite checked_returned. split.
        * intros H'. eexists. split; [reflexivity |].
          exists w3. split; [exact H' | reflexivity].
        * intros (la & -> & w4 & H' & ->). exact H'.
      + eexists. exists f. eexists. exists pc.
        split; [reflexivity |]. split; [reflexivity | exact Hacc]. }
  assert (Hbind : forall N pf w a w1,
             function N pf w = (Returned a, w1) <->
             exists la, la = binds N pf a /\ accepted la w w1).
  { intros N pf w0 a w1. rewrite function_run. split.
    - intros H. eexists. split; [reflexivity | exact H].
    - intros (la & -> & H). exact H. }
  assert (H2 : forall w o w1,
             member_call o2
               (member_call o1 object false_
                  (fun o f => field o "configurable"%string f))
               (function 0 getter)
               (fun o g => field o "get"%string g) w
             = (Returned o, w1) <->
             exists lo,
               (exists f g pc pg,
                   lo = operands o2
                          (operands o1 [Got_JsCreateObject o]
                             [Got_JsGetFalseValue f]
                           ++ writes o "configurable"%string pc f)
                          (binds 0 getter g)
                        ++ writes o "get"%string pg g)
               /\ accepted lo w w1).
  { intros w0 o w1.
    pose proof (field_call_run o2 _ (function 0 getter) "get"%string _
                  (fun g la => la = binds 0 getter g) H1 (Hbind 0%nat getter))
      as Hk.
    split.
    - intros H. apply Hk in H.
      destruct H as (lo & g & la & pg & (f & pc & ->) & -> & Hacc).
      eexists. split; [exists f, g, pc, pg; reflexivity | exact Hacc].
    - intros (lo & (f & g & pc & pg & ->) & Hacc). apply Hk.
      eexists. exists g. eexists. exists pg.
      split; [exists f, pc; reflexivity |].
      split; [reflexivity | exact Hacc]. }
  pose proof (field_call_run o3 _ (function 1 setter) "set"%string _
                (fun s la => la = binds 1 setter s) H2 (Hbind 1%nat setter))
    as Hk.
  split.
  - intros H. apply Hk in H.
    destruct H as (lo & s & la & ps & (f & g & pc & pg & ->) & -> & Hacc).
    exists f, g, s, pc, pg, ps. exact Hacc.
  - intros (f & g & s & pc & pg & ps & Hacc). apply Hk.
    eexists. exists s. eexists. exists ps.
    split; [exists f, g, pc, pg; reflexivity |].
    split; [reflexivity | exact Hacc].
Qed.

(** Both [property] overloads: the definition returns exactly when the engine
    accepts the calls that build the descriptor and then the two that define
    the property, and it returns the object it was called on. *)
Lemma descriptor_defined order self name getter setter w v w' :
  (d <- accessor_descriptor order getter setter ;;
   define_property self name d ;;;
   ret self) w = (Returned v, w') <->
  v = self
  /\ exists d f g s pc pg ps pn b,
      accepted (describes order getter setter d f g s pc pg ps
                ++ defines self name pn d b) w w'.
Proof.
  split.
  - intros H.
    apply bind_returned_inv in H. destruct H as (d & wd & Hd & H).
    apply bind_returned_inv in H. destruct H as (b & we & Hdef & H).
    injection H as <- <-.
    apply accessor_descriptor_run in Hd.
    destruct Hd as (f & g & s & pc & pg & ps & Hd).
    apply define_property_run in Hdef. destruct Hdef as (pn & Hdef).
    split; [reflexivity |].
    exists d, f, g, s, pc, pg, ps, pn, b.
    apply accepted_app. exists wd. split; assumption.
  - intros (-> & d & f & g & s & pc & pg & ps & pn & b & H).
    apply accepted_app in H. destruct H as (wd & Hd & Hdef).
    erewrite bind_returned;
      [| apply accessor_descriptor_run; exists f, g, s, pc, pg, ps; exact Hd].
    erewrite bind_returned;
      [reflexivity | apply define_property_run; exists pn; exact Hdef].
Qed.

(** C9. [property(name, getter)]:
    - the setter it installs, whenever the engine invokes it, builds the
      Error "<name>: property is read-only", makes it the pending exception
      and returns it; the text starts with the property name;
    - while the property is being defined no Error is created and none is
      made pending, whatever the engine answers and whatever order the
      compiler evaluates the operands in;
    - the definition returns, with the object it was called on, exactly when
      the engine accepts these calls: a descriptor object is created, its
      "configurable" (the identifier that name resolves to) is written with
      the engine's [false], its "get" with the function created from the
      getter's trampoline with arity 0, its "set" with the function created
      from that setter's trampoline with arity 1, each function with its
      finalizer; then the property name is resolved and [JsDefineProperty]
      is given the object, the identifier of the name and the descriptor;
    - invoking the function bound to the getter returns the getter's
      result. *)
Theorem readonly_property_raises_on_write (name : wstring) :
  (forall arguments w msg w1 exc w2 w3,
      1 <= Z.of_nat (List.length arguments) <= 65535 ->
      JsPointerToString (name ++ ": property is read-only")%string w
        = (Returned (JsNoError, msg), w1) ->
      JsCreateError msg w1 = (Returned (JsNoError, exc), w2) ->
      JsSetException exc w2 = (Returned (JsNoError, tt), w3) ->
      trampoline 1 (readonly_setter name) arguments w = (Returned exc, w3)
      /\ raises_error (trampoline 1 (readonly_setter name) arguments w)
                      (name ++ ": property is read-only")%string)
  /\ String.prefix name (name ++ ": property is read-only")%string = true
  /\ (forall order self getter,
        logs (fun e => is_raise e = false) (property order self name getter))
  /\ (forall order self getter w v w',
        property order self name getter w = (Returned v, w') <->
        v = self
        /\ exists d f g s pc pg ps pn b,
            accepted
              (describes order getter (readonly_setter name) d f g s pc pg ps
               ++ defines self name pn d b) w w')
  /\ (forall (R : Type) (g : list value -> host R) (box : R -> host value)
             arguments w r w1 v w2,
        1 <= Z.of_nat (List.length arguments) <= 65535 ->
        g [] w = (Returned r, w1) -> box r w1 = (Returned v, w2) ->
        trampoline 0 (callable_value g box) arguments w = (Returned v, w2)).
Proof.
  split; [| split; [| split; [| split]]].
  - intros arguments w msg w1 exc w2 w3 Hlen H1 H2 H3.
    assert (Hrun : trampoline 1 (readonly_setter name) arguments w
                   = (Returned exc, w3)).
    { unfold trampoline. apply try_catch_returned.
      assert (Hbody : forall params,
                 execute_functor (readonly_setter name) params w
                 = (Returned exc, w3)).
      { intros params. unfold execute_functor, readonly_setter, apply_helper.
        match goal with
        | |- bind ?c _ _ = _ => assert (HG : c w = (Returned exc, w3))
        end.
        { unfold from_wstring.
          rewrite (bind_returned _ _ _ (checked_ok _ _ H1)).
          rewrite (bind_returned _ _ _ (checked_ok _ _ H2)).
          rewrite (bind_returned _ _ _ (checked_ok _ _ H3)). reflexivity. }
        rewrite (bind_returned _ _ _ HG). reflexivity. }
      destruct (Z_lt_le_dec (Z.of_nat (List.length arguments) - 1) 1)
        as [Hfew | Hmany].
      - rewrite body_with_fewer by lia. apply Hbody.
      - rewrite body_with_enough by lia. apply Hbody. }
    split; [exact Hrun |].
    exists w, msg, w1, exc, w2, JsNoError, w3. auto.
  - apply prefix_append.
  - intros order self getter. unfold property.
    apply logs_bind; [apply accessor_descriptor_logs | intros d].
    apply logs_bind; [apply define_property_logs | intros b].
    apply logs_ret.
  - intros order self getter w v w'. unfold property.
    apply descriptor_defined.
  - intros R g box arguments w r w1 v w2 Hlen Hg Hbox.
    unfold trampoline. apply try_catch_returned.
    rewrite body_with_enough by lia.
    simpl. unfold apply_helper.
    rewrite (bind_returned _ _ _ Hg). exact Hbox.
Qed.

End ObjectBuilder.

(** * The exception bridge *)

Section ExceptionBridge.
Context {E : Engine}.
Local Open Scope string_scope.

(** [map_error]: the eight codes it names go to eight different categories;
    every other code, [JsNoError] included, is [Unexpected]. *)
Theorem map_error_classifies (code : JsErrorCode) :
  (map_error code = Unexpected <->
   ~ In code [JsErrorInvalidArgument; JsErrorNullArgument;
              JsErrorArgumentNotObject; JsErrorOutOfMemory;
              JsErrorScriptException; JsErrorScriptCompile; JsErrorFatal;
              JsErrorInExceptionState])
  /\ (forall code',
        map_error code = map_error code' -> map_error code <> Unexpected ->
        code = code').
Proof.
  split.
  - split.
    + intros H Hin. simpl in Hin.
      repeat (destruct Hin as [<- | Hin]; [discriminate H |]). exact Hin.
    + intros Hnot. destruct code; simpl; try reflexivity;
        exfalso; apply Hnot; simpl; tauto.
  - intros code' Heq Hne.
    destruct code; simpl in *; try (exfalso; apply Hne; reflexivity);
      destruct code'; simpl in *; try discriminate; reflexivity.
Qed.

Lemma bind_assoc {A B C} (c : host A) (k : A -> host B) (k' : B -> host C) w :
  bind (bind c k) k' w = bind c (fun a => bind (k a) k') w.
Proof.
  unfold bind. destruct (c w) as [[a | f |] w1]; reflexivity.
Qed.

Lemma bind_congr {A B} (c : host A) (k k' : A -> host B) w :
  (forall a w1, k a w1 = k' a w1) -> bind c k w = bind c k' w.
Proof.
  intros H. unfold bind. destruct (c w) as [[a | f |] w1]; auto.
Qed.

Lemma mild_outcome {A} (c : host A) w :
  mild c ->
  (exists a w', c w = (Returned a, w'))
  \/ (exists e w', c w = (Thrown (exception e), w')).
Proof.
  intros Hm. specialize (Hm w).
  destruct (c w) as [[a | [e | | |] |] w']; simpl in Hm; try contradiction.
  - left. exists a, w'. reflexivity.
  - right. exists e, w'. reflexivity.
Qed.

Lemma try_catch_exception_thrown {A} (body : host A) h w e w1 :
  body w = (Thrown (exception e), w1) ->
  try_catch_exception body h w = h e w1.
Proof.
  intros H. unfold try_catch_exception.
  rewrite (try_catch_thrown _ _ _ H). reflexivity.
Qed.

Lemma try_catch_exception_returned {A} (body : host A) h w a w1 :
  body w = (Returned a, w1) ->
  try_catch_exception body h w = (Returned a, w1).
Proof. intros H. unfold try_catch_exception. apply try_catch_returned. exact H. Qed.

Lemma print_exception_category code posmap w cat detail w' :
  print_exception code posmap w = (Returned (cat, detail), w') ->
  cat = map_error code.
Proof.
  intros H. unfold print_exception in H.
  apply bind_returned_inv in H. destruct H as (m & w1 & _ & H).
  injection H as <- _ _. reflexivity.
Qed.

(** [print_exception(code)], the overload that supplies the identity position
    map, never fails: whatever the engine answers to the calls it makes, it
    returns, and the category is the remapped code. *)
Theorem print_exception_never_fails (code : JsErrorCode) (w : world estate) :
  exists detail w',
    print_exception code identity w = (Returned (map_error code, detail), w').
Proof.
  destruct (print_exception_returns code w) as ([cat detail] & w' & H).
  exists detail, w'. rewrite H.
  rewrite (print_exception_category code identity w cat detail w' H).
  reflexivity.
Qed.

(** A failure that is neither a compile error nor a script exception has no
    detail, and nothing is asked of the engine. *)
Lemma print_exception_plain code posmap w :
  is_ScriptCompile code = false -> is_ScriptException code = false ->
  print_exception code posmap w = (Returned (map_error code, ""%string), w).
Proof.
  intros Hc Hs. unfold print_exception. rewrite Hc, Hs. reflexivity.
Qed.

(** A compile error: the detail is the text of the exception followed by its
    position, " (line:column)", after the position has been remapped by
    [posmap]; when the line or the column cannot be read the detail is the
    text alone. *)
Theorem compile_error_detail
    (posmap : position_conversion_functor_t)
    (w : world estate) (einfo : value) (w1 : world estate)
    (text : wstring) (w2 : world estate) :
  current_exception w = (Returned einfo, w1) ->
  to_string einfo w1 = (Returned text, w2) ->
  (forall line w3 column w4,
      fetch_int einfo "line" w2 = (Returned line, w3) ->
      fetch_int einfo "column" w3 = (Returned column, w4) ->
      print_exception JsErrorScriptCompile posmap w
      = (Returned
           (SyntaxError,
            (text ++ " (" ++ to_wstring (fst (posmap line column)) ++ ":"
               ++ to_wstring (snd (posmap line column)) ++ ")")%string),
         w4))
  /\ (forall e w3,
        fetch_int einfo "line" w2 = (Thrown (exception e), w3) ->
        print_exception JsErrorScriptCompile posmap w
        = (Returned (SyntaxError, text), w3))
  /\ (forall line w3 e w4,
        fetch_int einfo "line" w2 = (Returned line, w3) ->
        fetch_int einfo "column" w3 = (Thrown (exception e), w4) ->
        print_exception JsErrorScriptCompile posmap w
        = (Returned (SyntaxError, text), w4)).
Proof.
  intros Hcur Htext.
  assert (Hshape : forall inner m w',
             try_catch_exception
               (pl <- index_name einfo "line" ;;
                line <- prop_as_int pl ;;
                pc <- index_name einfo "column" ;;
                column <- prop_as_int pc ;;
                let '(line, column) := posmap line column in
                ret (text ++ " (" ++ to_wstring line ++ ":"
                       ++ to_wstring column ++ ")")%string)
               (fun _ => ret text) w2 = inner ->
             inner = (Returned m, w') ->
             print_exception JsErrorScriptCompile posmap w
             = (Returned (SyntaxError, m), w')).
  { intros inner m w' Hin Hm. subst inner. unfold print_exception. simpl.
    erewrite bind_returned; [reflexivity |].
    apply try_catch_exception_returned.
    rewrite (bind_returned _ _ _ Hcur).
    rewrite (bind_returned _ _ _ Htext). exact Hm. }
  assert (Hbody : forall w0,
             (pl <- index_name einfo "line" ;;
              line <- prop_as_int pl ;;
              pc <- index_name einfo "column" ;;
              column <- prop_as_int pc ;;
              let '(line, column) := posmap line column in
              ret (text ++ " (" ++ to_wstring line ++ ":"
                     ++ to_wstring column ++ ")")%string) w0
             = (line <- fetch_int einfo "line" ;;
                column <- fetch_int einfo "column" ;;
                let '(line, column) := posmap line column in
                ret (text ++ " (" ++ to_wstring line ++ ":"
                       ++ to_wstring column ++ ")")%string) w0).
  { intros w0. unfold fetch_int. rewrite bind_assoc.
    apply bind_congr. intros pl wl. apply bind_congr. intros line wl'.
    rewrite bind_assoc. reflexivity. }
  split; [| split].
  - intros line w3 column w4 Hl Hc.
    eapply Hshape; [reflexivity |].
    apply try_catch_exception_returned. rewrite Hbody.
    rewrite (bind_returned _ _ _ Hl), (bind_returned _ _ _ Hc).
    destruct (posmap line column). reflexivity.
  - intros e w3 Hl.
    eapply Hshape; [reflexivity |].
    erewrite try_catch_exception_thrown; [reflexivity |].
    rewrite Hbody. apply bind_thrown. exact Hl.
  - intros line w3 e w4 Hl Hc.
    eapply Hshape; [reflexivity |].
    erewrite try_catch_exception_thrown; [reflexivity |].
    rewrite Hbody. rewrite (bind_returned _ _ _ Hl).
    apply bind_thrown. exact Hc.
Qed.

End ExceptionBridge.

Section ExceptionObjects.
Context {E : Engine}.
Local Open Scope string_scope.

Lemma print_exception_script code posmap w :
  is_ScriptCompile code || is_ScriptException code = true ->
  forall inner detail w',
    (einfo <- current_exception ;;
     message <- to_string einfo ;;
     try_catch_exception
       (if is_ScriptCompile code then
          pl <- index_name einfo "line" ;;
          line <- prop_as_int pl ;;
          pc <- index_name einfo "column" ;;
          column <- prop_as_int pc ;;
          let '(line, column) := posmap line column in
          ret (message ++ " (" ++ to_wstring line ++ ":"
                 ++ to_wstring column ++ ")")
        else
          ps <- index_name einfo "stack" ;; prop_as_string ps)
       (fun _ => ret message)) w = inner ->
    (inner = (Returned detail, w')
     \/ (exists e, inner = (Thrown (exception e), w') /\ detail = "")) ->
    print_exception code posmap w = (Returned (map_error code, detail), w').
Proof.
  intros Hcode inner detail w' Hin Hcase. subst inner.
  unfold print_exception. rewrite Hcode.
  erewrite bind_returned; [reflexivity |].
  destruct Hcase as [Hr | (e & Ht & ->)].
  - apply try_catch_exception_returned. exact Hr.
  - erewrite try_catch_exception_thrown; [reflexivity | exact Ht].
Qed.

(** A script exception: the detail is the stack trace of the exception when
    it can be read, and the exception's text otherwise. *)
Theorem script_exception_detail
    (posmap : position_conversion_functor_t)
    (w : world estate) (einfo : value) (w1 : world estate)
    (text : wstring) (w2 : world estate) :
  current_exception w = (Returned einfo, w1) ->
  to_string einfo w1 = (Returned text, w2) ->
  (forall stack w3,
      fetch_string einfo "stack" w2 = (Returned stack, w3) ->
      print_exception JsErrorScriptException posmap w
      = (Returned (ScriptError, stack), w3))
  /\ (forall e w3,
        fetch_string einfo "stack" w2 = (Thrown (exception e), w3) ->
        print_exception JsErrorScriptException posmap w
        = (Returned (ScriptError, text), w3)).
Proof.
  intros Hcur Htext. split.
  - intros stack w3 Hs.
    apply (print_exception_script JsErrorScriptException posmap w eq_refl
             _ stack w3 eq_refl).
    left. rewrite (bind_returned _ _ _ Hcur), (bind_returned _ _ _ Htext).
    apply try_catch_exception_returned. exact Hs.
  - intros e w3 Hs.
    apply (print_exception_script JsErrorScriptException posmap w eq_refl
             _ text w3 eq_refl).
    left. rewrite (bind_returned _ _ _ Hcur), (bind_returned _ _ _ Htext).
    erewrite try_catch_exception_thrown; [reflexivity | exact Hs].
Qed.

(** A compile error or script exception whose exception object cannot be
    taken from the engine, or cannot be converted to a string, has an empty
    detail. *)
Theorem script_failure_without_details
    (code : JsErrorCode) (posmap : position_conversion_functor_t)
    (w : world estate) :
  is_ScriptCompile code || is_ScriptException code = true ->
  (forall e w1,
      current_exception w = (Thrown (exception e), w1) ->
      print_exception code posmap w = (Returned (map_error code, ""), w1))
  /\ (forall einfo w1 e w2,
        current_exception w = (Returned einfo, w1) ->
        to_string einfo w1 = (Thrown (exception e), w2) ->
        print_exception code posmap w = (Returned (map_error code, ""), w2)).
Proof.
  intros Hcode. split.
  - intros e w1 Hcur.
    apply (print_exception_script code posmap w Hcode _ "" w1 eq_refl).
    right. exists e. split; [| reflexivity]. apply bind_thrown. exact Hcur.
  - intros einfo w1 e w2 Hcur Htext.
    apply (print_exception_script code posmap w Hcode _ "" w2 eq_refl).
    right. exists e. split; [| reflexivity].
    rewrite (bind_returned _ _ _ Hcur). apply bind_thrown. exact Htext.
Qed.

Lemma checked_api_cases {R} ev (op : estate -> JsErrorCode * R * estate) w :
  (exists r s, op (eng w) = (JsNoError, r, s)
               /\ checked (api_call ev op) w
                  = (Returned r, mk_world s (calls w ++ [ev])%list))
  \/ (exists c r s, op (eng w) = (c, r, s) /\ failed c = true
                    /\ checked (api_call ev op) w
                       = (Thrown (exception c),
                          mk_world s (calls w ++ [ev])%list)).
Proof.
  destruct (op (eng w)) as [[c r] s] eqn:Hop.
  destruct (failed c) eqn:Hf.
  - right. exists c, r, s. repeat split; try assumption.
    apply (checked_failed (api_call ev op) w (r := r)); [| exact Hf].
    unfold api_call. rewrite Hop. reflexivity.
  - left. apply failed_false in Hf. subst c. exists r, s.
    split; [reflexivity |]. apply checked_api_ok. exact Hop.
Qed.

Lemma mild_raise (m : wstring) :
  mild (msg <- from_wstring m ;;
        exc <- checked (JsCreateError msg) ;;
        checked (JsSetException exc) ;;;
        ret exc).
Proof.
  unfold from_wstring, JsPointerToString, JsCreateError, JsSetException.
  apply mild_bind; [apply mild_checked, mild_api | intros msg].
  apply mild_bind; [apply mild_checked, mild_api | intros exc].
  apply mild_bind; [apply mild_checked, mild_api | intros _].
  apply mild_ret.
Qed.

(** [to_js_exception()], the overload the trampoline calls (it supplies the
    identity position map), can only fail by failing to obtain the null
    value: it either returns, or its last call is a [JsGetNullValue] that the
    engine refuses, and it throws the bridge exception carrying the code of
    that refusal. *)
Theorem to_js_exception_fails_only_without_null
    (code : JsErrorCode) (w : world estate) :
  (exists v w', to_js_exception code w = (Returned v, w'))
  \/ (exists c r w0 w',
        JsGetNullValue w0 = (Returned (c, r), w')
        /\ failed c = true
        /\ to_js_exception code w = (Thrown (exception c), w')).
Proof.
  unfold to_js_exception, to_js_exception_with.
  destruct (print_exception_returns code w) as (einfo & w1 & Hp).
  rewrite (bind_returned _ _ _ Hp).
  destruct (mild_outcome _ w1
              (mild_raise (error_messages (fst einfo) ++ ": " ++ snd einfo)))
    as [(v & w2 & Hr) | (e & w2 & Ht)].
  - left. exists v, w2. apply try_catch_exception_returned. exact Hr.
  - rewrite (try_catch_exception_thrown _ _ _ _ _ Ht).
    unfold from_nullptr, JsGetNullValue.
    destruct (checked_api_cases Ev_JsGetNullValue eng_JsGetNullValue w2)
      as [(r & s & _ & Hrun) | (c & r & s & Hop & Hf & Hrun)].
    + left. eexists. eexists. exact Hrun.
    + right. exists c, r, w2. eexists.
      split; [| split; [exact Hf | exact Hrun]].
      unfold api_call. rewrite Hop. reflexivity.
Qed.

(** The Error [to_js_exception] raises reads "<category>: <detail>", the
    category being that of the code; when the engine does not take it as the
    pending exception, the result is the null value instead. *)
Theorem bridge_exception_text
    (code : JsErrorCode) (posmap : position_conversion_functor_t)
    (w : world estate) (cat : remapped_error) (detail : wstring)
    (w1 : world estate) (str : JsValueRef) (w2 : world estate)
    (err : JsValueRef) (w3 : world estate) (c : JsErrorCode)
    (w4 : world estate) :
  print_exception code posmap w = (Returned (cat, detail), w1) ->
  JsPointerToString (error_messages cat ++ ": " ++ detail) w1
  = (Returned (JsNoError, str), w2) ->
  JsCreateError str w2 = (Returned (JsNoError, err), w3) ->
  JsSetException err w3 = (Returned (c, tt), w4) ->
  cat = map_error code
  /\ (c = JsNoError ->
      to_js_exception_with code posmap w = (Returned err, w4)
      /\ raises_error (to_js_exception_with code posmap w)
                      (error_messages (map_error code) ++ ": " ++ detail))
  /\ (failed c = true ->
      to_js_exception_with code posmap w = from_nullptr w4).
Proof.
  intros Hp H1 H2 H3.
  assert (Hcat : cat = map_error code).
  { exact (print_exception_category code posmap w cat detail w1 Hp). }
  split; [exact Hcat |]. split.
  - intros ->.
    assert (Hrun : to_js_exception_with code posmap w = (Returned err, w4)).
    { unfold to_js_exception_with. rewrite (bind_returned _ _ _ Hp).
      apply try_catch_exception_returned. simpl fst. simpl snd.
      unfold from_wstring.
      rewrite (bind_returned _ _ _ (checked_ok _ _ H1)).
      rewrite (bind_returned _ _ _ (checked_ok _ _ H2)).
      rewrite (bind_returned _ _ _ (checked_ok _ _ H3)). reflexivity. }
    split; [exact Hrun |]. rewrite Hrun, <- Hcat.
    exists w1, str, w2, err, w3, JsNoError, w4. auto.
  - intros Hf. unfold to_js_exception_with.
    rewrite (bind_returned _ _ _ Hp). simpl fst. simpl snd.
    erewrite try_catch_exception_thrown; [reflexivity |].
    unfold from_wstring.
    rewrite (bind_returned _ _ _ (checked_ok _ _ H1)).
    rewrite (bind_returned _ _ _ (checked_ok _ _ H2)).
    apply bind_thrown. apply (checked_failed _ _ H3 Hf).
Qed.

Lemma mild_fetch_string v key : mild (fetch_string v key).
Proof.
  unfold fetch_string. apply mild_bind;
    [apply mild_index_name | intros p; apply mild_prop_as_string].
Qed.

(** The accessors of [exception_details] never fail: each returns the
    property as a string, and the empty string when any of the engine calls
    involved is refused. *)
Theorem exception_details_never_fail (einfo : value) (w : world estate) :
  forall key accessor,
    In (key, accessor)
       [("message", exception_details_message);
        ("stack", exception_details_stack);
        ("description", exception_details_description)] ->
    (exists text w', accessor einfo w = (Returned text, w'))
    /\ (forall text w',
          fetch_string einfo key w = (Returned text, w') ->
          accessor einfo w = (Returned text, w'))
    /\ (forall e w',
          fetch_string einfo key w = (Thrown (exception e), w') ->
          accessor einfo w = (Returned "", w')).
Proof.
  intros key accessor Hin.
  assert (Hdef : accessor einfo
                 = try_catch_exception (fetch_string einfo key)
                                       (fun _ => ret "")).
  { simpl in Hin.
    destruct Hin as [H | [H | [H | []]]]; injection H as <- <-; reflexivity. }
  rewrite Hdef. split; [| split].
  - destruct (mild_outcome _ w (mild_fetch_string einfo key))
      as [(t & w' & Hr) | (e & w' & Ht)].
    + exists t, w'. apply try_catch_exception_returned. exact Hr.
    + exists "", w'. rewrite (try_catch_exception_thrown _ _ _ _ _ Ht).
      reflexivity.
  - intros text w' Hr. apply try_catch_exception_returned. exact Hr.
  - intros e w' Ht. rewrite (try_catch_exception_thrown _ _ _ _ _ Ht).
    reflexivity.
Qed.

End ExceptionObjects.

(** * The trampoline: results and standard exceptions *)

Section CallResults.
Context {E : Engine}.

Lemma firstn_of_repeat {A} (x : A) (n m : nat) :
  (n <= m)%nat -> firstn n (repeat x m) = repeat x n.
Proof.
  revert m. induction n as [| n IH]; intros [| m] H; simpl;
    try reflexivity; try lia.
  f_equal. apply IH. lia.
Qed.

Lemma firstn_padded {A} (x : A) (N : nat) (l : list A) :
  firstn N (l ++ repeat x N)
  = if (N <=? List.length l)%nat then firstn N l
    else l ++ repeat x (N - List.length l).
Proof.
  destruct (N <=? List.length l)%nat eqn:Hle.
  - apply Nat.leb_le in Hle. rewrite firstn_app.
    replace (N - List.length l)%nat with 0%nat by lia.
    simpl. apply app_nil_r.
  - apply Nat.leb_gt in Hle. rewrite firstn_app.
    rewrite firstn_all2 by lia. f_equal.
    apply firstn_of_repeat. lia.
Qed.

(** Whatever the number of arguments, the callable is run on the first
    [ArgCount] entries of the positional arguments followed by [ArgCount]
    empty handles. *)
Lemma trampoline_params (N : nat) pf arguments :
  1 <= Z.of_nat (List.length arguments) <= 65535 ->
  trampoline_body N pf arguments
  = execute_functor pf
      (firstn N (skipn 1 arguments ++ repeat JS_INVALID_REFERENCE N)).
Proof.
  intros Hlen. rewrite firstn_padded, length_skipn.
  destruct (N <=? List.length arguments - 1)%nat eqn:Hle.
  - apply Nat.leb_le in Hle. apply body_with_enough; lia.
  - apply Nat.leb_gt in Hle. apply body_with_fewer; lia.
Qed.

(** A call whose callable returns.  A callable without result answers with
    the engine's [undefined]; one with a result answers with the result
    converted to a value; when that last step fails, the failure is handled
    like a failure of the callable itself. *)
Theorem successful_call_result
    (N : nat) (arguments : list JsValueRef) (w : world estate) :
  1 <= Z.of_nat (List.length arguments) <= 65535 ->
  let params :=
    firstn N (skipn 1 arguments ++ repeat JS_INVALID_REFERENCE N) in
  (forall f w1 u w2,
      f params w = (Returned tt, w1) ->
      JsGetUndefinedValue w1 = (Returned (JsNoError, u), w2) ->
      trampoline N (callable_void f) arguments w = (Returned u, w2))
  /\ (forall (R : Type) (g : list value -> host R) (box : R -> host value)
             r w1 v w2,
        g params w = (Returned r, w1) ->
        box r w1 = (Returned v, w2) ->
        trampoline N (callable_value g box) arguments w = (Returned v, w2))
  /\ (forall (R : Type) (g : list value -> host R) (box : R -> host value)
             r w1 failure w2,
        g params w = (Returned r, w1) ->
        box r w1 = (Thrown failure, w2) ->
        trampoline N (callable_value g box) arguments w
        = trampoline_handler failure w2).
Proof.
  intros Hlen params. split; [| split].
  - intros f w1 u w2 Hf Hu. unfold trampoline. apply try_catch_returned.
    rewrite trampoline_params by exact Hlen. fold params. simpl.
    unfold apply_helper. rewrite (bind_returned _ _ _ Hf).
    unfold undefined. apply checked_ok. exact Hu.
  - intros R g box r w1 v w2 Hg Hbox. unfold trampoline.
    apply try_catch_returned.
    rewrite trampoline_params by exact Hlen. fold params. simpl.
    unfold apply_helper. rewrite (bind_returned _ _ _ Hg). exact Hbox.
  - intros R g box r w1 failure w2 Hg Hbox. unfold trampoline.
    apply try_catch_thrown.
    rewrite trampoline_params by exact Hlen. fold params. simpl.
    unfold apply_helper. rewrite (bind_returned _ _ _ Hg). exact Hbox.
Qed.

(** A standard exception thrown by the callable: the Error carries the
    exception's description decoded from UTF-8.  When the description does
    not decode, no Error is built: no API call is made and a host failure
    leaves the trampoline. *)
Theorem standard_exception_text
    (N : nat) (pf : Callable) (arguments : list JsValueRef)
    (what : string) (w w1 : world estate) :
  trampoline_body N pf arguments w = (Thrown (std_exception what), w1) ->
  (forall text str w2 err w3 code w4,
      from_bytes what = Some text ->
      JsPointerToString text w1 = (Returned (JsNoError, str), w2) ->
      JsCreateError str w2 = (Returned (JsNoError, err), w3) ->
      JsSetException err w3 = (Returned (code, tt), w4) ->
      trampoline N pf arguments w = (Returned err, w4)
      /\ raises_error (trampoline N pf arguments w) text)
  /\ (from_bytes what = None ->
      exists failure, trampoline N pf arguments w = (Thrown failure, w1)).
Proof.
  intros Hbody. rewrite (trampoline_caught _ _ _ _ Hbody). simpl. split.
  - intros text str w2 err w3 code w4 Hdec H1 H2 H3. rewrite Hdec.
    assert (Hrun := raise_chain _ _ H1 H2 H3).
    split; [exact Hrun |]. rewrite Hrun.
    exists w1, str, w2, err, w3, code, w4. auto.
  - intros Hdec. rewrite Hdec. eexists. reflexivity.
Qed.

End CallResults.

(** * Bound functions and the object builder *)

Section Builder.
Context {E : Engine}.

Ltac logs_steps' :=
  repeat first
    [ apply logs_ret
    | apply logs_check
    | apply logs_checked
    | apply logs_api; simpl; eauto
    | apply logs_bind; [| intros ? ] ].

Lemma function_creation_refused (N : nat) (f : Callable) w c r s :
  eng_JsCreateFunction (trampoline N f) (eng w) = (c, r, s) ->
  failed c = true ->
  function N f w
  = (Thrown (exception c), mk_world s (calls w ++ [Ev_JsCreateFunction N])).
Proof.
  intros Hop Hf. unfold function. apply bind_thrown.
  unfold JsCreateFunction.
  apply (checked_failed _ _ (r := r)); [| exact Hf].
  unfold api_call. rewrite Hop. reflexivity.
Qed.

(** [function<N>]: the function returned is the one the engine created from
    the trampoline of the callable, and the finalizer is registered on that
    very function; when the creation is refused its code is thrown and no
    finalizer is registered; when the registration is refused its code is
    thrown. *)
Theorem function_registers_finalizer
    (N : nat) (f : Callable) (w : world estate) :
  (forall r w',
      function N f w = (Returned r, w') ->
      calls w' = calls w ++ [Ev_JsCreateFunction N;
                             Ev_JsSetObjectBeforeCollectCallback r]
      /\ exists s,
          eng_JsCreateFunction (trampoline N f) (eng w) = (JsNoError, r, s))
  /\ (forall c r s,
        eng_JsCreateFunction (trampoline N f) (eng w) = (c, r, s) ->
        failed c = true ->
        function N f w
        = (Thrown (exception c),
           mk_world s (calls w ++ [Ev_JsCreateFunction N])))
  /\ (forall r s c s',
        eng_JsCreateFunction (trampoline N f) (eng w) = (JsNoError, r, s) ->
        eng_JsSetObjectBeforeCollectCallback r s = (c, tt, s') ->
        failed c = true ->
        function N f w
        = (Thrown (exception c),
           mk_world s' (calls w ++ [Ev_JsCreateFunction N;
                                    Ev_JsSetObjectBeforeCollectCallback r]))).
Proof.
  split; [| split].
  - intros r w' H. apply function_returned. exact H.
  - intros c r s Hop Hf. exact (function_creation_refused N f w c r s Hop Hf).
  - intros r s c s' Hcreate Hreg Hf. unfold function.
    unfold JsCreateFunction.
    rewrite (bind_returned _ _ _
               (checked_api_ok (Ev_JsCreateFunction N) _ _ Hcreate)).
    erewrite bind_thrown; [reflexivity |].
    unfold JsSetObjectBeforeCollectCallback.
    rewrite (checked_failed _ _ (code := c) (r := tt)
               (w1 := mk_world s'
                        ((calls w ++ [Ev_JsCreateFunction N])
                           ++ [Ev_JsSetObjectBeforeCollectCallback r])));
      [ rewrite <- app_assoc; reflexivity | | exact Hf ].
    unfold api_call. simpl. rewrite Hreg. reflexivity.
Qed.

(** [field] is fluent and writes one property of one object: a returning
    call gives back the object it was called on after resolving the name and
    writing the value; whatever the engine answers, the only calls made are
    the resolution of that name and a write of that value to that object;
    when the name is refused nothing is written. *)
Theorem field_writes_one_property
    (self : value) (name : wstring) (v : value) (w : world estate) :
  (forall r w',
      field self name v w = (Returned r, w') ->
      r = self
      /\ exists id,
          calls w' = calls w ++ [Ev_JsGetPropertyIdFromName name;
                                 Ev_JsSetProperty self id v])
  /\ logs (fun e => e = Ev_JsGetPropertyIdFromName name
                    \/ exists id, e = Ev_JsSetProperty self id v)
          (field self name v)
  /\ (forall c id s,
        eng_JsGetPropertyIdFromName name (eng w) = (c, id, s) ->
        failed c = true ->
        field self name v w
        = (Thrown (exception c),
           mk_world s (calls w ++ [Ev_JsGetPropertyIdFromName name]))).
Proof.
  split; [| split].
  - intros r w' H. apply field_returned. exact H.
  - assert (Heq : forall w0,
               field self name v w0
               = (id <- checked (JsGetPropertyIdFromName name) ;;
                  checked (JsSetProperty self id v) ;;; ret self) w0).
    { intros w0. unfold field, index_name, prop_set. rewrite bind_assoc.
      apply bind_congr. intros id w1. reflexivity. }
    intros w0. rewrite Heq. revert w0.
    change (logs (fun e => e = Ev_JsGetPropertyIdFromName name
                           \/ exists id, e = Ev_JsSetProperty self id v)
                 (id <- checked (JsGetPropertyIdFromName name) ;;
                  checked (JsSetProperty self id v) ;;; ret self)).
    unfold JsGetPropertyIdFromName, JsSetProperty. logs_steps'.
  - intros c id s Hop Hf. unfold field, index_name.
    apply bind_thrown. apply bind_thrown. unfold JsGetPropertyIdFromName.
    apply (checked_failed _ _ (r := id)); [| exact Hf].
    unfold api_call. rewrite Hop. reflexivity.
Qed.

(** Assigning through [operator[]] and calling [set] with the name are the
    same write. *)
Lemma named_write_paths_agree self name v w :
  field self name v w = (set_name self name v ;;; ret self) w.
Proof.
  unfold field, set_name, set_propid, index_name, prop_set.
  rewrite !bind_assoc. apply bind_congr. intros id w1. reflexivity.
Qed.

(** [method<N>]: the call returns, with the object it was called on, exactly
    when the engine accepts these calls: the name is resolved to an
    identifier, the function is created from the handler's trampoline with
    arity [N] and its finalizer registered (these two operands of the
    assignment in the order the compiler evaluates them), and that function
    is written to that identifier of this object.  When the creation of the
    function is refused its code is thrown and nothing is written. *)
Theorem method_binds_then_stores
    (order : evaluation_order) (self : value) (N : nat) (name : wstring)
    (handler : Callable) (w : world estate) :
  (forall r w',
      method order self N name handler w = (Returned r, w') <->
      r = self
      /\ exists id f,
          accepted
            (operands order [Got_JsGetPropertyIdFromName name id]
                            (binds N handler f)
             ++ [Got_JsSetProperty self id f]) w w')
  /\ (forall w0 c r s,
        match order with
        | argument_first => w0 = w
        | object_first =>
            exists id,
              JsGetPropertyIdFromName name w = (Returned (JsNoError, id), w0)
        end ->
        eng_JsCreateFunction (trampoline N handler) (eng w0) = (c, r, s) ->
        failed c = true ->
        method order self N name handler w
        = (Thrown (exception c),
           mk_world s (calls w0 ++ [Ev_JsCreateFunction N]))).
Proof.
  split.
  - intros r w'. unfold method. split.
    + intros H.
      apply bind_returned_inv in H. destruct H as ([] & w1 & Hcall & H).
      injection H as <- <-.
      apply member_call_returned in Hcall.
      destruct Hcall as (p & f & wa & wb & Hops & Hset).
      split; [reflexivity |].
      assert (Hname : forall wx wy,
                 index_name self name wx = (Returned p, wy) ->
                 obj p = self
                 /\ accepted [Got_JsGetPropertyIdFromName name (propid p)]
                             wx wy).
      { intros wx wy Hp. unfold index_name in Hp.
        apply bind_returned_inv in Hp. destruct Hp as (id & wz & Hid & Hp).
        injection Hp as <- <-. apply checked_returned in Hid.
        split; [reflexivity |]. simpl. exists wz.
        split; [exact Hid | reflexivity]. }
      exists (propid p), f. apply accepted_app. exists wb.
      assert (Hobj : obj p = self).
      { destruct order; destruct Hops as [Hx Hy];
          first [ exact (proj1 (Hname _ _ Hx)) | exact (proj1 (Hname _ _ Hy)) ]. }
      split.
      * apply operands_accepted. exists wa.
        destruct order; destruct Hops as [Hx Hy]; split;
          first [ apply function_run; assumption
                | apply (Hname _ _); assumption ].
      * unfold prop_set in Hset. apply checked_returned in Hset.
        rewrite Hobj in Hset. simpl. exists w1.
        split; [exact Hset | reflexivity].
    + intros (-> & id & f & H).
      apply accepted_app in H. destruct H as (wb & Hops & Hset).
      apply operands_accepted in Hops. destruct Hops as (wa & Hops).
      simpl in Hset. destruct Hset as (w1 & Hset & ->).
      assert (Hname : forall wx wy,
                 accepted [Got_JsGetPropertyIdFromName name id] wx wy ->
                 index_name self name wx
                 = (Returned (mk_prop_ref self id), wy)).
      { intros wx wy (wz & Hid & ->). simpl in Hid. unfold index_name.
        erewrite bind_returned; [reflexivity |].
        apply checked_returned. exact Hid. }
      erewrite bind_returned; [reflexivity |].
      apply member_call_returned.
      exists (mk_prop_ref self id), f, wa, wb. split.
      * destruct order; destruct Hops as [Hx Hy]; split;
          first [ apply function_run; assumption
                | apply Hname; assumption ].
      * unfold prop_set. simpl. apply checked_returned. exact Hset.
  - intros w0 c r s Hwhere Hop Hf. unfold method. apply bind_thrown.
    destruct order; simpl.
    + destruct Hwhere as (id & Hid).
      erewrite bind_returned.
      * apply bind_thrown.
        exact (function_creation_refused N handler w0 c r s Hop Hf).
      * unfold index_name. erewrite bind_returned; [reflexivity |].
        apply checked_returned. exact Hid.
    + subst w0. apply bind_thrown.
      exact (function_creation_refused N handler w c r s Hop Hf).
Qed.

(** [property(name, getter, setter)]: no Error is created or made pending
    while the property is defined, in whatever order the compiler evaluates
    the operands; the definition returns, with the object it was called on,
    exactly when the engine accepts these calls: a descriptor object is
    created, its "configurable" (the identifier that name resolves to) is
    written with the engine's [false], its "get" with the function created
    from the getter's trampoline with arity 0, its "set" with the function
    created from the setter's trampoline with arity 1; then the property
    name is resolved and [JsDefineProperty] is given the object, the
    identifier of the name and the descriptor. *)
Theorem read_write_property_descriptor
    (order : wstring -> evaluation_order) (self : value) (name : wstring)
    (getter setter : Callable) (w : world estate) :
  logs (fun e => is_raise e = false) (property_rw order self name getter setter)
  /\ (forall v w',
        property_rw order self name getter setter w = (Returned v, w') <->
        v = self
        /\ exists d f g s pc pg ps pn b,
            accepted
              (describes order getter setter d f g s pc pg ps
               ++ defines self name pn d b) w w').
Proof.
  split.
  - unfold property_rw.
    apply logs_bind; [apply accessor_descriptor_logs | intros d].
    apply logs_bind; [apply define_property_logs | intros b].
    apply logs_ret.
  - intros v w'. unfold property_rw. apply descriptor_defined.
Qed.

End Builder.

(** * Reading into narrow integer types *)

Section NarrowReads.
Context {E : Engine}.

Ltac int_cases T Hvalid :=
  destruct T as [sz sg]; unfold valid_int_type in Hvalid; simpl in Hvalid;
  destruct Hvalid as [-> | [-> | [-> | ->]]]; destruct sg.

Ltac eval_pows :=
  repeat match goal with
         | |- context [Z.pow_pos ?a ?b] =>
             let n := eval vm_compute in (Z.pow_pos a b) in
             change (Z.pow_pos a b) with n
         | H : context [Z.pow_pos ?a ?b] |- _ =>
             let n := eval vm_compute in (Z.pow_pos a b) in
             change (Z.pow_pos a b) with n in H
         end.

Lemma static_cast_range T z : valid_int_type T -> in_range T (static_cast T z).
Proof.
  intros Hvalid. int_cases T Hvalid;
    unfold in_range, static_cast, min_of, max_of, bits; simpl; eval_pows;
    match goal with
    | |- context [?a mod ?b] => pose proof (Z.mod_pos_bound a b)
    end; lia.
Qed.

Lemma static_cast_congruent T z :
  valid_int_type T -> (static_cast T z - z) mod 2 ^ bits T = 0.
Proof.
  intros Hvalid. unfold static_cast.
  assert (Hpos : 0 < 2 ^ bits T).
  { apply Z.pow_pos_nonneg; [lia |]. unfold bits, valid_int_type in *. lia. }
  destruct (is_signed T).
  - rewrite (Z.mod_eq (z + 2 ^ (bits T - 1)) (2 ^ bits T)) by lia.
    replace (z + 2 ^ (bits T - 1)
             - 2 ^ bits T * ((z + 2 ^ (bits T - 1)) / 2 ^ bits T)
             - 2 ^ (bits T - 1) - z)
      with (- ((z + 2 ^ (bits T - 1)) / 2 ^ bits T) * 2 ^ bits T) by ring.
    apply Z.mod_mul. lia.
  - rewrite (Z.mod_eq z (2 ^ bits T)) by lia.
    replace (z - 2 ^ bits T * (z / 2 ^ bits T) - z)
      with (- (z / 2 ^ bits T) * 2 ^ bits T) by ring.
    apply Z.mod_mul. lia.
Qed.

(** Reading a number into a signed type no wider than [int], or into an
    unsigned type narrower than [int], never fails on the value: the [int]
    the engine gives is reduced modulo [2^bits] into the range of the type
    (unchanged when it already fits), and only [JsNumberToInt] is called. *)
Theorem narrow_read_wraps
    (T : int_type) (v : value) (w : world estate) (z : Z) (w1 : world estate) :
  valid_int_type T -> is_small_int_v T = true -> through_int T = true ->
  JsNumberToInt v w = (Returned (JsNoError, z), w1) ->
  as_ T v w = (Returned (static_cast T z), w1)
  /\ calls w1 = calls w ++ [Ev_JsNumberToInt v]
  /\ in_range T (static_cast T z)
  /\ (static_cast T z - z) mod 2 ^ bits T = 0
  /\ (in_range T z -> static_cast T z = z).
Proof.
  intros Hvalid Hsmall Htag Hread. repeat split.
  - unfold as_. rewrite Hsmall, Htag. unfold as_small_int, as_int.
    rewrite (bind_returned _ _ _ (checked_ok _ _ Hread)). reflexivity.
  - unfold JsNumberToInt in Hread. rewrite api_call_eq in Hread.
    injection Hread as _ _ <-. reflexivity.
  - apply (proj1 (static_cast_range T z Hvalid)).
  - apply (proj2 (static_cast_range T z Hvalid)).
  - apply static_cast_congruent. exact Hvalid.
  - intros Hr. apply static_cast_in_range; assumption.
Qed.

End NarrowReads.

(** * [referenced_value]: each handle on its own *)

Section HandleLedger.
Context {E : Engine}.

Lemma net_count_of_app h l l' :
  net_count_of h (l ++ l') = net_count_of h l + net_count_of h l'.
Proof.
  unfold net_count_of. rewrite !filter_app, !length_app, !Nat2Z.inj_add. lia.
Qed.

Lemma live_holding_cons h x st :
  live_holding h (x :: st) = weight_of h x + live_holding h st.
Proof.
  unfold live_holding, weight_of. simpl filter. destruct (holds h x).
  - simpl List.length. rewrite Nat2Z.inj_succ. lia.
  - lia.
Qed.

Lemma live_holding_app h st x :
  live_holding h (st ++ [x]) = live_holding h st + weight_of h x.
Proof.
  induction st as [| y st IH].
  - rewrite app_nil_l, live_holding_cons. unfold live_holding. simpl. lia.
  - rewrite <- app_comm_cons, !live_holding_cons, IH. lia.
Qed.

Lemma live_holding_set_slot h st i x y :
  nth_error st i = Some y ->
  live_holding h (set_slot st i x)
  = live_holding h st - weight_of h y + weight_of h x.
Proof.
  revert i. induction st as [| z st IH]; intros [| i] H; simpl in H;
    try discriminate.
  - injection H as ->. simpl. rewrite !live_holding_cons. lia.
  - simpl. rewrite !live_holding_cons, (IH i H). lia.
Qed.

Lemma net_of_add_ref h (this : referenced_value) :
  h <> JS_INVALID_REFERENCE ->
  net_count_of h (if is_empty this then [] else [Ev_JsAddRef this])
  = weight_of h (@Some referenced_value this).
Proof.
  intros Hh. unfold weight_of, holds, is_empty, net_count_of.
  destruct (N.eqb this JS_INVALID_REFERENCE) eqn:He.
  - apply N.eqb_eq in He. subst this.
    replace (N.eqb JS_INVALID_REFERENCE h) with false
      by (symmetry; apply N.eqb_neq; congruence).
    reflexivity.
  - simpl. destruct (N.eqb this h); reflexivity.
Qed.

Lemma net_of_release h (this : referenced_value) :
  h <> JS_INVALID_REFERENCE ->
  net_count_of h (if is_empty this then [] else [Ev_JsRelease this])
  = - weight_of h (@Some referenced_value this).
Proof.
  intros Hh. unfold weight_of, holds, is_empty, net_count_of.
  destruct (N.eqb this JS_INVALID_REFERENCE) eqn:He.
  - apply N.eqb_eq in He. subst this.
    replace (N.eqb JS_INVALID_REFERENCE h) with false
      by (symmetry; apply N.eqb_neq; congruence).
    reflexivity.
  - simpl. destruct (N.eqb this h); reflexivity.
Qed.

Lemma weight_of_empty h :
  h <> JS_INVALID_REFERENCE ->
  weight_of h (@Some referenced_value JS_INVALID_REFERENCE) = 0.
Proof.
  intros Hh. unfold weight_of, holds.
  replace (N.eqb JS_INVALID_REFERENCE h) with false
    by (symmetry; apply N.eqb_neq; congruence).
  reflexivity.
Qed.

Lemma rv_step_handle h op st w :
  h <> JS_INVALID_REFERENCE ->
  exists st' w',
    rv_step op st w = (Returned st', w')
    /\ net_count_of h (calls w') - live_holding h st'
       = net_count_of h (calls w) - live_holding h st.
Proof.
  intros Hh. destruct op as [src | src | dst src | dst src | x]; simpl.
  - destruct (alive st src) as [o |] eqn:Ho; [| exists st, w; auto].
    unfold rv_copy_construct.
    destruct (add_ref_run o w) as (w' & Hrun & Hlog).
    exists (st ++ [Some o]), w'. split.
    + unfold bind. rewrite Hrun. reflexivity.
    + rewrite Hlog, net_count_of_app, (net_of_add_ref h o Hh),
        live_holding_app. lia.
  - destruct (alive st src) as [o |] eqn:Ho; [| exists st, w; auto].
    eexists. exists w. split; [reflexivity |]. simpl.
    rewrite live_holding_app,
      (live_holding_set_slot h _ _ _ _ (alive_nth _ _ _ Ho)).
    rewrite (weight_of_empty h Hh). lia.
  - destruct (alive st dst) as [this |] eqn:Ht; [| exists st, w; auto].
    destruct (alive st src) as [o |] eqn:Ho; [| exists st, w; auto].
    unfold rv_copy_assign.
    destruct (release_run this w) as (w1 & Hrel & Hlog1).
    destruct (add_ref_run o w1) as (w2 & Hadd & Hlog2).
    exists (set_slot st dst (Some o)), w2. split.
    + unfold bind. rewrite Hrel, Hadd. reflexivity.
    + rewrite Hlog2, Hlog1, !net_count_of_app,
        (net_of_add_ref h o Hh), (net_of_release h this Hh).
      rewrite (live_holding_set_slot h _ _ _ _ (alive_nth _ _ _ Ht)). lia.
  - destruct (alive st dst) as [this |] eqn:Ht; [| exists st, w; auto].
    destruct (alive st src) as [o |] eqn:Ho; [| exists st, w; auto].
    eexists. exists w. split; [reflexivity |]. simpl.
    destruct (Nat.eq_dec dst src) as [-> | Hne].
    + rewrite Ht in Ho. injection Ho as ->.
      rewrite (live_holding_set_slot h _ _ _ _
                 (nth_error_set_slot_eq _ _ _ _ (alive_nth _ _ _ Ht))).
      rewrite (live_holding_set_slot h _ _ _ _ (alive_nth _ _ _ Ht)). lia.
    + assert (Hsrc : nth_error (set_slot st dst (Some o)) src = Some (Some o))
        by (rewrite nth_error_set_slot_ne by exact Hne;
            apply alive_nth; exact Ho).
      rewrite (live_holding_set_slot h _ _ _ _ Hsrc).
      rewrite (live_holding_set_slot h _ _ _ _ (alive_nth _ _ _ Ht)). lia.
  - destruct (alive st x) as [this |] eqn:Ht; [| exists st, w; auto].
    unfold rv_destroy.
    destruct (release_run this w) as (w' & Hrun & Hlog).
    exists (set_slot st x None), w'. split.
    + unfold bind. rewrite Hrun. reflexivity.
    + rewrite Hlog, net_count_of_app, (net_of_release h this Hh).
      rewrite (live_holding_set_slot h _ _ _ _ (alive_nth _ _ _ Ht)).
      unfold weight_of at 3. simpl. lia.
Qed.

(** Handle by handle: whatever objects a program starts from (they may pin
    different values) and whatever it does, for every handle the increments
    minus the decrements it makes on that handle equal the change in the
    number of live objects holding that handle.  No operation counts on
    behalf of another handle. *)
Theorem handle_counts_balance
    (h : JsValueRef) (ops : list rv_op) (st : rv_store) (w : world estate) :
  h <> JS_INVALID_REFERENCE ->
  exists st' w',
    rv_run ops st w = (Returned st', w')
    /\ net_count_of h (calls w') - net_count_of h (calls w)
       = live_holding h st' - live_holding h st.
Proof.
  intros Hh. revert st w. induction ops as [| op ops IH]; intros st w; simpl.
  - exists st, w. split; [reflexivity | lia].
  - destruct (rv_step_handle h op st w Hh) as (st1 & w1 & Hstep & H1).
    destruct (IH st1 w1) as (st2 & w2 & Hrun & H2).
    exists st2, w2. split; [| lia].
    unfold bind. rewrite Hstep. exact Hrun.
Qed.

(** Copy assignment releases the handle held before it pins the new one,
    also when both are the same handle; the object ends up holding the
    source's handle. *)
Theorem copy_assignment_releases_first
    (this o : referenced_value) (w : world estate) :
  fst (rv_copy_assign this o w) = Returned o
  /\ calls (snd (rv_copy_assign this o w))
     = calls w ++ (if is_empty this then [] else [Ev_JsRelease this])
               ++ (if is_empty o then [] else [Ev_JsAddRef o]).
Proof.
  unfold rv_copy_assign, bind.
  destruct (release_run this w) as (w1 & Hrel & Hlog1).
  destruct (add_ref_run o w1) as (w2 & Hadd & Hlog2).
  rewrite Hrel, Hadd. simpl. split; [reflexivity |].
  rewrite Hlog2, Hlog1, <- app_assoc. reflexivity.
Qed.

End HandleLedger.

(** * [runtime]: one owner, one disposal *)

Section RuntimeOwnership.
Import Session.

Lemma disposals_app h l l' : disposals h (l ++ l') = disposals h l + disposals h l'.
Proof.
  unfold disposals. rewrite filter_app, length_app, Nat2Z.inj_add. lia.
Qed.

Lemma owners_cons h x st : owners h (x :: st) = own_weight h x + owners h st.
Proof.
  unfold owners, own_weight. simpl filter. destruct (owns h x).
  - simpl List.length. rewrite Nat2Z.inj_succ. lia.
  - lia.
Qed.

Lemma owners_app h st x : owners h (st ++ [x]) = owners h st + own_weight h x.
Proof.
  induction st as [| y st IH].
  - rewrite app_nil_l, owners_cons. unfold owners. simpl. lia.
  - rewrite <- app_comm_cons, !owners_cons, IH. lia.
Qed.

Lemma owners_set_slot h st i x y :
  nth_error st i = Some y ->
  owners h (Session.set_slot st i x) = owners h st - own_weight h y + own_weight h x.
Proof.
  revert i. induction st as [| z st IH]; intros [| i] H; simpl in H;
    try discriminate.
  - injection H as ->. simpl. rewrite !owners_cons. lia.
  - simpl. rewrite !owners_cons, (IH i H). lia.
Qed.

Lemma session_alive_nth st i h :
  Session.alive st i = Some h -> nth_error st i = Some (Some h).
Proof.
  unfold Session.alive. destruct (nth_error st i) as [[u |] |]; intros H;
    try discriminate. injection H as ->. reflexivity.
Qed.

Lemma session_nth_set_slot_eq st i x y :
  nth_error st i = Some y -> nth_error (Session.set_slot st i x) i = Some x.
Proof.
  revert i. induction st as [| z st IH]; intros [| i] H; simpl in *;
    try discriminate; [reflexivity | exact (IH i H)].
Qed.

Lemma session_nth_set_slot_ne st i j x :
  i <> j -> nth_error (Session.set_slot st i x) j = nth_error st j.
Proof.
  revert i j. induction st as [| z st IH]; intros [| i] [| j] H; simpl;
    try reflexivity; try congruence.
  apply IH. congruence.
Qed.

Lemma own_weight_invalid h :
  h <> JS_INVALID_RUNTIME_HANDLE ->
  own_weight h (@Some runtime JS_INVALID_RUNTIME_HANDLE) = 0.
Proof.
  intros Hh. unfold own_weight, owns.
  replace (N.eqb JS_INVALID_RUNTIME_HANDLE h) with false
    by (symmetry; apply N.eqb_neq; congruence).
  reflexivity.
Qed.

Lemma disposals_destroy h (this : runtime) :
  h <> JS_INVALID_RUNTIME_HANDLE ->
  disposals h (destroy this) = own_weight h (@Some runtime this).
Proof.
  intros Hh. unfold destroy, disposals, own_weight, owns.
  destruct (N.eqb this JS_INVALID_RUNTIME_HANDLE) eqn:He; simpl.
  - apply N.eqb_eq in He. subst this.
    replace (N.eqb JS_INVALID_RUNTIME_HANDLE h) with false
      by (symmetry; apply N.eqb_neq; congruence).
    reflexivity.
  - destruct (N.eqb this h); reflexivity.
Qed.

Lemma step_keeps_ownership h o st :
  h <> JS_INVALID_RUNTIME_HANDLE ->
  disposals h (snd (step o st)) + owners h (fst (step o st)) = owners h st.
Proof.
  intros Hh. destruct o as [| src | dst src | x]; simpl.
  - rewrite owners_app. unfold default_construct.
    rewrite (own_weight_invalid h Hh). unfold disposals. simpl. lia.
  - destruct (Session.alive st src) as [g |] eqn:Hg; simpl;
      [| unfold disposals; simpl; lia].
    rewrite owners_app, (owners_set_slot h _ _ _ _ (session_alive_nth _ _ _ Hg)).
    rewrite (own_weight_invalid h Hh). unfold disposals. simpl. lia.
  - destruct (Session.alive st dst) as [this |] eqn:Ht; simpl;
      [| unfold disposals; simpl; lia].
    destruct (Session.alive st src) as [g |] eqn:Hg; simpl;
      [| unfold disposals; simpl; lia].
    destruct (Nat.eq_dec dst src) as [-> | Hne].
    + rewrite Ht in Hg. injection Hg as ->.
      rewrite (owners_set_slot h _ _ _ _
                 (session_nth_set_slot_eq _ _ _ _ (session_alive_nth _ _ _ Ht))).
      rewrite (owners_set_slot h _ _ _ _ (session_alive_nth _ _ _ Ht)).
      unfold disposals. simpl. lia.
    + assert (Hsrc : nth_error (Session.set_slot st dst (Some g)) src
                     = Some (Some g))
        by (rewrite session_nth_set_slot_ne by exact Hne;
            apply session_alive_nth; exact Hg).
      rewrite (owners_set_slot h _ _ _ _ Hsrc).
      rewrite (owners_set_slot h _ _ _ _ (session_alive_nth _ _ _ Ht)).
      unfold disposals. simpl. lia.
  - destruct (Session.alive st x) as [this |] eqn:Ht; simpl;
      [| unfold disposals; simpl; lia].
    rewrite (disposals_destroy h this Hh).
    rewrite (owners_set_slot h _ _ _ _ (session_alive_nth _ _ _ Ht)).
    unfold own_weight at 3. simpl. lia.
Qed.

Lemma run_keeps_ownership h ops :
  h <> JS_INVALID_RUNTIME_HANDLE ->
  forall st,
    disposals h (snd (run ops st)) + owners h (fst (run ops st)) = owners h st.
Proof.
  intros Hh. induction ops as [| o ops IH]; intros st; simpl.
  - unfold disposals. simpl. lia.
  - pose proof (step_keeps_ownership h o st Hh) as Hs.
    destruct (step o st) as [st1 l1]. simpl in Hs.
    pose proof (IH st1) as Hr.
    destruct (run ops st1) as [st2 l2]. simpl in *.
    rewrite disposals_app. lia.
Qed.

(** A runtime handle has one owner until it is disposed, and is disposed at
    most once: whatever moves, move assignments, default constructions and
    destructions are applied to the [runtime] objects derived from one
    created runtime, either exactly one live object holds the handle and no
    [JsDisposeRuntime] was issued for it, or none holds it and exactly one
    was; no other handle is ever disposed. *)
Theorem runtime_disposed_once (h : JsRuntimeHandle) (ops : list op) :
  h <> JS_INVALID_RUNTIME_HANDLE ->
  let st' := fst (run ops [Some h]) in
  let log := snd (run ops [Some h]) in
  ((owners h st' = 1 /\ disposals h log = 0)
   \/ (owners h st' = 0 /\ disposals h log = 1))
  /\ (forall g, g <> h -> g <> JS_INVALID_RUNTIME_HANDLE ->
                disposals g log = 0 /\ owners g st' = 0).
Proof.
  intros Hh st' log. subst st' log.
  assert (Hnn : forall g l st, 0 <= disposals g l /\ 0 <= owners g st)
    by (intros; unfold disposals, owners; lia).
  split.
  - pose proof (run_keeps_ownership h ops Hh [Some h]) as Hk.
    assert (Hone : owners h [Some h] = 1).
    { unfold owners. simpl. rewrite N.eqb_refl. reflexivity. }
    rewrite Hone in Hk.
    destruct (Hnn h (snd (run ops [Some h])) (fst (run ops [Some h]))).
    lia.
  - intros g Hg Hgv.
    pose proof (run_keeps_ownership g ops Hgv [Some h]) as Hk.
    assert (Hzero : owners g [Some h] = 0).
    { unfold owners. simpl.
      replace (N.eqb h g) with false
        by (symmetry; apply N.eqb_neq; congruence).
      reflexivity. }
    rewrite Hzero in Hk.
    destruct (Hnn g (snd (run ops [Some h])) (fst (run ops [Some h]))).
    lia.
Qed.

End RuntimeOwnership.

(** * Which engine constructor an integer goes through *)

Section ConstructorChoice.
Context {E : Engine}.

Ltac int_cases T Hvalid :=
  destruct T as [sz sg]; unfold valid_int_type in Hvalid; simpl in Hvalid;
  destruct Hvalid as [-> | [-> | [-> | ->]]]; destruct sg.

Ltac eval_pows :=
  repeat match goal with
         | |- context [Z.pow_pos ?a ?b] =>
             let n := eval vm_compute in (Z.pow_pos a b) in
             change (Z.pow_pos a b) with n
         | H : context [Z.pow_pos ?a ?b] |- _ =>
             let n := eval vm_compute in (Z.pow_pos a b) in
             change (Z.pow_pos a b) with n in H
         end.

Lemma checked_api_log {R} ev (op : estate -> JsErrorCode * R * estate) w :
  calls (snd (checked (api_call ev op) w)) = calls w ++ [ev].
Proof.
  destruct (checked_api_cases ev op w)
    as [(r & s & _ & ->) | (c & r & s & _ & _ & ->)]; reflexivity.
Qed.

(** Converting a host integer makes exactly one engine call, whatever the
    engine answers: [JsIntToNumber] on the value itself when the type is no
    wider than [int] and the value does not exceed [INT_MAX], and
    [JsDoubleToNumber] on the value cast to [double] otherwise; so a type
    wider than [int] goes through [double] even for small values. *)
Theorem from_chooses_constructor
    (T : int_type) (v : Z) (w : world estate) :
  valid_int_type T -> in_range T v ->
  calls (snd (from T v w))
  = calls w ++ [if is_small_int_v T && (v <=? INT_MAX)
                then Ev_JsIntToNumber v
                else Ev_JsDoubleToNumber (double_of_Z v)].
Proof.
  intros Hvalid Hrange. unfold from.
  destruct (is_small_int_v T) eqn:Hsmall; simpl andb.
  - unfold from_tagged. destruct (through_int T) eqn:Htag.
    + pose proof (small_range_in_int Hvalid Htag Hsmall Hrange) as Hint.
      rewrite (@static_cast_in_range t_int v)
        by (try exact Hint; right; right; left; reflexivity).
      replace (v <=? INT_MAX) with true by (symmetry; apply Z.leb_le; lia).
      unfold from_int, JsIntToNumber. apply checked_api_log.
    + assert (Hu : static_cast T INT_MAX = INT_MAX
                   /\ (v <= INT_MAX -> static_cast t_int v = v)).
      { revert Hsmall Htag Hrange. int_cases T Hvalid;
          unfold through_int, is_small_int_v, in_range, static_cast,
            INT_MAX, min_of, max_of, bits; simpl; intros;
          try discriminate; eval_pows; split;
          first [reflexivity | intros; rewrite Z.mod_small; lia]. }
      destruct Hu as [-> Hcast]. rewrite Z.gtb_ltb.
      destruct (INT_MAX <? v) eqn:Hgt.
      * replace (v <=? INT_MAX) with false
          by (symmetry; apply Z.leb_gt; apply Z.ltb_lt; exact Hgt).
        unfold from_double, JsDoubleToNumber. apply checked_api_log.
      * apply Z.ltb_ge in Hgt.
        replace (v <=? INT_MAX) with true by (symmetry; apply Z.leb_le; lia).
        rewrite (Hcast Hgt).
        unfold from_int, JsIntToNumber. apply checked_api_log.
  - unfold from_double, JsDoubleToNumber. apply checked_api_log.
Qed.

End ConstructorChoice.

(** * Runs on the reference engine *)

Section ReferenceRuns.
Import RefEngine.
Local Open Scope string_scope.

Lemma cell_at_fresh (h : list cell) (ns : list wstring) (p : option JsValueRef)
    (c : cell) :
  cell_at (mk_state (h ++ [c]) ns p) (N.of_nat (S (List.length h))) = Some c.
Proof.
  unfold cell_at.
  replace (N.eqb (N.of_nat (S (List.length h))) 0) with false
    by (symmetry; apply N.eqb_neq; lia).
  rewrite Nat2N.id. simpl heap.
  replace (S (List.length h) - 1)%nat with (List.length h) by lia.
  rewrite nth_error_app2 by lia. rewrite Nat.sub_diag. reflexivity.
Qed.

(** Runs a sequence of calls on a concrete world, one call at a time. *)
Ltac accept_calls :=
  repeat match goal with
         | |- exists w1, ?call ?w = (Returned _, w1) /\ _ =>
             let w' := eval vm_compute in (snd (call w)) in
             exists w'; split; [vm_compute; reflexivity |]
         end;
  vm_compute; reflexivity.

Lemma extra_arguments_are_dropped_witness :
  trampoline (E := roomy) 2 parameter_count [h_null; 3; 4; 1; 2]%N fresh
  = try_catch (r <- ret 2 ;; from t_int r)%host trampoline_handler fresh
  /\ calls (snd (trampoline (E := roomy) 2 parameter_count
                   [h_null; 3; 4; 1; 2]%N fresh))
     = [Ev_JsIntToNumber 2]
  /\ fst (trampoline (E := roomy) 2 second_argument [h_null; 3; 4; 1; 2]%N fresh)
     = Returned 4%N
  /\ trampoline (E := roomy) 2 second_argument [h_null; 3; 4; 1; 2]%N fresh
     = trampoline (E := roomy) 2 second_argument [h_null; 3; 4]%N fresh.
Proof.
  pose proof (@extra_arguments_are_dropped roomy 2 [h_null; 3; 4; 1; 2]%N)
    as H.
  cbv zeta in H.
  destruct H as (_ & _ & Hvalue & Hsame); [simpl; lia | simpl; lia |].
  split; [| split; [| split]].
  - unfold parameter_count. rewrite Hvalue. reflexivity.
  - unfold parameter_count. rewrite Hvalue. reflexivity.
  - unfold second_argument. rewrite Hvalue. reflexivity.
  - apply Hsame.
Defined.

Lemma missing_arguments_are_empty_witness :
  trampoline (E := roomy) 3 parameter_count [h_null; 3]%N fresh
  = try_catch (r <- ret 3 ;; from t_int r)%host trampoline_handler fresh
  /\ calls (snd (trampoline (E := roomy) 3 empty_parameters [h_null; 3]%N fresh))
     = [Ev_JsIntToNumber 2]
  /\ trampoline (E := roomy) 2 second_argument [h_null; 3]%N fresh
     = (Returned JS_INVALID_REFERENCE, fresh).
Proof.
  pose proof (@missing_arguments_are_empty roomy 3 [h_null; 3]%N) as H3.
  cbv zeta in H3.
  destruct H3 as (_ & _ & _ & _ & _ & Hvalue & _ & _);
    [simpl; lia | simpl; lia |].
  pose proof (@missing_arguments_are_empty roomy 2 [h_null; 3]%N) as H2.
  cbv zeta in H2.
  destruct H2 as (_ & _ & _ & _ & _ & _ & _ & Hreturns);
    [simpl; lia | simpl; lia |].
  split; [| split].
  - unfold parameter_count. rewrite Hvalue. reflexivity.
  - unfold empty_parameters. rewrite Hvalue. reflexivity.
  - unfold second_argument.
    apply (Hreturns value _ _ fresh JS_INVALID_REFERENCE fresh); reflexivity.
Defined.

(** When the engine has no room for the Error, a bridge exception thrown by
    the callable is answered with the null value: no Error is built and none
    is made pending. *)
Lemma failure_answered_with_null_when_engine_refuses :
  let r := trampoline (E := full) 0 (failing (exception JsErrorInvalidArgument))
                      [h_null] fresh_full in
  trampoline_body (E := full) 0 (failing (exception JsErrorInvalidArgument))
                  [h_null] fresh_full
  = (Thrown (exception JsErrorInvalidArgument), fresh_full)
  /\ fst r = Returned h_null
  /\ pending (eng (snd r)) = None
  /\ ~ exists m, raises_error r m.
Proof.
  repeat split.
  intros (m & Hm). apply raises_error_log in Hm.
  destruct Hm as (pre & str & err & Hlog).
  vm_compute in Hlog. apply (f_equal (@rev _)) in Hlog.
  rewrite rev_app_distr in Hlog. simpl in Hlog. discriminate Hlog.
Qed.

(** The same engine, a callback failure: the handler's own [check] throws and
    the bridge exception leaves the trampoline. *)
Lemma callback_failure_escapes_when_engine_refuses :
  trampoline (E := full) 0 (failing (callback_exception "bad input"))
             [h_null] fresh_full
  = (Thrown (exception JsErrorOutOfMemory),
     mk_world (init : @estate full) [Ev_JsPointerToString "bad input"]).
Proof. reflexivity. Qed.

(** C1. A callable that throws a standard exception whose description is not
    UTF-8.  On every engine the handler for standard exceptions decodes the
    description inside the handler; when the decoding fails, that failure
    leaves the trampoline, across the engine's call boundary, and the world
    is as the callable left it: no call reaches the engine, no Error is
    built, nothing is made pending.  So it is on the reference engine, with
    room for every value, for the description made of the single byte 0xFF;
    in the same state a description that decodes is raised as an Error. *)
Theorem undecodable_description_escapes_the_trampoline :
  (forall (E : Engine) N pf arguments w what w1,
      trampoline_body N pf arguments w = (Thrown (std_exception what), w1) ->
      from_bytes what = None ->
      trampoline N pf arguments w
      = (Thrown (std_exception "bad conversion"), w1))
  /\ (let what := String "255"%char EmptyString in
      let pf := failing (std_exception what) in
      let r := trampoline (E := roomy) 0 pf [h_null] fresh in
      trampoline_body (E := roomy) 0 pf [h_null] fresh
      = (Thrown (std_exception what), fresh)
      /\ from_bytes (Engine := roomy) what = None
      /\ r = (Thrown (std_exception "bad conversion"), fresh)
      /\ pending (eng (snd r)) = None
      /\ ~ (exists m, raises_error r m)
      /\ raises_error
           (trampoline (E := roomy) 0 (failing (std_exception "disk full"))
                       [h_null] fresh)
           "disk full").
Proof.
  split.
  - intros E N pf arguments w what w1 Hbody Hdec.
    rewrite (trampoline_caught _ _ _ _ Hbody). simpl. rewrite Hdec.
    reflexivity.
  - cbv zeta. split; [reflexivity |]. split; [reflexivity |].
    split; [reflexivity |]. split; [reflexivity |]. split.
    + intros (m & w1 & str & w2 & err & w3 & code & w4 & _ & _ & _ & H).
      discriminate H.
    + exists fresh. eexists. eexists. eexists. eexists. eexists. eexists.
      split; [| split; [| split]]; reflexivity.
Qed.

(** C4. A callable that throws something that is neither a bridge exception,
    nor a callback failure, nor a standard exception: on every engine the
    first call of the handler builds the string "Unknown error"; on the
    reference engine the Error raised and made pending carries that text,
    and no Error with the text "Unhandled Exception" is raised. *)
Theorem unclassified_failure_is_not_unhandled_exception :
  (forall (E : Engine) N pf arguments w w1,
      trampoline_body N pf arguments w = (Thrown other_throw, w1) ->
      exists rest,
        calls (snd (trampoline N pf arguments w))
        = (calls w1 ++ Ev_JsPointerToString "Unknown error" :: rest)%list)
  /\ (let r := trampoline (E := roomy) 0 (failing other_throw) [h_null] fresh in
      (exists err, fst r = Returned err
                   /\ error_text (eng (snd r)) err = Some "Unknown error"
                   /\ pending (eng (snd r)) = Some err)
      /\ raises_error r "Unknown error"
      /\ ~ raises_error r "Unhandled Exception").
Proof.
  split.
  - intros E N pf arguments w w1 Hbody.
    rewrite (trampoline_caught _ _ _ _ Hbody). simpl.
    unfold from_wstring, checked, bind, check, JsPointerToString,
      JsCreateError, JsSetException, api_call, ret, throw.
    simpl.
    destruct (eng_JsPointerToString "Unknown error" (eng w1))
      as [[c1 str] s1].
    simpl. destruct (failed c1); simpl.
    + exists []. reflexivity.
    + destruct (eng_JsCreateError str s1) as [[c2 err] s2].
      simpl. destruct (failed c2); simpl.
      * eexists. rewrite <- app_assoc. reflexivity.
      * destruct (eng_JsSetException err s2) as [[c3 []] s3]. simpl.
        eexists. rewrite <- !app_assoc. reflexivity.
  - cbv zeta. split; [| split].
    + exists 6%N. repeat split.
    + destruct (@unclassified_failure_message roomy 0 (failing other_throw)
                  [h_null] fresh fresh 5%N _ 6%N _ JsNoError _
                  eq_refl eq_refl eq_refl eq_refl) as [_ Hraise].
      exact Hraise.
    + intros Hm. apply raises_error_log in Hm.
      destruct Hm as (pre & str & err & Hlog).
      vm_compute in Hlog. apply (f_equal (@rev _)) in Hlog.
      rewrite rev_app_distr in Hlog. simpl in Hlog. discriminate Hlog.
Qed.

Lemma callback_failure_message_is_verbatim_witness :
  let r := trampoline (E := roomy) 1 (failing (callback_exception "bad input"))
                      [h_null; h_true] fresh in
  (exists err, fst r = Returned err
               /\ error_text (eng (snd r)) err = Some "bad input"%string
               /\ pending (eng (snd r)) = Some err)
  /\ raises_error r "bad input"%string.
Proof.
  edestruct (@callback_failure_message_is_verbatim roomy 1
               (failing (callback_exception "bad input")) [h_null; h_true]
               "bad input"%string fresh)
    as (Hrun & Hraise & Hlog);
    [reflexivity | reflexivity | reflexivity | reflexivity |].
  split; [| exact Hraise].
  exists 6%N. rewrite Hrun. repeat split.
Defined.

Lemma roomy_numbers_faithful : @numbers_faithful roomy.
Proof.
  split.
  - intros z s. eexists. eexists. eexists. split; [reflexivity |].
    simpl. unfold number_to_int. rewrite cell_at_fresh. reflexivity.
  - intros d s. eexists. eexists. eexists. split; [reflexivity |].
    simpl. unfold number_to_double. rewrite cell_at_fresh. reflexivity.
Qed.

(** Round trips on the reference engine: a negative [short], and a
    [long long] beyond the range of [int]. *)
Lemma round_trips_of_sample_values :
  (exists r w1 w2,
      from (E := roomy) t_short (-5) fresh = (Returned r, w1)
      /\ as_ t_short r w1 = (Returned (-5), w2))
  /\ (exists r w1 w2,
         from (E := roomy) t_longlong (2 ^ 40) fresh = (Returned r, w1)
         /\ as_ t_longlong r w1 = (Returned (2 ^ 40), w2)).
Proof.
  split.
  - refine (proj1 (@integer_round_trip roomy t_short (-5) fresh _ _
                     roomy_numbers_faithful) _).
    + right; left; reflexivity.
    + split; apply Z.leb_le; reflexivity.
    + left. split; apply Z.leb_le; reflexivity.
  - refine (proj1 (@integer_round_trip roomy t_longlong (2 ^ 40) fresh _ _
                     roomy_numbers_faithful) _).
    + right; right; right; reflexivity.
    + split; apply Z.leb_le; reflexivity.
    + right. split; [reflexivity | apply Z.leb_le; reflexivity].
Qed.

(** C6. The [unsigned int] 3000000000: it is exactly representable as a
    double and, being above [INT_MAX], is written through
    [JsDoubleToNumber], on every engine.  Reading into [unsigned int] goes
    through [JsNumberToInt], so on no engine, from no value, does the
    conversion back return 3000000000; on the reference engine the
    converted number reads as a negative [int] and the conversion raises the
    RangeError.  The value does not round-trip. *)
Theorem large_unsigned_does_not_round_trip :
  in_range t_unsigned 3000000000
  /\ double_of_Z 3000000000 = Dyadic 3000000000 0
  /\ trunc_double (double_of_Z 3000000000) = 3000000000
  /\ (forall (E : Engine) (w : world estate),
        calls (snd (from t_unsigned 3000000000 w))
        = (calls w ++ [Ev_JsDoubleToNumber (Dyadic 3000000000 0)])%list)
  /\ (forall (E : Engine) (r : value) (w : world estate),
        fst (as_ t_unsigned r w) <> Returned 3000000000)
  /\ (r <- from (E := roomy) t_unsigned 3000000000 ;; as_ t_unsigned r)%host
       fresh
     = (Thrown (exception JsErrorScriptException),
        mk_world
          (mk_state [CUndefined; CNull; CBool true; CBool false;
                     CDouble (Dyadic 3000000000 0);
                     CString "Value is out of range"; CRangeError 6%N]
                    [] (Some 7%N))
          [Ev_JsDoubleToNumber (Dyadic 3000000000 0); Ev_JsNumberToInt 5%N;
           Ev_JsPointerToString "Value is out of range";
           Ev_JsCreateRangeError 6%N; Ev_JsSetException 7%N]).
Proof.
  split; [split; apply Z.leb_le; reflexivity |].
  split; [reflexivity |]. split; [reflexivity |]. split; [| split].
  - intros E w.
    change (from t_unsigned 3000000000 w)
      with (from_double (Dyadic 3000000000 0) w).
    unfold from_double, checked, bind, JsDoubleToNumber.
    rewrite api_call_eq. simpl. unfold check.
    destruct (failed _); reflexivity.
  - intros E r w Hback.
    assert (Hv : valid_int_type t_unsigned) by (right; right; left; reflexivity).
    destruct (@as_small_unsigned_bound E t_unsigned r w 3000000000
                Hv eq_refl eq_refl Hback) as [_ Hle].
    apply Z.leb_le in Hle. discriminate Hle.
  - reflexivity.
Qed.

Lemma unsigned_conversion_rejects_negative_witness :
  fst (as_ (E := roomy) t_unsigned 5%N (snd (from t_int (-7) fresh)))
  = Thrown (exception JsErrorScriptException)
  /\ fst (as_ (E := roomy) t_unsigned 5%N (snd (from t_int 7 fresh)))
     = Returned 7.
Proof.
  split.
  - edestruct (@unsigned_conversion_rejects_negative roomy t_unsigned 5%N
                 (snd (from t_int (-7) fresh))) as [Hneg _];
      [reflexivity | reflexivity | reflexivity |].
    edestruct Hneg as [Hrun _];
      [reflexivity | reflexivity | reflexivity | reflexivity |].
    rewrite Hrun. reflexivity.
  - edestruct (@unsigned_conversion_rejects_negative roomy t_unsigned 5%N
                 (snd (from t_int 7 fresh))) as [_ Hpos];
      [reflexivity | reflexivity | reflexivity |].
    rewrite Hpos; [reflexivity |]. apply Z.leb_le. reflexivity.
Defined.

(** A missing argument of a typed parameter: the count is accepted, the empty
    handle then fails to convert, and that failure is answered like any
    other. *)
Lemma missing_typed_argument_fails_in_conversion :
  let r := trampoline (E := roomy) 1 successor [h_null] fresh in
  (exists err, fst r = Returned err
               /\ error_text (eng (snd r)) err = Some "Invalid argument: ")
  /\ calls (snd r) = [Ev_JsNumberToInt JS_INVALID_REFERENCE;
                      Ev_JsPointerToString "Invalid argument: ";
                      Ev_JsCreateError 5%N; Ev_JsSetException 6%N].
Proof. split; [exists 6%N; split; reflexivity | reflexivity]. Qed.

(** The ledger of a sample program: three increments, one decrement, two live
    clones holding the handle. *)
Lemma ledger_of_a_sample_program :
  let r := rv_program (E := roomy) h_true
             [CopyConstruct 0; MoveAssign 0 1; MoveConstruct 0; Destroy 0;
              CopyAssign 2 1] fresh in
  fst r = Returned [None; Some h_true; Some h_true]
  /\ calls (snd r) = [Ev_JsAddRef h_true; Ev_JsAddRef h_true;
                      Ev_JsRelease h_true; Ev_JsAddRef h_true].
Proof. split; reflexivity. Qed.

Lemma move_transfers_without_counting_witness :
  rv_move_construct (E := roomy) h_true fresh
  = (Returned (h_true, JS_INVALID_REFERENCE), fresh)
  /\ exists st',
      rv_step (E := roomy) (MoveAssign 0 1)
              [Some JS_INVALID_REFERENCE; Some h_true] fresh
      = (Returned st', fresh)
      /\ alive st' 1 = Some JS_INVALID_REFERENCE
      /\ alive st' 0 = Some h_true.
Proof.
  destruct (@move_transfers_without_counting roomy JS_INVALID_REFERENCE h_true
              fresh) as (Hconstruct & _ & _ & Hassign).
  split; [exact Hconstruct |].
  destruct (Hassign [Some JS_INVALID_REFERENCE; Some h_true] 0%nat 1%nat
              eq_refl eq_refl) as (st' & Hstep & Hsrc & Hdst).
  exists st'. split; [exact Hstep |]. split; [exact Hsrc |].
  apply Hdst. discriminate.
Defined.

(** After a move assignment the source holds the handle the destination held:
    it is not empty. *)
Lemma move_assignment_leaves_the_source_a_handle :
  rv_move_assign (E := roomy) h_true h_false fresh
  = (Returned (h_false, h_true), fresh)
  /\ is_empty h_true = false
  /\ fst (rv_program (E := roomy) h_true [CopyConstruct 0; MoveAssign 1 0] fresh)
     = Returned [Some h_true; Some h_true]
  /\ ~ (exists this',
          rv_move_assign (E := roomy) h_true h_false fresh
          = (Returned (this', JS_INVALID_REFERENCE), fresh)).
Proof.
  repeat split. intros (this' & H). discriminate H.
Qed.

(** Defining the read-only property "b" on the object of
    [object_with_message], with the operands of the three [field] calls
    evaluated object first and argument first; then the stub setter and the
    bound getter called as the engine calls them. *)
Lemma readonly_property_raises_on_write_witness :
  (let r := property (E := roomy) (fun _ => object_first) 5%N "b" answer
                     object_with_message in
   fst r = Returned 5%N
   /\ pending (eng (snd r)) = None
   /\ property_of (eng (snd r)) 5%N "b" = Some 7%N
   /\ property_of (eng (snd r)) 7%N "configurable" = Some h_false
   /\ property_of (eng (snd r)) 7%N "get" = Some 8%N
   /\ property_of (eng (snd r)) 7%N "set" = Some 9%N
   /\ is_function (eng (snd r)) 8%N = true
   /\ is_function (eng (snd r)) 9%N = true)
  /\ (let r := property (E := roomy) (fun _ => argument_first) 5%N "b" answer
                        object_with_message in
      fst r = Returned 5%N
      /\ pending (eng (snd r)) = None
      /\ property_of (eng (snd r)) 5%N "b" = Some 9%N
      /\ property_of (eng (snd r)) 9%N "configurable" = Some h_false
      /\ property_of (eng (snd r)) 9%N "get" = Some 8%N
      /\ property_of (eng (snd r)) 9%N "set" = Some 7%N
      /\ is_function (eng (snd r)) 8%N = true
      /\ is_function (eng (snd r)) 7%N = true)
  /\ (let r := trampoline (E := roomy) 1 (readonly_setter "b")
                          [h_null; h_true] fresh in
      exists err, fst r = Returned err
                  /\ error_text (eng (snd r)) err
                     = Some "b: property is read-only"
                  /\ pending (eng (snd r)) = Some err)
  /\ fst (trampoline (E := roomy) 0 answer [h_null] fresh) = Returned 5%N.
Proof.
  destruct (@readonly_property_raises_on_write roomy "b")
    as (Hset & _ & _ & Hinstalls & Hget).
  cbv zeta. split; [| split; [| split]].
  - assert (Hrun : property (E := roomy) (fun _ => object_first) 5%N "b" answer
                     object_with_message
                   = (Returned 5%N,
                      snd (property (E := roomy) (fun _ => object_first) 5%N
                             "b" answer object_with_message))).
    { apply (proj2 (Hinstalls (fun _ => object_first) 5%N answer
                      object_with_message 5%N _)).
      split; [reflexivity |].
      exists 7%N, h_false, 8%N, 9%N, 2%N, 3%N, 4%N, 5%N, true.
      cbn [describes defines operands writes binds app accepted answers].
      accept_calls. }
    rewrite Hrun. repeat split.
  - assert (Hrun : property (E := roomy) (fun _ => argument_first) 5%N "b"
                     answer object_with_message
                   = (Returned 5%N,
                      snd (property (E := roomy) (fun _ => argument_first) 5%N
                             "b" answer object_with_message))).
    { apply (proj2 (Hinstalls (fun _ => argument_first) 5%N answer
                      object_with_message 5%N _)).
      split; [reflexivity |].
      exists 9%N, h_false, 8%N, 7%N, 2%N, 3%N, 4%N, 5%N, true.
      cbn [describes defines operands writes binds app accepted answers].
      accept_calls. }
    rewrite Hrun. repeat split.
  - edestruct (Hset [h_null; h_true] fresh) as [Hrun _];
      [simpl; lia | reflexivity | reflexivity | reflexivity |].
    exists 6%N. rewrite Hrun. repeat split.
  - unfold answer.
    erewrite (Hget Z (fun _ => ret 42) (from t_int) [h_null] fresh);
      [reflexivity | simpl; lia | reflexivity | reflexivity].
Defined.

(** The calls of that definition in the two orders, and nothing pending
    afterwards. *)
Lemma defining_a_readonly_property :
  calls (snd (property (E := roomy) (fun _ => object_first) 5%N "b" answer
                object_with_message))
  = (calls object_with_message ++
     [Ev_JsCreateObject; Ev_JsGetFalseValue;
      Ev_JsGetPropertyIdFromName "configurable"; Ev_JsSetProperty 7 2 4;
      Ev_JsCreateFunction 0; Ev_JsSetObjectBeforeCollectCallback 8;
      Ev_JsGetPropertyIdFromName "get"; Ev_JsSetProperty 7 3 8;
      Ev_JsCreateFunction 1; Ev_JsSetObjectBeforeCollectCallback 9;
      Ev_JsGetPropertyIdFromName "set"; Ev_JsSetProperty 7 4 9;
      Ev_JsGetPropertyIdFromName "b"; Ev_JsDefineProperty 5 5 7]%N)%list
  /\ calls (snd (property (E := roomy) (fun _ => argument_first) 5%N "b" answer
                   object_with_message))
     = (calls object_with_message ++
        [Ev_JsCreateFunction 1; Ev_JsSetObjectBeforeCollectCallback 7;
         Ev_JsCreateFunction 0; Ev_JsSetObjectBeforeCollectCallback 8;
         Ev_JsGetFalseValue; Ev_JsCreateObject;
         Ev_JsGetPropertyIdFromName "configurable"; Ev_JsSetProperty 9 2 4;
         Ev_JsGetPropertyIdFromName "get"; Ev_JsSetProperty 9 3 8;
         Ev_JsGetPropertyIdFromName "set"; Ev_JsSetProperty 9 4 7;
         Ev_JsGetPropertyIdFromName "b"; Ev_JsDefineProperty 5 5 9]%N)%list.
Proof. split; reflexivity. Qed.

(** ** Further runs *)

Lemma map_error_classifies_witness :
  map_error JsNoError = Unexpected
  /\ (forall code', map_error JsErrorFatal = map_error code' ->
                    JsErrorFatal = code').
Proof.
  split.
  - apply (proj1 (map_error_classifies JsNoError)).
    simpl. intros H.
    repeat (destruct H as [H | H]; [discriminate H |]). exact H.
  - intros code' H.
    apply (proj2 (map_error_classifies JsErrorFatal) code' H). discriminate.
Defined.

Lemma compile_error_detail_witness :
  print_exception (E := roomy) JsErrorScriptCompile
                  (fun line pos => (line + 10, pos)) compile_error_pending
  = (Returned (SyntaxError, "[object] (13:7)"),
     snd (print_exception (E := roomy) JsErrorScriptCompile
            (fun line pos => (line + 10, pos)) compile_error_pending)).
Proof.
  refine (proj1 (@compile_error_detail roomy (fun line pos => (line + 10, pos))
                   compile_error_pending 5%N _ "[object]" _ eq_refl eq_refl)
                3 _ 7 _ eq_refl eq_refl).
Defined.

Lemma script_exception_detail_witness :
  print_exception (E := roomy) JsErrorScriptException identity
                  script_exception_pending
  = (Returned (ScriptError, "at f (a.js:1)"),
     snd (print_exception (E := roomy) JsErrorScriptException identity
            script_exception_pending)).
Proof.
  refine (proj1 (@script_exception_detail roomy identity
                   script_exception_pending 5%N _ "[object]" _
                   eq_refl eq_refl)
                "at f (a.js:1)" _ eq_refl).
Defined.

Lemma script_failure_without_details_witness :
  fst (print_exception (E := roomy) JsErrorScriptException identity fresh)
  = Returned (ScriptError, "").
Proof.
  rewrite (proj1 (@script_failure_without_details roomy JsErrorScriptException
                    identity fresh eq_refl)
                 JsErrorInvalidArgument _ eq_refl).
  reflexivity.
Defined.

Lemma bridge_exception_text_witness :
  let r := to_js_exception (E := roomy) JsErrorOutOfMemory fresh in
  (exists err, fst r = Returned err
               /\ error_text (eng (snd r)) err = Some "Out of memory: "
               /\ pending (eng (snd r)) = Some err)
  /\ raises_error r "Out of memory: ".
Proof.
  cbv zeta. unfold to_js_exception.
  edestruct (@bridge_exception_text roomy JsErrorOutOfMemory identity fresh)
    as (_ & Hok & _);
    [reflexivity | reflexivity | reflexivity | reflexivity |].
  destruct (Hok eq_refl) as [Hrun Hraise].
  split; [| exact Hraise]. exists 6%N. rewrite Hrun. repeat split.
Defined.

Lemma exception_details_never_fail_witness :
  fst (exception_details_message (E := roomy) 5%N object_with_message)
  = Returned "boom"
  /\ fst (exception_details_stack (E := roomy) 5%N object_with_message)
     = Returned "".
Proof.
  split.
  - rewrite (proj1 (proj2 (@exception_details_never_fail roomy 5%N
                             object_with_message "message"
                             exception_details_message
                             (or_introl eq_refl)))
                   "boom" _ eq_refl).
    reflexivity.
  - rewrite (proj2 (proj2 (@exception_details_never_fail roomy 5%N
                             object_with_message "stack"
                             exception_details_stack
                             (or_intror (or_introl eq_refl))))
                   JsErrorInvalidArgument _ eq_refl).
    reflexivity.
Defined.

Lemma successful_call_result_witness :
  fst (trampoline (E := roomy) 1 (callable_void (fun _ => ret tt))
                  [h_null; h_true; h_false] fresh)
  = Returned h_undefined
  /\ fst (trampoline (E := roomy) 2 second_argument [h_null; h_true] fresh)
     = Returned JS_INVALID_REFERENCE.
Proof.
  destruct (@successful_call_result roomy 1 [h_null; h_true; h_false] fresh)
    as (Hvoid & _); [simpl; lia |].
  destruct (@successful_call_result roomy 2 [h_null; h_true] fresh)
    as (_ & Hvalue & _); [simpl; lia |].
  split.
  - erewrite Hvoid; reflexivity.
  - unfold second_argument. erewrite Hvalue; reflexivity.
Defined.

Lemma standard_exception_text_witness :
  let r := trampoline (E := roomy) 0 (failing (std_exception "disk full"))
                      [h_null] fresh in
  (exists err, fst r = Returned err
               /\ error_text (eng (snd r)) err = Some "disk full")
  /\ raises_error r "disk full".
Proof.
  cbv zeta.
  edestruct (proj1 (@standard_exception_text roomy 0
                      (failing (std_exception "disk full")) [h_null]
                      "disk full" fresh fresh eq_refl))
    as [Hrun Hraise];
    [reflexivity | reflexivity | reflexivity | reflexivity |].
  split; [| exact Hraise]. exists 6%N. rewrite Hrun. split; reflexivity.
Defined.

Lemma function_registers_finalizer_witness :
  calls (snd (function (E := roomy) 2 second_argument fresh))
  = [Ev_JsCreateFunction 2; Ev_JsSetObjectBeforeCollectCallback 5%N]
  /\ function (E := full) 2 second_argument fresh_full
     = (Thrown (exception JsErrorOutOfMemory),
        mk_world (init : @estate full) [Ev_JsCreateFunction 2]).
Proof.
  split.
  - apply (proj1 (@function_registers_finalizer roomy 2 second_argument fresh)
             5%N (snd (function (E := roomy) 2 second_argument fresh))
             eq_refl).
  - apply (proj1 (proj2 (@function_registers_finalizer full 2 second_argument
                           fresh_full))
             JsErrorOutOfMemory JS_INVALID_REFERENCE init eq_refl eq_refl).
Defined.

Lemma field_writes_one_property_witness :
  (exists id,
      calls (snd (field (E := roomy) 5%N "a" h_true object_with_message))
      = calls object_with_message
        ++ [Ev_JsGetPropertyIdFromName "a"; Ev_JsSetProperty 5%N id h_true])%list
  /\ fst (field (E := roomy) 5%N "a" h_true object_with_message)
     = Returned 5%N.
Proof.
  split; [| reflexivity].
  apply (proj1 (@field_writes_one_property roomy 5%N "a" h_true
                  object_with_message)
           5%N (snd (field (E := roomy) 5%N "a" h_true object_with_message))
           eq_refl).
Defined.

(** The method "print" bound on the object of [object_with_message] in both
    orders, and on an engine with no room for the function. *)
Lemma method_binds_then_stores_witness :
  (let r := method (E := roomy) object_first 5%N 1 "print" second_argument
                   object_with_message in
   fst r = Returned 5%N
   /\ property_of (eng (snd r)) 5%N "print" = Some 7%N
   /\ is_function (eng (snd r)) 7%N = true
   /\ calls (snd r)
      = (calls object_with_message ++
         [Ev_JsGetPropertyIdFromName "print"; Ev_JsCreateFunction 1;
          Ev_JsSetObjectBeforeCollectCallback 7%N;
          Ev_JsSetProperty 5%N 2%N 7%N])%list)
  /\ (let r := method (E := roomy) argument_first 5%N 1 "print" second_argument
                      object_with_message in
      fst r = Returned 5%N
      /\ property_of (eng (snd r)) 5%N "print" = Some 7%N
      /\ is_function (eng (snd r)) 7%N = true
      /\ calls (snd r)
         = (calls object_with_message ++
            [Ev_JsCreateFunction 1; Ev_JsSetObjectBeforeCollectCallback 7%N;
             Ev_JsGetPropertyIdFromName "print";
             Ev_JsSetProperty 5%N 2%N 7%N])%list)
  /\ method (E := full) argument_first 5%N 1 "print" second_argument fresh_full
     = (Thrown (exception JsErrorOutOfMemory),
        mk_world (init : @estate full) [Ev_JsCreateFunction 1])
  /\ calls (snd (method (E := full) object_first 5%N 1 "print" second_argument
                   fresh_full))
     = [Ev_JsGetPropertyIdFromName "print"; Ev_JsCreateFunction 1].
Proof.
  cbv zeta. split; [| split; [| split]].
  - assert (Hrun : method (E := roomy) object_first 5%N 1 "print"
                     second_argument object_with_message
                   = (Returned 5%N,
                      snd (method (E := roomy) object_first 5%N 1 "print"
                             second_argument object_with_message))).
    { apply (proj2 (proj1 (@method_binds_then_stores roomy object_first 5%N
                             1%nat "print" second_argument
                             object_with_message) 5%N _)).
      split; [reflexivity |]. exists 2%N, 7%N.
      cbn [operands writes binds app accepted answers].
      accept_calls. }
    rewrite Hrun. repeat split.
  - assert (Hrun : method (E := roomy) argument_first 5%N 1 "print"
                     second_argument object_with_message
                   = (Returned 5%N,
                      snd (method (E := roomy) argument_first 5%N 1 "print"
                             second_argument object_with_message))).
    { apply (proj2 (proj1 (@method_binds_then_stores roomy argument_first 5%N
                             1%nat "print" second_argument
                             object_with_message) 5%N _)).
      split; [reflexivity |]. exists 2%N, 7%N.
      cbn [operands writes binds app accepted answers].
      accept_calls. }
    rewrite Hrun. repeat split.
  - apply (proj2 (@method_binds_then_stores full argument_first 5%N 1%nat
                    "print" second_argument fresh_full)
             fresh_full JsErrorOutOfMemory JS_INVALID_REFERENCE init
             eq_refl eq_refl eq_refl).
  - rewrite (proj2 (@method_binds_then_stores full object_first 5%N 1%nat
                      "print" second_argument fresh_full)
               _ JsErrorOutOfMemory JS_INVALID_REFERENCE _
               (ex_intro _ 1%N eq_refl) eq_refl eq_refl).
    reflexivity.
Defined.

(** The read-write property "c" defined on the object of
    [object_with_message] in both orders. *)
Lemma read_write_property_descriptor_witness :
  (let r := property_rw (E := roomy) (fun _ => object_first) 5%N "c" answer
                        second_argument object_with_message in
   fst r = Returned 5%N
   /\ pending (eng (snd r)) = None
   /\ property_of (eng (snd r)) 5%N "c" = Some 7%N
   /\ property_of (eng (snd r)) 7%N "configurable" = Some h_false
   /\ property_of (eng (snd r)) 7%N "get" = Some 8%N
   /\ property_of (eng (snd r)) 7%N "set" = Some 9%N)
  /\ (let r := property_rw (E := roomy) (fun _ => argument_first) 5%N "c"
                           answer second_argument object_with_message in
      fst r = Returned 5%N
      /\ pending (eng (snd r)) = None
      /\ property_of (eng (snd r)) 5%N "c" = Some 9%N
      /\ property_of (eng (snd r)) 9%N "configurable" = Some h_false
      /\ property_of (eng (snd r)) 9%N "get" = Some 8%N
      /\ property_of (eng (snd r)) 9%N "set" = Some 7%N).
Proof.
  cbv zeta. split.
  - assert (Hrun : property_rw (E := roomy) (fun _ => object_first) 5%N "c"
                     answer second_argument object_with_message
                   = (Returned 5%N,
                      snd (property_rw (E := roomy) (fun _ => object_first)
                             5%N "c" answer second_argument
                             object_with_message))).
    { apply (proj2 (proj2 (@read_write_property_descriptor roomy
                             (fun _ => object_first) 5%N "c" answer
                             second_argument object_with_message) 5%N _)).
      split; [reflexivity |].
      exists 7%N, h_false, 8%N, 9%N, 2%N, 3%N, 4%N, 5%N, true.
      cbn [describes defines operands writes binds app accepted answers].
      accept_calls. }
    rewrite Hrun. repeat split.
  - assert (Hrun : property_rw (E := roomy) (fun _ => argument_first) 5%N "c"
                     answer second_argument object_with_message
                   = (Returned 5%N,
                      snd (property_rw (E := roomy) (fun _ => argument_first)
                             5%N "c" answer second_argument
                             object_with_message))).
    { apply (proj2 (proj2 (@read_write_property_descriptor roomy
                             (fun _ => argument_first) 5%N "c" answer
                             second_argument object_with_message) 5%N _)).
      split; [reflexivity |].
      exists 9%N, h_false, 8%N, 7%N, 2%N, 3%N, 4%N, 5%N, true.
      cbn [describes defines operands writes binds app accepted answers].
      accept_calls. }
    rewrite Hrun. repeat split.
Defined.

Lemma narrow_read_wraps_witness :
  fst (as_ (E := roomy) t_short 5%N (snd (from t_int 70000 fresh)))
  = Returned 4464
  /\ fst (as_ (E := roomy) t_ushort 5%N (snd (from t_int (-1) fresh)))
     = Returned 65535.
Proof.
  split.
  - rewrite (proj1 (@narrow_read_wraps roomy t_short 5%N
                      (snd (from t_int 70000 fresh)) 70000 _
                      (or_intror (or_introl eq_refl)) eq_refl eq_refl
                      eq_refl)).
    reflexivity.
  - rewrite (proj1 (@narrow_read_wraps roomy t_ushort 5%N
                      (snd (from t_int (-1) fresh)) (-1) _
                      (or_intror (or_introl eq_refl)) eq_refl eq_refl
                      eq_refl)).
    reflexivity.
Defined.

Lemma handle_counts_balance_witness :
  exists st' w',
    rv_run (E := roomy) [CopyAssign 0 1; CopyConstruct 0; Destroy 1]
           [Some h_true; Some h_false] fresh
    = (Returned st', w')
    /\ net_count_of h_false (calls w') - net_count_of h_false (calls fresh)
       = live_holding h_false st'
         - live_holding h_false [Some h_true; Some h_false].
Proof.
  apply (@handle_counts_balance roomy h_false
           [CopyAssign 0 1; CopyConstruct 0; Destroy 1]
           [Some h_true; Some h_false] fresh).
  discriminate.
Defined.

Lemma runtime_disposed_once_witness :
  let r := Session.run [Session.MoveConstruct 0; Session.Default;
                        Session.MoveAssign 2 1; Session.Destroy 1;
                        Session.Destroy 2; Session.Destroy 0] [Some 7%N] in
  ((Session.owners 7%N (fst r) = 1 /\ Session.disposals 7%N (snd r) = 0)
   \/ (Session.owners 7%N (fst r) = 0 /\ Session.disposals 7%N (snd r) = 1))
  /\ snd r = [Session.Call_JsSetCurrentContext JS_INVALID_REFERENCE;
              Session.Call_JsDisposeRuntime 7%N].
Proof.
  split; [| reflexivity].
  apply (@runtime_disposed_once 7%N
           [Session.MoveConstruct 0; Session.Default;
            Session.MoveAssign 2 1; Session.Destroy 1;
            Session.Destroy 2; Session.Destroy 0]).
  discriminate.
Defined.

Lemma from_chooses_constructor_witness :
  calls (snd (from (E := roomy) t_longlong 5 fresh))
  = [Ev_JsDoubleToNumber (Dyadic 5 0)]
  /\ calls (snd (from (E := roomy) t_ushort 5 fresh)) = [Ev_JsIntToNumber 5]
  /\ calls (snd (from (E := full) t_unsigned 4000000000 fresh_full))
     = [Ev_JsDoubleToNumber (Dyadic 4000000000 0)].
Proof.
  split; [| split].
  - apply (@from_chooses_constructor roomy t_longlong 5 fresh).
    + right; right; right; reflexivity.
    + split; apply Z.leb_le; reflexivity.
  - apply (@from_chooses_constructor roomy t_ushort 5 fresh).
    + right; left; reflexivity.
    + split; apply Z.leb_le; reflexivity.
  - apply (@from_chooses_constructor full t_unsigned 4000000000 fresh_full).
    + right; right; left; reflexivity.
    + split; apply Z.leb_le; reflexivity.
Defined.

End ReferenceRuns.
